(** * FRET (Finger Ring Ensemble Topology): a shallow embedding

    The development follows the TypeScript sources of [packages/fret]:

    - [selector/next-hop.ts]        -> [Module NextHop]
    - [service/payload-heuristic.ts] -> [Module PayloadHeuristic],
                                        [Module PayloadInclusion]
    - [service/dedup-cache.ts]      -> [Module Dedup]
    - [rpc/leave.ts]                -> [Module Leave]
    - [service/fret-service.ts]     -> [Module Service], [Module Maintenance]

    Conventions.
    - A JavaScript [number] that holds a count, a TTL or a millisecond
      timestamp is a [Z]; a [number] that holds a real quantity (relevance,
      cost, confidence, size estimate) is an exact rational [Q].  Rounding of
      IEEE doubles, NaN and the infinities are outside the model.
    - A [Uint8Array] is a [list Z] whose elements are bytes (0..255).
    - A peer id is a [string]; [a < b] on ids is [String.ltb].
    - [Date.now()], the token buckets, the transport and the peer-id parser
      are inputs of the functions that use them. *)

From Stdlib Require Import ZArith QArith Qround List Bool String Ascii Lia Lqa Arith.
From Stdlib Require Import Sorting.Sorted Sorting.Permutation.
Import ListNotations.

Local Open Scope Z_scope.

Definition Id := string.

(* ------------------------------------------------------------------ *)
(** ** JavaScript array helpers *)

Module Js.

(** [Array.from(new Set(xs))]: a [Set] keeps the first insertion of every
    value and iterates in insertion order.  [seen] is the set built so far. *)
Fixpoint uniqFrom (seen : list Id) (xs : list Id) : list Id :=
  match xs with
  | [] => []
  | x :: rest =>
      if existsb (String.eqb x) seen then uniqFrom seen rest
      else x :: uniqFrom (x :: seen) rest
  end.

Definition uniq (xs : list Id) : list Id := uniqFrom [] xs.

(** [set.has(x)] for a set given by the list of its members. *)
Definition has (s : list Id) (x : Id) : bool := existsb (String.eqb x) s.

(** [xs.slice(0, n)] for an integer [n]: a negative [n] counts from the
    end. *)
Definition slice0 {A} (n : Z) (xs : list A) : list A :=
  if n <? 0 then firstn (List.length xs - Z.to_nat (- n)) xs
  else firstn (Z.to_nat n) xs.

(** [xs.slice(-n)] for [n > 0]: the last [n] elements. *)
Definition sliceLast {A} (n : nat) (xs : list A) : list A :=
  skipn (List.length xs - n) xs.

(** [Array.prototype.sort(cmp)] is stable; [cmp a b] is the number the
    comparator returns, and [a] stays before [b] unless that number is
    positive.  For a consistent comparator every stable sort gives the same
    array, here written as an insertion sort. *)
Fixpoint insertBy {A} (cmp : A -> A -> Q) (x : A) (l : list A) : list A :=
  match l with
  | [] => [x]
  | y :: r => if Qle_bool (cmp x y) 0%Q then x :: y :: r else y :: insertBy cmp x r
  end.

Fixpoint sortBy {A} (cmp : A -> A -> Q) (l : list A) : list A :=
  match l with
  | [] => []
  | x :: r => insertBy cmp x (sortBy cmp r)
  end.

(** [Math.round]: the nearest integer, ties toward +infinity. *)
Definition mathRound (x : Q) : Z := Qfloor (x + (1 # 2))%Q.

End Js.

(* ------------------------------------------------------------------ *)
(** ** Ring arithmetic ([ring/distance.ts], not among the sources) *)

Module Ring.

Definition Coord := list Z.

(** Modelled from the spec: [ring/distance.ts] is missing; the spec says
    "[xorDistance(a,b)] returns the byte-wise XOR of two 32-byte
    coordinates". *)
Fixpoint xorDistance (a b : Coord) : Coord :=
  match a, b with
  | x :: a', y :: b' => Z.lxor x y :: xorDistance a' b'
  | _, _ => []
  end.

(** Modelled from the spec: [ring/distance.ts] is missing; the spec says
    "[lexLess(a,b)] is lexicographic compare".  The first differing byte
    decides; a proper prefix is smaller. *)
Fixpoint lexLess (a b : Coord) : bool :=
  match a, b with
  | [], [] => false
  | [], _ :: _ => true
  | _ :: _, [] => false
  | x :: a', y :: b' =>
      if x <? y then true else if y <? x then false else lexLess a' b'
  end.

(** The test helper [coordByte(b)]: 32 bytes, the last one [b]. *)
Definition coordByte (b : Z) : Coord := repeat 0 31 ++ [b].

Definition zeroCoord : Coord := repeat 0 32%nat.

End Ring.

(* ------------------------------------------------------------------ *)
(** ** Payload heuristic ([service/payload-heuristic.ts]) *)

Module PayloadHeuristic.

(** [bytesToBigInt]: [v = (v << 8n) | BigInt(u8[i])], left to right. *)
Definition bytesToBigInt (u8 : list Z) : Z :=
  fold_left (fun v b => Z.lor (Z.shiftl v 8) b) u8 0.

(** [const RING_SIZE = 1n << 256n]. *)
Definition RING_SIZE : Z := Z.shiftl 1 256.

(** The loop [for (i = 31; i >= 0; i--) { out[i] = Number(val & 0xffn);
    val >>= 8n }], run for [n] positions from the right; [acc] holds the
    bytes already written. *)
Fixpoint fillBytes (n : nat) (val : Z) (acc : list Z) : list Z :=
  match n with
  | O => acc
  | S n' => fillBytes n' (Z.shiftr val 8) (Z.land val 255 :: acc)
  end.

(** [computeNearRadius(sizeEstimate, k, beta = 2)].  [BigInt] division
    truncates toward zero ([Z.quot]); [k] and [beta] are integers, as
    [BigInt(k)] requires. *)
Definition computeNearRadius (sizeEstimate : Q) (k : Z) (beta : Z) : list Z :=
  if Qlt_le_dec sizeEstimate 1%Q then repeat 0 32%nat
  else
    let span := k * (Z.quot RING_SIZE (Z.max 1 (Js.mathRound sizeEstimate))) in
    let val := span * beta in
    let val := if RING_SIZE <=? val then RING_SIZE - 1 else val in
    fillBytes 32 val [].

(** The default [beta = 2]. *)
Definition computeNearRadiusDefault (sizeEstimate : Q) (k : Z) : list Z :=
  computeNearRadius sizeEstimate k 2.

End PayloadHeuristic.

(* ------------------------------------------------------------------ *)
(** ** Digitree store ([store/digitree-store.ts], not among the sources) *)

Module Store.

Import Ring.

Inductive PeerState := connected | disconnected.

(** The peer entry of the spec's data model (metadata is opaque and left
    out). *)
Record PeerEntry := mkEntry {
  id : Id;
  coord : Coord;
  state : PeerState;
  relevance : Q;
  lastAccess : Z;
  accessCount : Z;
  successCount : Z;
  failureCount : Z;
  avgLatencyMs : Q
}.

(** The store holds its entries in ring order (by coordinate, ties by id);
    ids are unique. *)
Definition DigitreeStore := list PeerEntry.

Definition empty : DigitreeStore := [].

Definition coordEq (a b : Coord) : bool :=
  negb (lexLess a b) && negb (lexLess b a).

(** Ring order of entries: "Tie-break on equal coordinates is lexicographic
    on id". *)
Definition entryBefore (a b : PeerEntry) : bool :=
  lexLess (coord a) (coord b)
  || (coordEq (coord a) (coord b) && String.ltb (id a) (id b)).

(** Modelled from the spec: [getById(id)]. *)
Definition getById (s : DigitreeStore) (i : Id) : option PeerEntry :=
  find (fun e => String.eqb (id e) i) s.

(** Modelled from the spec: [remove(id)]. *)
Definition remove (s : DigitreeStore) (i : Id) : DigitreeStore :=
  filter (fun e => negb (String.eqb (id e) i)) s.

(** Modelled from the spec: [size()] and [list()] (the entries in ring
    order; named [listEntries] here). *)
Definition size (s : DigitreeStore) : Z := Z.of_nat (List.length s).
Definition listEntries (s : DigitreeStore) : DigitreeStore := s.

Fixpoint insertOrdered (e : PeerEntry) (s : DigitreeStore) : DigitreeStore :=
  match s with
  | [] => [e]
  | x :: r => if entryBefore e x then e :: x :: r else x :: insertOrdered e r
  end.

(** Modelled from the spec: [upsert(id, coord)] creates the entry of [id] or
    moves it to [coord]; a new entry starts disconnected with zero counters
    and [lastAccess = now]. *)
Definition upsert (now : Z) (s : DigitreeStore) (i : Id) (c : Coord) : DigitreeStore :=
  match getById s i with
  | Some e =>
      insertOrdered
        (mkEntry i c (state e) (relevance e) (lastAccess e) (accessCount e)
           (successCount e) (failureCount e) (avgLatencyMs e))
        (remove s i)
  | None => insertOrdered (mkEntry i c disconnected 0%Q now 0 0 0 0%Q) s
  end.

(** Modelled from the spec: [update(id, patch)] replaces the entry of [id] by
    [patch] applied to it, keeping its id and coordinate. *)
Definition update (s : DigitreeStore) (i : Id) (patch : PeerEntry -> PeerEntry)
  : DigitreeStore :=
  map (fun e =>
         if String.eqb (id e) i then
           let p := patch e in
           mkEntry (id e) (coord e) (state p) (relevance p) (lastAccess p)
             (accessCount p) (successCount p) (failureCount p) (avgLatencyMs p)
         else e) s.

(** Modelled from the spec: [setState(id, state)]. *)
Definition setState (s : DigitreeStore) (i : Id) (st : PeerState) : DigitreeStore :=
  update s i (fun e =>
    mkEntry (id e) (coord e) st (relevance e) (lastAccess e) (accessCount e)
      (successCount e) (failureCount e) (avgLatencyMs e)).

(** The successor walk from [c]: the entries at or after [c] in ring order,
    then (after the wrap) those before [c]; every entry once. *)
Definition ringRight (s : DigitreeStore) (c : Coord) : list PeerEntry :=
  filter (fun e => negb (lexLess (coord e) c)) s
  ++ filter (fun e => lexLess (coord e) c) s.

(** The predecessor walk from [c], mirrored: the entries at or before [c] in
    decreasing order, then (after the wrap) those after [c]. *)
Definition ringLeft (s : DigitreeStore) (c : Coord) : list PeerEntry :=
  rev (filter (fun e => negb (lexLess c (coord e))) s)
  ++ rev (filter (fun e => lexLess c (coord e)) s).

(** Modelled from the spec: "[neighborsRight(coord, k)] returns up to [k] ids
    in strictly increasing coordinate order starting at the first entry whose
    coordinate is >= [coord] (or at the smallest coordinate after wrap when
    none exists)". *)
Definition neighborsRight (s : DigitreeStore) (c : Coord) (k : Z) : list Id :=
  firstn (Z.to_nat k) (map id (ringRight s c)).

(** Modelled from the spec: "[neighborsLeft] mirrors this in decreasing
    order". *)
Definition neighborsLeft (s : DigitreeStore) (c : Coord) (k : Z) : list Id :=
  firstn (Z.to_nat k) (map id (ringLeft s c)).

(** Modelled from the spec: "[protectedIdsAround(self, m)] -- the union of the
    [m] nearest-right and [m] nearest-left". *)
Definition protectedIdsAround (s : DigitreeStore) (self : Coord) (m : Z) : list Id :=
  Js.uniq (neighborsRight s self m ++ neighborsLeft s self m).

(** The mutations a caller can apply to a store. *)
Inductive StoreOp :=
| OpUpsert (now : Z) (i : Id) (c : Coord)
| OpUpdate (i : Id) (patch : PeerEntry -> PeerEntry)
| OpSetState (i : Id) (st : PeerState)
| OpRemove (i : Id).

Definition applyOp (s : DigitreeStore) (op : StoreOp) : DigitreeStore :=
  match op with
  | OpUpsert now i c => upsert now s i c
  | OpUpdate i patch => update s i patch
  | OpSetState i st => setState s i st
  | OpRemove i => remove s i
  end.

(** The store after a sequence of mutations of a fresh store. *)
Definition runOps (ops : list StoreOp) : DigitreeStore :=
  fold_left applyOp ops empty.

End Store.

(* ------------------------------------------------------------------ *)
(** ** Next-hop selector ([selector/next-hop.ts]) *)

Module NextHop.

Import Ring Store.

Definition LinkQuality := Id -> Q.
Definition IsConnected := Id -> bool.
Definition BackoffPenalty := Id -> Q.

Record NextHopOptions := mkOpts {
  nearRadius : option Coord;
  confidence : option Q;
  backoffPenalty : option BackoffPenalty;
  connectedToleranceBytes : option Z
}.

(** The last parameter of [chooseNextHop]:
    [optionsOrTolerance?: NextHopOptions | number]. *)
Inductive OptionsOrTolerance :=
| NoOptions
| Tolerance (n : Z)
| Options (o : NextHopOptions).

(** [leadingByteIndex]: the index of the first non-zero byte; [None] stands
    for [Number.POSITIVE_INFINITY]. *)
Fixpoint leadingByteIndexFrom (i : Z) (u8 : list Z) : option Z :=
  match u8 with
  | [] => None
  | b :: r => if b =? 0 then leadingByteIndexFrom (i + 1) r else Some i
  end.

Definition leadingByteIndex (u8 : list Z) : option Z := leadingByteIndexFrom 0 u8.

Fixpoint equalBytesFrom (a b : list Z) : bool :=
  match a, b with
  | [], [] => true
  | x :: a', y :: b' => (x =? y) && equalBytesFrom a' b'
  | _, _ => false
  end.

Definition equalBytes (a b : list Z) : bool :=
  (Nat.eqb (List.length a) (List.length b)) && equalBytesFrom a b.

Definition betterByDist (idA : Id) (distA : Coord) (idB : Id) (distB : Coord) : bool :=
  if lexLess distA distB then true
  else if lexLess distB distA then false
  else String.ltb idA idB.

Definition isNear (dist nearRadius : Coord) : bool := negb (lexLess nearRadius dist).

Record CostWeights := mkW { wD : Q; wConn : Q; wQ : Q; wB : Q }.

Definition qmax (a b : Q) : Q := if Qle_bool a b then b else a.
Definition qmin (a b : Q) : Q := if Qle_bool a b then a else b.

Definition weightsForContext (near : bool) (confidence : Q) : CostWeights :=
  let wD0 := if near then 7 # 10 else 4 # 10 in
  let wConn0 := if near then 1 # 10 else 4 # 10 in
  let cAdj := ((confidence - (1 # 2)) * (2 # 10))%Q in
  mkW (qmax (1 # 10) (wD0 + cAdj)%Q) (qmax (5 # 100) (wConn0 - cAdj)%Q) (1 # 10) (1 # 10).

(** [Math.clz32(v) - 24] for a non-zero byte [v]. *)
Definition clzByte (v : Z) : Z := 7 - Z.log2 v.

Fixpoint lzBitsFrom (acc : Z) (dist : list Z) : Z :=
  match dist with
  | [] => acc
  | v :: r => if v =? 0 then lzBitsFrom (acc + 8) r else acc + clzByte v
  end.

Definition normalizeDistance (dist : list Z) : Q :=
  let lzBits := lzBitsFrom 0 dist in
  let totalBits := Z.of_nat (List.length dist) * 8 in
  if totalBits <=? lzBits then 0%Q
  else qmax 0 (qmin 1 (1 - (inject_Z lzBits / inject_Z totalBits))%Q).

Definition cost (normDist : Q) (connected : bool) (linkQ backoff : Q) (w : CostWeights) : Q :=
  (wD w * normDist - wConn w * (if connected then 1 else 0) - wQ w * linkQ + wB w * backoff)%Q.

Record Scored := mkScored {
  s_id : Id;
  s_dist : Coord;
  s_near : bool;
  s_connected : bool;
  s_costVal : Q
}.

(** The comparator of [nearCandidates.sort]. *)
Definition nearCmp (a b : Scored) : Q :=
  if betterByDist (s_id a) (s_dist a) (s_id b) (s_dist b) then (-1)%Q
  else if betterByDist (s_id b) (s_dist b) (s_id a) (s_dist a) then 1%Q
  else if negb (Bool.eqb (s_connected a) (s_connected b)) then
         (if s_connected a then (-1)%Q else 1%Q)
  else (s_costVal a - s_costVal b)%Q.

(** The comparator of [farCandidates.sort]. *)
Definition farCmp (a b : Scored) : Q :=
  if negb (Qeq_bool (s_costVal a) (s_costVal b)) then (s_costVal a - s_costVal b)%Q
  else if betterByDist (s_id a) (s_dist a) (s_id b) (s_dist b) then (-1)%Q else 1%Q.

(** The scoring loop of [chooseNextHopCost]. *)
Definition scoreCandidates (store : DigitreeStore) (targetCoord : Coord)
  (candidates : list Id) (isConnected : IsConnected) (linkQ : LinkQuality)
  (confidence : Q) (backoff : BackoffPenalty) (nearRadius : Coord) : list Scored :=
  flat_map (fun i =>
    match getById store i with
    | None => []
    | Some entry =>
        let dist := xorDistance (coord entry) targetCoord in
        let near := isNear dist nearRadius in
        let connected := isConnected i in
        let w := weightsForContext near confidence in
        let costVal := cost (normalizeDistance dist) connected (linkQ i) (backoff i) w in
        [mkScored i dist near connected costVal]
    end) candidates.

Definition chooseNextHopCost (store : DigitreeStore) (targetCoord : Coord)
  (candidates : list Id) (isConnected : IsConnected) (linkQ : LinkQuality)
  (opts : NextHopOptions) (nearRadius : Coord) : option Id :=
  let confidence := match confidence opts with Some c => c | None => 1 # 2 end in
  let backoff := match backoffPenalty opts with Some f => f | None => fun _ => 0%Q end in
  let scored := scoreCandidates store targetCoord candidates isConnected linkQ
                  confidence backoff nearRadius in
  match scored with
  | [] => None
  | _ :: _ =>
      let nearCandidates := filter s_near scored in
      let farCandidates := filter (fun s => negb (s_near s)) scored in
      match Js.sortBy nearCmp nearCandidates with
      | first :: _ => Some (s_id first)
      | [] =>
          match Js.sortBy farCmp farCandidates with
          | first :: _ => Some (s_id first)
          | [] => None
          end
      end
  end.

Record LegacyScored := mkLegacy {
  l_id : Id;
  l_dist : Coord;
  l_connected : bool;
  l_score : Q
}.

(** The first loop of [chooseNextHopLegacy]: the scored candidates. *)
Definition legacyScored (store : DigitreeStore) (targetCoord : Coord)
  (candidates : list Id) (isConnected : IsConnected) (linkQ : LinkQuality)
  : list LegacyScored :=
  flat_map (fun i =>
    match getById store i with
    | None => []
    | Some entry =>
        let dist := xorDistance (coord entry) targetCoord in
        let connected := isConnected i in
        let score := ((if connected then 1 else 0) + (25 # 100) * linkQ i)%Q in
        [mkLegacy i dist connected score]
    end) candidates.

(** The first loop of [chooseNextHopLegacy]: [bestByDist], updated in the
    same pass. *)
Definition bestByDistStep (best : option (Id * Coord)) (s : LegacyScored)
  : option (Id * Coord) :=
  match best with
  | None => Some (l_id s, l_dist s)
  | Some (bid, bdist) =>
      if betterByDist (l_id s) (l_dist s) bid bdist then Some (l_id s, l_dist s)
      else best
  end.

(** [lead <= bestLead + connectedToleranceBytes] with [None] as +infinity. *)
Definition withinTolerance (lead bestLead : option Z) (tol : Z) : bool :=
  match bestLead, lead with
  | None, _ => true
  | Some _, None => false
  | Some b, Some l => l <=? b + tol
  end.

(** One iteration of the second loop of [chooseNextHopLegacy]. *)
Definition bestConnectedStep (bestLead : option Z) (tol : Z)
  (best : option LegacyScored) (s : LegacyScored) : option LegacyScored :=
  if negb (l_connected s) then best
  else if withinTolerance (leadingByteIndex (l_dist s)) bestLead tol then
    match best with
    | None => Some s
    | Some bc =>
        if betterByDist (l_id s) (l_dist s) (l_id bc) (l_dist bc) then Some s
        else if equalBytes (l_dist s) (l_dist bc) then
          if Qlt_le_dec (l_score bc) (l_score s) then Some s
          else if Qeq_bool (l_score s) (l_score bc) && String.ltb (l_id s) (l_id bc)
               then Some s else best
        else best
    end
  else best.

Definition chooseNextHopLegacy (store : DigitreeStore) (targetCoord : Coord)
  (candidates : list Id) (isConnected : IsConnected) (linkQ : LinkQuality)
  (connectedToleranceBytes : Z) : option Id :=
  let scored := legacyScored store targetCoord candidates isConnected linkQ in
  match fold_left bestByDistStep scored None with
  | None => None
  | Some (bid, bdist) =>
      let bestLead := leadingByteIndex bdist in
      match fold_left (bestConnectedStep bestLead connectedToleranceBytes) scored None with
      | Some bc => Some (l_id bc)
      | None => Some bid
      end
  end.

Definition chooseNextHop (store : DigitreeStore) (targetCoord : Coord)
  (candidates : list Id) (isConnected : IsConnected) (linkQ : LinkQuality)
  (optionsOrTolerance : OptionsOrTolerance) : option Id :=
  let opts :=
    match optionsOrTolerance with
    | Tolerance n => mkOpts None None None (Some n)
    | Options o => o
    | NoOptions => mkOpts None None None None
    end in
  match nearRadius opts with
  | Some r => chooseNextHopCost store targetCoord candidates isConnected linkQ opts r
  | None =>
      chooseNextHopLegacy store targetCoord candidates isConnected linkQ
        (match connectedToleranceBytes opts with Some t => t | None => 1 end)
  end.

End NextHop.

(* ------------------------------------------------------------------ *)
(** ** Dedup cache ([service/dedup-cache.ts]) *)

Module Dedup.

Section Cache.
Context {T : Type}.

Record CacheEntry := mkCacheEntry { result : T; expires : Z }.

(** [entries] is the [Map], in insertion order. *)
Record DedupCache := mkCache {
  entries : list (string * CacheEntry);
  ttlMs : Z;
  maxSize : Z
}.

(** [new DedupCache(ttlMs = 30_000, maxSize = 1024)]. *)
Definition newCache : DedupCache := mkCache [] 30000 1024.

Definition mapGet (m : list (string * CacheEntry)) (key : string) : option CacheEntry :=
  match find (fun kv => String.eqb (fst kv) key) m with
  | Some kv => Some (snd kv)
  | None => None
  end.

Definition mapDelete (m : list (string * CacheEntry)) (key : string)
  : list (string * CacheEntry) :=
  filter (fun kv => negb (String.eqb (fst kv) key)) m.

(** [Map.prototype.set]: the value of a present key is replaced where it
    stands; a new key goes last. *)
Fixpoint mapSet (m : list (string * CacheEntry)) (key : string) (v : CacheEntry)
  : list (string * CacheEntry) :=
  match m with
  | [] => [(key, v)]
  | (k0, v0) :: r =>
      if String.eqb k0 key then (k0, v) :: r else (k0, v0) :: mapSet r key v
  end.

Definition withEntries (c : DedupCache) (m : list (string * CacheEntry)) : DedupCache :=
  mkCache m (ttlMs c) (maxSize c).

(** [get(key)]: the cached result and the cache after the call (an expired
    entry is deleted). *)
Definition get (now : Z) (c : DedupCache) (key : string) : option T * DedupCache :=
  match mapGet (entries c) key with
  | None => (None, c)
  | Some e =>
      if expires e <? now then (None, withEntries c (mapDelete (entries c) key))
      else (Some (result e), c)
  end.

Definition has (now : Z) (c : DedupCache) (key : string) : bool * DedupCache :=
  match get now c key with
  | (Some _, c') => (true, c')
  | (None, c') => (false, c')
  end.

Definition evictExpired (now : Z) (c : DedupCache) : DedupCache :=
  withEntries c (filter (fun kv => negb (expires (snd kv) <? now)) (entries c)).

Definition evictOldest (c : DedupCache) : DedupCache :=
  withEntries c (tl (entries c)).

Definition mapSize (c : DedupCache) : Z := Z.of_nat (List.length (entries c)).

Definition set (now : Z) (c : DedupCache) (key : string) (r : T) : DedupCache :=
  let c1 := if maxSize c <=? mapSize c then evictExpired now c else c in
  let c2 := if maxSize c1 <=? mapSize c1 then evictOldest c1 else c1 in
  withEntries c2 (mapSet (entries c2) key (mkCacheEntry r (now + ttlMs c2))).

End Cache.

Arguments CacheEntry : clear implicits.
Arguments DedupCache : clear implicits.

End Dedup.

(* ------------------------------------------------------------------ *)
(** ** Leave notices ([rpc/leave.ts]) *)

Module Leave.

Record LeaveNoticeV1 := mkNotice {
  from : Id;
  replacements : option (list Id);
  timestamp : Z
}.

Definition MAX_REPLACEMENTS : Z := 12.

Section Sanitize.

(** [peerIdFromString(id)] of the peer-id library: [true] when the id parses,
    [false] when the call throws. *)
Variable peerIdFromString : Id -> bool.

Definition sanitizeReplacements (ids : option (list Id)) : option (list Id) :=
  match ids with
  | None => None
  | Some [] => None
  | Some l =>
      match filter peerIdFromString (Js.slice0 MAX_REPLACEMENTS l) with
      | [] => None
      | valid => Some valid
      end
  end.

(** The handler installed by [registerLeave], after the notice is decoded:
    the notice that [onLeave] receives. *)
Definition registerLeave_notice (msg : LeaveNoticeV1) : LeaveNoticeV1 :=
  mkNotice (from msg) (sanitizeReplacements (replacements msg)) (timestamp msg).

(** What [onLeave] sees as [notice.replacements ?? []]. *)
Definition handlerReplacements (msg : LeaveNoticeV1) : list Id :=
  match replacements (registerLeave_notice msg) with
  | Some l => l
  | None => []
  end.

End Sanitize.

End Leave.

(* ------------------------------------------------------------------ *)
(** ** The service ([service/fret-service.ts]) *)

Module Service.

Import Ring Store NextHop.

Inductive Profile := edge | core.

Record FretConfig := mkConfig {
  k : Z;
  m : Z;
  capacity : Z;
  profile : Profile
}.

(** Wire messages ([index.ts]). *)
Record RouteAndMaybeActV1 := mkMsg {
  key : string;
  want_k : option Z;
  ttl : Z;
  min_sigs : Z;
  digest : option string;
  activity : option string;
  breadcrumbs : option (list Id);
  correlation_id : string;
  timestamp : Z;
  signature : string
}.

Record NearAnchorV1 := mkNearAnchor {
  anchors : list Id;
  cohort_hint : list Id;
  estimated_cluster_size : Q;
  na_confidence : Q
}.

(** [NearAnchorV1 | { commitCertificate: string }]. *)
Inductive RouteResult :=
| RNearAnchor (a : NearAnchorV1)
| RCommit (commitCertificate : string).

(** [NearAnchorV1 | BusyResponseV1 | { commitCertificate: string }]. *)
Inductive Response :=
| NearAnchor (a : NearAnchorV1)
| Busy (retry_after_ms : Z)
| Commit (commitCertificate : string).

Definition responseOf (r : RouteResult) : Response :=
  match r with
  | RNearAnchor a => NearAnchor a
  | RCommit c => Commit c
  end.

Record Rejected := mkRejected {
  payloadTooLarge : Z;
  timestampBounds : Z;
  ttlExpired : Z;
  rateLimited : Z
}.

Record Diag := mkDiag {
  maybeActForwarded : Z;
  rejected : Rejected
}.

Record Backoff := mkBackoff { until : Z; factor : Z }.

Record Observation := mkObs {
  estimate : Q;
  obs_confidence : Q;
  obs_timestamp : Z;
  source : string
}.

(** The fields of [FretService] that the modelled methods read or write. *)
Record State := mkState {
  store : DigitreeStore;
  cachedSelfCoord : option Coord;
  inflightAct : Z;
  dedupCache : Dedup.DedupCache RouteResult;
  backoffMap : list (Id * Backoff);
  diag : Diag;
  networkObservations : list Observation
}.

(** What a call of [sendMaybeAct] comes back with. *)
Inductive SendOutcome :=
| SendBusy (retry_after_ms : Z)
| SendResult (r : RouteResult)
| SendThrows.

(** What a call of the activity callback comes back with. *)
Inductive ActivityOutcome :=
| ActivityResult (commitCertificate : string)
| ActivityThrows.

(** The host runtime and the modules that are not among the sources, as seen
    by one invocation. *)
Record Env := mkEnv {
  selfId : Id;                              (* node.peerId.toString() *)
  hashPeerId : Id -> Coord;                 (* ring/hash.js *)
  hashKey : string -> Coord;                (* hashKey(u8FromString(key, 'base64url')) *)
  now : Z;                                  (* Date.now() *)
  bucketMaybeAct_tryTake : bool;            (* utils/token-bucket.js *)
  bucketMaybeAct_retryAfterMs : Z;
  isConnected : Id -> bool;                 (* node.getConnections(..).length > 0 *)
  estimateSizeAndConfidence : DigitreeStore -> Z -> Q * Q;  (* estimate/size-estimator.js *)
  activityHandler : option (string -> list Id -> Z -> string -> ActivityOutcome);
  sendMaybeAct : Id -> RouteAndMaybeActV1 -> SendOutcome;
  scoreSuccess : Coord -> PeerEntry -> PeerEntry   (* store/relevance.js, at latency 0 *)
}.

(** Modelled from the spec: [validateTimestamp] of [rpc/protocols.ts] is
    missing; the spec says [|nowMs - tsMs| <= 5 * 60 * 1000]. *)
Definition validateTimestamp (nowMs tsMs : Z) : bool :=
  Z.abs (nowMs - tsMs) <=? 5 * 60 * 1000.

(** *** Capacity enforcement *)

(** The loop of [enforceCapacity] over the sorted snapshot [entries]. *)
Fixpoint evictLoop (cap : Z) (protectedIds : list Id) (entries : list PeerEntry)
  (s : DigitreeStore) : DigitreeStore :=
  match entries with
  | [] => s
  | e :: rest =>
      if Store.size s <=? cap then s
      else if Js.has protectedIds (id e) then evictLoop cap protectedIds rest s
      else evictLoop cap protectedIds rest (Store.remove s (id e))
  end.

Definition relevanceCmp (a b : PeerEntry) : Q := (relevance a - relevance b)%Q.

Definition enforceCapacity (cfg : FretConfig) (self : option Coord) (s : DigitreeStore)
  : DigitreeStore :=
  let cap := Z.max 1 (capacity cfg) in
  if Store.size s <=? cap then s
  else
    match self with
    | None => s
    | Some selfCoord =>
        let protectedIds := protectedIdsAround s selfCoord (Z.max 2 (m cfg)) in
        let entries := Js.sortBy relevanceCmp (Store.listEntries s) in
        evictLoop cap protectedIds entries s
    end.

(** *** Cohorts and neighbours *)

(** [if (id && !ex.has(id)) out.push(id)]: an empty id is falsy. *)
Definition pushUnlessExcluded (ex : list Id) (out : list Id) (i : Id) : list Id :=
  if negb (String.eqb i "") && negb (Js.has ex i) then out ++ [i] else out.

(** The [while] loop of [assembleCohort]; [succIds] and [predIds] are the
    parts of the two walks not yet consumed ([si], [pi] onwards).  Every
    iteration consumes one id of one walk. *)
Fixpoint cohortLoop (wants : Z) (ex : list Id) (succIds : list Id)
  : list Id -> list Id -> list Id :=
  fix onPred (predIds : list Id) (out : list Id) {struct predIds} : list Id :=
    if (Z.of_nat (List.length out) <? wants)
    then
      match succIds, predIds with
      | [], [] => out
      | i :: succ', [] => cohortLoop wants ex succ' [] (pushUnlessExcluded ex out i)
      | [], i :: pred' => onPred pred' (pushUnlessExcluded ex out i)
      | i :: succ', j :: pred' =>
          if Nat.even (List.length out)
          then cohortLoop wants ex succ' predIds (pushUnlessExcluded ex out i)
          else onPred pred' (pushUnlessExcluded ex out j)
      end
    else out.

(** [assembleCohort(hashedCoord, wants, exclude?)]; an absent [exclude] is
    the empty set. *)
Definition assembleCohort (s : DigitreeStore) (hashedCoord : Coord) (wants : Z)
  (exclude : list Id) : list Id :=
  let succIds := neighborsRight s hashedCoord (wants * 2) in
  let predIds := neighborsLeft s hashedCoord (wants * 2) in
  let out := cohortLoop wants exclude succIds predIds [] in
  Js.slice0 wants (Js.uniq out).

Fixpoint findIndexFrom (n : nat) (self : Id) (l : list Id) : option nat :=
  match l with
  | [] => None
  | x :: r => if String.eqb x self then Some n else findIndexFrom (S n) self r
  end.

(** [neighborDistance]: [None] stands for [Number.POSITIVE_INFINITY]. *)
Definition neighborDistance (s : DigitreeStore) (self : Id) (hashedCoord : Coord)
  (k : Z) : option nat :=
  let wants := Z.max 1 k in
  let cohort := assembleCohort s hashedCoord wants [] in
  findIndexFrom 0 self cohort.

Inductive Direction := left | right | both.

Definition getNeighbors (s : DigitreeStore) (hashedCoord : Coord) (direction : Direction)
  (wants : Z) : list Id :=
  let r := match direction with
           | right | both => neighborsRight s hashedCoord wants
           | left => []
           end in
  let l := match direction with
           | left | both => neighborsLeft s hashedCoord wants
           | right => []
           end in
  Js.slice0 wants (Js.uniq (r ++ l)).

(** *** Per-peer backoff *)

Definition backoffGet (mp : list (Id * Backoff)) (i : Id) : option Backoff :=
  match find (fun kv => String.eqb (fst kv) i) mp with
  | Some kv => Some (snd kv)
  | None => None
  end.

Definition backoffDelete (mp : list (Id * Backoff)) (i : Id) : list (Id * Backoff) :=
  filter (fun kv => negb (String.eqb (fst kv) i)) mp.

Fixpoint backoffSet (mp : list (Id * Backoff)) (i : Id) (b : Backoff)
  : list (Id * Backoff) :=
  match mp with
  | [] => [(i, b)]
  | (i0, b0) :: r =>
      if String.eqb i0 i then (i0, b) :: r else (i0, b0) :: backoffSet r i b
  end.

Definition recordBackoff (nowMs : Z) (mp : list (Id * Backoff)) (i : Id)
  : list (Id * Backoff) :=
  let f := match backoffGet mp i with
           | Some existing => Z.min (factor existing * 2) 32
           | None => 1
           end in
  backoffSet mp i (mkBackoff (nowMs + 1000 * f) f).

Definition clearBackoff (mp : list (Id * Backoff)) (i : Id) : list (Id * Backoff) :=
  backoffDelete mp i.

(** The number [getBackoffPenalty(id)] returns. *)
Definition getBackoffPenalty (nowMs : Z) (mp : list (Id * Backoff)) (i : Id) : Q :=
  match backoffGet mp i with
  | None => 0%Q
  | Some bo =>
      if until bo <? nowMs then 0%Q
      else NextHop.qmin 1 (inject_Z (factor bo) / 32)%Q
  end.

(** The map after [getBackoffPenalty(id)]: an expired entry is deleted. *)
Definition backoffAfterPenalty (nowMs : Z) (mp : list (Id * Backoff)) (i : Id)
  : list (Id * Backoff) :=
  match backoffGet mp i with
  | None => mp
  | Some bo => if until bo <? nowMs then backoffDelete mp i else mp
  end.

(** *** Routing *)

Definition linkQuality (s : DigitreeStore) (i : Id) : Q :=
  match getById s i with
  | None => 0%Q
  | Some entry =>
      let total := successCount entry + failureCount entry in
      if total =? 0 then (1 # 2)%Q
      else (inject_Z (successCount entry) / inject_Z total)%Q
  end.

(** [[first, second].filter(Boolean)]: [undefined] and the empty id go. *)
Definition truthyIds (l : list (option Id)) : list Id :=
  flat_map (fun o => match o with
                     | Some i => if String.eqb i "" then [] else [i]
                     | None => []
                     end) l.

Definition pickAnchors (env : Env) (s : DigitreeStore) (candidates : list Id) : list Id :=
  let unique := Js.uniq candidates in
  match unique with
  | [] => []
  | _ :: _ =>
      let linkQ := fun _ : Id => (1 # 2)%Q in
      let selfCoord := Ring.zeroCoord in
      let first := chooseNextHop s selfCoord unique (isConnected env) linkQ NoOptions in
      let rest := filter (fun i => match first with
                                   | Some f => negb (String.eqb i f)
                                   | None => true
                                   end) unique in
      let second := chooseNextHop s selfCoord rest (isConnected env) linkQ NoOptions in
      truthyIds [first; second]
  end.

Definition nearAnchorOnly (env : Env) (cfg : FretConfig) (s : DigitreeStore)
  (msg : RouteAndMaybeActV1) : NearAnchorV1 :=
  let coord := hashKey env (key msg) in
  let r := getNeighbors s coord right (m cfg) in
  let l := getNeighbors s coord left (m cfg) in
  let anchors := pickAnchors env s (Js.slice0 3 r ++ Js.slice0 3 l) in
  mkNearAnchor anchors (Js.uniq (Js.slice0 2 r ++ Js.slice0 2 l))
    (inject_Z (k cfg)) (1 # 2)%Q.

Definition buildNearAnchor (env : Env) (cfg : FretConfig) (s : DigitreeStore)
  (coord : Coord) (n confidence : Q) : NearAnchorV1 :=
  let r := getNeighbors s coord right (m cfg) in
  let l := getNeighbors s coord left (m cfg) in
  let anchors := pickAnchors env s (Js.slice0 4 r ++ Js.slice0 4 l) in
  mkNearAnchor anchors (Js.uniq (Js.slice0 4 r ++ Js.slice0 4 l))
    (NextHop.qmax (inject_Z (k cfg)) n) confidence.

Definition buildNextHopOptions (env : Env) (cfg : FretConfig) (st : State)
  (sizeEstimate confidence : Q) : NextHopOptions :=
  mkOpts (Some (PayloadHeuristic.computeNearRadius sizeEstimate (k cfg) 2))
    (Some confidence)
    (Some (getBackoffPenalty (now env) (backoffMap st)))
    None.

(** [applySuccess(id, coord, 0)]: the entry is created when missing and
    patched with what [scoreSuccess] returns. *)
Definition applySuccess (env : Env) (selfCoord : Coord) (s : DigitreeStore) (i : Id)
  (c : Coord) : DigitreeStore :=
  let s1 := match getById s i with
            | Some _ => s
            | None => Store.upsert (now env) s i c
            end in
  Store.update s1 i (scoreSuccess env selfCoord).

(** A message handed to [sendMaybeAct]: the peer it goes to and its body. *)
Record Forward := mkForward { target : Id; forwarded : RouteAndMaybeActV1 }.

(** What [routeAct] ends with: a result, or an exception. *)
Inductive RouteOutcome :=
| Returned (r : RouteResult)
| Thrown.

Definition withStore (st : State) (s : DigitreeStore) : State :=
  mkState s (cachedSelfCoord st) (inflightAct st) (dedupCache st) (backoffMap st)
    (diag st) (networkObservations st).

Definition withSelfCoord (st : State) (c : Coord) : State :=
  mkState (store st) (Some c) (inflightAct st) (dedupCache st) (backoffMap st)
    (diag st) (networkObservations st).

Definition withInflight (st : State) (n : Z) : State :=
  mkState (store st) (cachedSelfCoord st) n (dedupCache st) (backoffMap st)
    (diag st) (networkObservations st).

Definition withDedup (st : State) (c : Dedup.DedupCache RouteResult) : State :=
  mkState (store st) (cachedSelfCoord st) (inflightAct st) c (backoffMap st)
    (diag st) (networkObservations st).

Definition withBackoff (st : State) (b : list (Id * Backoff)) : State :=
  mkState (store st) (cachedSelfCoord st) (inflightAct st) (dedupCache st) b
    (diag st) (networkObservations st).

Definition withDiag (st : State) (d : Diag) : State :=
  mkState (store st) (cachedSelfCoord st) (inflightAct st) (dedupCache st)
    (backoffMap st) d (networkObservations st).

Definition bumpForwarded (d : Diag) : Diag :=
  mkDiag (maybeActForwarded d + 1) (rejected d).

Definition bumpTimestampBounds (d : Diag) : Diag :=
  let r := rejected d in
  mkDiag (maybeActForwarded d)
    (mkRejected (payloadTooLarge r) (timestampBounds r + 1) (ttlExpired r) (rateLimited r)).

Definition bumpTtlExpired (d : Diag) : Diag :=
  let r := rejected d in
  mkDiag (maybeActForwarded d)
    (mkRejected (payloadTooLarge r) (timestampBounds r) (ttlExpired r + 1) (rateLimited r)).

Definition bumpPayloadTooLarge (d : Diag) : Diag :=
  let r := rejected d in
  mkDiag (maybeActForwarded d)
    (mkRejected (payloadTooLarge r + 1) (timestampBounds r) (ttlExpired r) (rateLimited r)).

Definition bumpRateLimited (d : Diag) : Diag :=
  let r := rejected d in
  mkDiag (maybeActForwarded d)
    (mkRejected (payloadTooLarge r) (timestampBounds r) (ttlExpired r) (rateLimited r + 1)).

(** [this.selfCoord()]: the cached coordinate, computed on first use. *)
Definition selfCoord (env : Env) (st : State) : Coord * State :=
  match cachedSelfCoord st with
  | Some c => (c, st)
  | None => let c := hashPeerId env (selfId env) in (c, withSelfCoord st c)
  end.

Definition breadcrumbsOf (msg : RouteAndMaybeActV1) : list Id :=
  match breadcrumbs msg with Some l => l | None => [] end.

(** [msg.activity] is truthy: present and not the empty string. *)
Definition activityOf (msg : RouteAndMaybeActV1) : option string :=
  match activity msg with
  | Some a => if String.eqb a "" then None else Some a
  | None => None
  end.

Definition wantK (cfg : FretConfig) (msg : RouteAndMaybeActV1) : Z :=
  match want_k msg with Some w => w | None => k cfg end.

(** The copy [routeAct] forwards: [{ ...msg, ttl: msg.ttl - 1, breadcrumbs:
    [...(msg.breadcrumbs ?? []), selfId] }]. *)
Definition forwardCopy (env : Env) (msg : RouteAndMaybeActV1) : RouteAndMaybeActV1 :=
  mkMsg (key msg) (want_k msg) (ttl msg - 1) (min_sigs msg) (digest msg)
    (activity msg) (Some (breadcrumbsOf msg ++ [selfId env])) (correlation_id msg)
    (timestamp msg) (signature msg).

(** The candidates [routeAct] offers to [chooseNextHop]. *)
Definition routeCandidates (env : Env) (cfg : FretConfig) (s : DigitreeStore)
  (coord : Coord) (msg : RouteAndMaybeActV1) : list Id :=
  let exclude := breadcrumbsOf msg ++ [selfId env] in
  filter (fun i => negb (Js.has exclude i))
    (assembleCohort s coord (Z.max 4 (m cfg)) []).

(** The backoff map after [chooseNextHop] asked for the penalty of every
    candidate that has an entry. *)
Definition backoffAfterScoring (nowMs : Z) (s : DigitreeStore) (candidates : list Id)
  (mp : list (Id * Backoff)) : list (Id * Backoff) :=
  fold_left (fun acc i => match getById s i with
                          | Some _ => backoffAfterPenalty nowMs acc i
                          | None => acc
                          end) candidates mp.

(** [routeAct(msg)]: the outcome, the messages handed to [sendMaybeAct] and
    the state afterwards. *)
Definition routeAct (env : Env) (cfg : FretConfig) (st : State)
  (msg : RouteAndMaybeActV1) : RouteOutcome * list Forward * State :=
  let coord := hashKey env (key msg) in
  let self := selfId env in
  let '(selfC, st) := selfCoord env st in
  let '(n, confidence) := estimateSizeAndConfidence env (store st) (m cfg) in
  let distIdx := neighborDistance (store st) self coord (Z.max 2 (wantK cfg msg)) in
  let inCluster := match distIdx with Some i => Nat.leb i 1 | None => false end in
  let fallback (st' : State) (fw : list Forward) :=
    (Returned (RNearAnchor (buildNearAnchor env cfg (store st') coord n confidence)),
     fw, st') in
  if inCluster then
    match activityOf msg, activityHandler env with
    | Some act, Some handler =>
        let cohort := assembleCohort (store st) coord (wantK cfg msg) [] in
        match handler act cohort (min_sigs msg) (correlation_id msg) with
        | ActivityResult cert => (Returned (RCommit cert), [], st)
        | ActivityThrows => (Thrown, [], st)
        end
    | _, _ => fallback st []
    end
  else if 0 <? ttl msg then
    let candidates := routeCandidates env cfg (store st) coord msg in
    let hopOpts := buildNextHopOptions env cfg st n confidence in
    let linkQ := linkQuality (store st) in
    let next := chooseNextHop (store st) coord candidates (isConnected env) linkQ
                  (Options hopOpts) in
    let st := withBackoff st
                (backoffAfterScoring (now env) (store st) candidates (backoffMap st)) in
    match truthyIds [next] with
    | nextId :: _ =>
        let fwd := forwardCopy env msg in
        let st := withDiag st (bumpForwarded (diag st)) in
        let fw := [mkForward nextId fwd] in
        match sendMaybeAct env nextId fwd with
        | SendBusy _ =>
            fallback (withBackoff st (recordBackoff (now env) (backoffMap st) nextId)) fw
        | SendResult result =>
            let nextCoord := match getById (store st) nextId with
                             | Some e => Store.coord e
                             | None => hashPeerId env nextId
                             end in
            let st := withStore st (applySuccess env selfC (store st) nextId nextCoord) in
            let st := withBackoff st (clearBackoff (backoffMap st) nextId) in
            (Returned result, fw, st)
        | SendThrows =>
            fallback (withBackoff st (recordBackoff (now env) (backoffMap st) nextId)) fw
        end
    | [] => fallback st []
    end
  else fallback st [].

(** What [handleMaybeAct] did with a message: the path it left by. *)
Inductive Path :=
| BreadcrumbLoop
| DedupHit
| StaleTimestamp
| TtlExpired
| OversizedActivity
| RateLimited
| InflightCap
| Routed
| RouteFailed.

Definition activityTooLarge (msg : RouteAndMaybeActV1) : bool :=
  match activityOf msg with
  | Some a => 128 * 1024 <? Z.of_nat (String.length a)
  | None => false
  end.

Record Handled := mkHandled {
  response : Response;
  forwards : list Forward;
  after : State;
  path : Path
}.

(** The dedup lookup at the head of [handleMaybeAct]:
    [if (msg.correlation_id) { cached = this.dedupCache.get(..) }]; an empty
    correlation id is falsy and skips the cache. *)
Definition dedupLookup (env : Env) (st : State) (msg : RouteAndMaybeActV1)
  : option RouteResult * State :=
  if String.eqb (correlation_id msg) "" then (None, st)
  else let '(c, dc) := Dedup.get (now env) (dedupCache st) (correlation_id msg) in
       (c, withDedup st dc).

(** [handleMaybeAct(msg)]. *)
Definition handleMaybeAct (env : Env) (cfg : FretConfig) (st : State)
  (msg : RouteAndMaybeActV1) : Handled :=
  let self := selfId env in
  if Js.has (breadcrumbsOf msg) self then
    mkHandled (NearAnchor (nearAnchorOnly env cfg (store st) msg)) [] st BreadcrumbLoop
  else
    let '(cached, st) := dedupLookup env st msg in
    match cached with
    | Some c => mkHandled (responseOf c) [] st DedupHit
    | None =>
      if negb (validateTimestamp (now env) (timestamp msg)) then
        let st := withDiag st (bumpTimestampBounds (diag st)) in
        mkHandled (NearAnchor (nearAnchorOnly env cfg (store st) msg)) [] st StaleTimestamp
      else if ttl msg <=? 0 then
        let st := withDiag st (bumpTtlExpired (diag st)) in
        mkHandled (NearAnchor (nearAnchorOnly env cfg (store st) msg)) [] st TtlExpired
      else if activityTooLarge msg then
        let st := withDiag st (bumpPayloadTooLarge (diag st)) in
        mkHandled (NearAnchor (nearAnchorOnly env cfg (store st) msg)) [] st OversizedActivity
      else if negb (bucketMaybeAct_tryTake env) then
        let st := withDiag st (bumpRateLimited (diag st)) in
        mkHandled (Busy (bucketMaybeAct_retryAfterMs env)) [] st RateLimited
      else
        let limit := match profile cfg with core => 16 | edge => 4 end in
        if limit <=? inflightAct st then
          let st := withDiag st (bumpRateLimited (diag st)) in
          mkHandled (Busy 500) [] st InflightCap
        else
          let st := withInflight st (inflightAct st + 1) in
          match routeAct env cfg st msg with
          | (Returned result, fw, st) =>
              let st :=
                if String.eqb (correlation_id msg) "" then st
                else withDedup st
                       (Dedup.set (now env) (dedupCache st) (correlation_id msg) result) in
              mkHandled (responseOf result) fw (withInflight st (inflightAct st - 1)) Routed
          | (Thrown, fw, st) =>
              mkHandled (NearAnchor (nearAnchorOnly env cfg (store st) msg)) fw
                (withInflight st (inflightAct st - 1)) RouteFailed
          end
    end.

(** *** Network size observations *)


Definition observationWindowMs : Z := 300000.








End Service.

(* ------------------------------------------------------------------ *)
(** ** A [Map] with string keys *)

Module JsMap.

Section Map.

Context {V : Type}.

(** Insertion order; a key occurs once. *)
Definition get (mp : list (string * V)) (key : string) : option V :=
  match find (fun kv => String.eqb (fst kv) key) mp with
  | Some kv => Some (snd kv)
  | None => None
  end.

Fixpoint set (mp : list (string * V)) (key : string) (v : V) : list (string * V) :=
  match mp with
  | [] => [(key, v)]
  | (k0, v0) :: r => if String.eqb k0 key then (k0, v) :: r else (k0, v0) :: set r key v
  end.

Definition size (mp : list (string * V)) : Z := Z.of_nat (List.length mp).

End Map.

End JsMap.

(* ------------------------------------------------------------------ *)
(** ** The service, continued ([service/fret-service.ts]) *)

Module Maintenance.

Import Ring Store NextHop Service.

(** *** Cohorts *)

(** [expandCohort(current, hashedCoord, step, exclude?)]: the ids of
    [current], then the members of the larger cohort that are new. *)
Definition expandCohort (s : DigitreeStore) (current : list Id) (hashedCoord : Coord)
  (step : Z) (exclude : list Id) : list Id :=
  let next := assembleCohort s hashedCoord (Z.of_nat (List.length current) + step) exclude in
  Js.uniq (current ++ next).

(** *** Network size observations *)

(** [maxObservations = 100]. *)
Definition maxObservations : Z := 100.

(** [reportNetworkSize(estimate, confidence, source)]: the observations
    afterwards. *)
Definition reportNetworkSize (nowMs : Z) (obs : list Observation) (estimate confidence : Q)
  (source : string) : list Observation :=
  let pushed := obs ++ [mkObs estimate confidence nowMs source] in
  let cutoff := nowMs - observationWindowMs in
  let kept := filter (fun o => cutoff <? obs_timestamp o) pushed in
  if maxObservations <? Z.of_nat (List.length kept)
  then Js.sliceLast (Z.to_nat maxObservations) kept
  else kept.

(** *** Leaving *)

(** [store.getById(id)?.relevance ?? 0]. *)
Definition relevanceOf (s : DigitreeStore) (i : Id) : Q :=
  match getById s i with Some e => relevance e | None => 0%Q end.

(** The comparator of [wider.sort] in [computeReplacements]. *)
Definition replacementCmp (ic : Id -> bool) (s : DigitreeStore) (a b : Id) : Q :=
  let connA := if ic a then 1 else 0 in
  let connB := if ic b then 1 else 0 in
  if negb (connA =? connB) then inject_Z (connB - connA)
  else (relevanceOf s b - relevanceOf s a)%Q.

(** [computeReplacements(selfCoord, spNeighborIds, selfStr)]. *)
Definition computeReplacements (env : Env) (cfg : FretConfig) (s : DigitreeStore)
  (selfCoord : Coord) (spNeighborIds : list Id) (selfStr : Id) : list Id :=
  let maxReplacements := 6 in
  let wider := filter (fun i => negb (String.eqb i selfStr) && negb (Js.has spNeighborIds i))
                 (Js.uniq (neighborsRight s selfCoord (m cfg * 2)
                           ++ neighborsLeft s selfCoord (m cfg * 2))) in
  Js.slice0 maxReplacements (Js.sortBy (replacementCmp (isConnected env) s) wider).

(** The calls of [sendLeave] that [sendLeaveToNeighbors] makes, in order: the
    peer and the notice. *)
Definition sendLeaveToNeighbors (env : Env) (cfg : FretConfig) (s : DigitreeStore)
  : list (Id * Leave.LeaveNoticeV1) :=
  let selfCoord := hashPeerId env (selfId env) in
  let selfStr := selfId env in
  let ids := Js.slice0 8
               (filter (fun i => negb (String.eqb i selfStr))
                  (Js.uniq (getNeighbors s selfCoord right (m cfg)
                            ++ getNeighbors s selfCoord left (m cfg)))) in
  let replacements := computeReplacements env cfg s selfCoord ids selfStr in
  let notice := Leave.mkNotice selfStr
                  (match replacements with [] => None | _ :: _ => Some replacements end)
                  (now env) in
  let fanOut := match profile cfg with core => 4 | edge => 2 end in
  let expanded := expandCohort s ids selfCoord fanOut [selfStr] in
  let extra := Js.slice0 fanOut
                 (filter (fun i => negb (Js.has ids i) && isConnected env i) expanded) in
  map (fun i => (i, notice)) (ids ++ extra).



Section HandleLeave.

(** [peerIdFromString(id)] does not throw. *)
Variable peerIdFromString : Id -> bool.

(** [bucketLeave.tryTake()]. *)
Variable bucketLeave_tryTake : bool.


End HandleLeave.

(** *** Neighbour snapshots *)

(** An element of [NeighborSnapshotV1.sample]. *)
Record SampleEntry := mkSample {
  sample_id : Id;
  sample_coord : string;
  sample_relevance : Q
}.

Section Snapshot.

(** [Record<string, any>], opaque here. *)
Variable Metadata : Type.

Record NeighborSnapshotV1 := mkSnapshot {
  snap_from : Id;
  snap_timestamp : Z;
  successors : list Id;
  predecessors : list Id;
  sample : list SampleEntry;
  snap_size_estimate : Q;
  snap_confidence : Q;
  snap_sig : string;
  metadata : option Metadata
}.

(** [coordToBase64url] of [ring/hash.js]. *)
Variable coordToBase64url : Coord -> string.

(** [snapshot()]; [meta] is [this.metadata]. *)
Definition snapshot (env : Env) (cfg : FretConfig) (s : DigitreeStore)
  (meta : option Metadata) : NeighborSnapshotV1 :=
  let selfCoord := hashPeerId env (selfId env) in
  let '(n, confidence) := estimateSizeAndConfidence env s (m cfg) in
  let capSucc := match profile cfg with core => 12 | edge => 6 end in
  let capPred := match profile cfg with core => 12 | edge => 6 end in
  let capSample := match profile cfg with core => 8 | edge => 6 end in
  let rawSucc := getNeighbors s selfCoord right (m cfg) in
  let rawPred := getNeighbors s selfCoord left (m cfg) in
  let successors := Js.slice0 capSucc rawSucc in
  let predecessors := Js.slice0 capPred rawPred in
  let sampleIds := Js.slice0 capSample
                     (Js.uniq (Js.slice0 4 successors ++ Js.slice0 4 predecessors)) in
  let sample := map (fun i => match getById s i with
                              | None => mkSample i "" 0
                              | Some entry =>
                                  mkSample i (coordToBase64url (Store.coord entry))
                                    (relevance entry)
                              end) sampleIds in
  mkSnapshot (selfId env) (now env) successors predecessors sample n confidence "" meta.

End Snapshot.

Arguments snap_from {Metadata}.
Arguments snap_timestamp {Metadata}.
Arguments successors {Metadata}.
Arguments predecessors {Metadata}.
Arguments sample {Metadata}.
Arguments snap_size_estimate {Metadata}.
Arguments snap_confidence {Metadata}.
Arguments snap_sig {Metadata}.
Arguments metadata {Metadata}.
Arguments snapshot {Metadata}.

(** *** Discovery events *)

(** The discovery events of [emitDiscovered(ids)] and the map of announced
    ids afterwards.  [takes] are the answers of [bucketDiscovery.tryTake()],
    in the order of the calls (no answer left counts as [false]);
    [dispatches id] says that [peerIdFromString(id)] and the dispatch of the
    event do not throw. *)
Fixpoint emitLoop (nowMs ttl : Z) (dispatches : Id -> bool) (ids : list Id)
  (takes : list bool) (announced : list (Id * Z)) (emitted : list Id)
  : list Id * list (Id * Z) :=
  match ids with
  | [] => (emitted, announced)
  | i :: rest =>
      let exp := match JsMap.get announced i with Some e => e | None => 0 end in
      if nowMs <? exp then emitLoop nowMs ttl dispatches rest takes announced emitted
      else
        match takes with
        | true :: takes' =>
            if dispatches i
            then emitLoop nowMs ttl dispatches rest takes'
                   (JsMap.set announced i (nowMs + ttl)) (emitted ++ [i])
            else emitLoop nowMs ttl dispatches rest takes' announced emitted
        | _ => (emitted, announced)
        end
  end.

(** The time an id stays announced. *)
Definition discoveryTtl (cfg : FretConfig) : Z :=
  match profile cfg with core => 10 * 60000 | edge => 30 * 60000 end.

Definition emitDiscovered (nowMs : Z) (cfg : FretConfig) (dispatches : Id -> bool)
  (takes : list bool) (announced : list (Id * Z)) (ids : list Id)
  : list Id * list (Id * Z) :=
  match ids with
  | [] => ([], announced)
  | _ :: _ =>
      let '(emitted, ann) :=
        emitLoop nowMs (discoveryTtl cfg) dispatches (Js.uniq ids) takes announced [] in
      if (0 <? Z.of_nat (List.length emitted)) && (4096 <? JsMap.size ann)
      then (emitted, filter (fun kv => negb (snd kv <=? nowMs)) ann)
      else (emitted, ann)
  end.

End Maintenance.

(* ------------------------------------------------------------------ *)
(** ** Payload inclusion ([service/payload-heuristic.ts]) *)

Module PayloadInclusion.

Import PayloadHeuristic.

Section Inclusion.

(** [Number(nearZone - dist) / Number(nearZone) * confidence >= threshold] in
    IEEE doubles, from [nearZone - dist], [nearZone], [confidence] and
    [threshold]. *)
Variable probabilityReaches : Z -> Z -> Q -> Q -> bool.

(** [shouldIncludePayload(distToKey, sizeEstimate, confidence, k, beta = 2,
    threshold = 0.5)]. *)
Definition shouldIncludePayload (distToKey : list Z) (sizeEstimate confidence : Q)
  (k beta : Z) (threshold : Q) : bool :=
  if Qlt_le_dec sizeEstimate 1%Q then false
  else if Qle_bool confidence 0 then false
  else
    let dist := bytesToBigInt distToKey in
    let clusterSpan := k * (Z.quot RING_SIZE (Z.max 1 (Js.mathRound sizeEstimate))) in
    let nearZone := clusterSpan * beta in
    if nearZone =? 0 then false
    else if nearZone <? dist then false
    else probabilityReaches (nearZone - dist) nearZone confidence threshold.

End Inclusion.

End PayloadInclusion.

(* ------------------------------------------------------------------ *)
(** ** What the spec says, and sample inputs *)

Module Spec.

Import Ring Store NextHop Service.

(** [l] begins [l']. *)
Definition IsPrefix {A} (l l' : list A) : Prop := exists rest, l' = l ++ rest.

(** Ids are unique in the store (invariant I2). *)
Definition UniqueIds (s : DigitreeStore) : Prop := NoDup (map id s).

(** Ascending relevance, the order of the eviction snapshot. *)
Definition ByRelevance (a b : PeerEntry) : Prop := (relevance a <= relevance b)%Q.

(** An id that [assembleCohort] pushes when it meets it: not the empty
    string and not excluded. *)
Definition Pushed (ex : list Id) (i : Id) : Prop := i <> ""%string /\ ~ In i ex.


(** The return statements of [handleMaybeAct] that reject a message or
    answer busy. *)
Definition isRejection (p : Path) : bool :=
  match p with
  | BreadcrumbLoop | StaleTimestamp | TtlExpired | OversizedActivity
  | RateLimited | InflightCap => true
  | DedupHit | Routed | RouteFailed => false
  end.

(** Nothing was written to the cache between [c] and [c']: [c'] holds no
    entry that [c] does not hold, and every lookup from time [nowMs] on is
    answered by [c'] as by [c]. *)
Definition NotWritten {T} (nowMs : Z) (c c' : Dedup.DedupCache T) : Prop :=
  (forall key e, Dedup.mapGet (Dedup.entries c') key = Some e ->
                 Dedup.mapGet (Dedup.entries c) key = Some e)
  /\ (forall now' key, nowMs <= now' ->
        fst (Dedup.get now' c' key) = fst (Dedup.get now' c key)).

(** *** Partition detection in the spec's words *)






(** *** Replacement lists in the spec's words *)

(** Claim C8 as it is worded: drop the unparseable ids of the wire-level
    list, then truncate to 12. *)
Definition ReplacementsAsStated (peerIdFromString : Id -> bool) (wire : list Id) : Prop :=
  Leave.handlerReplacements peerIdFromString (Leave.mkNotice "leaver"%string (Some wire) 0)
  = firstn 12 (filter peerIdFromString wire).

(** *** Dedup idempotence in the spec's words *)


(** *** The selector in the spec's words *)

(** Near candidates in the spec's order: "sort them by strict XOR distance
    (lex), breaking ties by connected-first, then by lower cost, then by
    lower id". *)
Definition specNearCmp (a b : Scored) : Q :=
  if lexLess (s_dist a) (s_dist b) then (-1)%Q
  else if lexLess (s_dist b) (s_dist a) then 1%Q
  else if negb (Bool.eqb (s_connected a) (s_connected b)) then
         (if s_connected a then (-1)%Q else 1%Q)
  else if negb (Qeq_bool (s_costVal a) (s_costVal b)) then (s_costVal a - s_costVal b)%Q
  else if String.ltb (s_id a) (s_id b) then (-1)%Q
  else if String.ltb (s_id b) (s_id a) then 1%Q
  else 0%Q.

Definition specChooseNear (store : DigitreeStore) (targetCoord : Coord)
  (candidates : list Id) (isConnected : IsConnected) (linkQ : LinkQuality)
  (confidence : Q) (backoff : BackoffPenalty) (nearRadius : Coord) : option Id :=
  match Js.sortBy specNearCmp
          (filter s_near (scoreCandidates store targetCoord candidates isConnected linkQ
                            confidence backoff nearRadius)) with
  | first :: _ => Some (s_id first)
  | [] => None
  end.

(** The legacy band in the spec's words: "leading non-zero byte index is >=
    bestByDist's index minus tolerance"; [None] is an all-zero distance. *)
Definition specInBand (lead bestLead : option Z) (tol : Z) : bool :=
  match bestLead, lead with
  | Some b, Some l => b - tol <=? l
  | Some _, None => true
  | None, Some _ => false
  | None, None => true
  end.

(** The connected candidates that the spec's band admits. *)
Definition specBandCandidates (store : DigitreeStore) (targetCoord : Coord)
  (candidates : list Id) (isConnected : IsConnected) (linkQ : LinkQuality) (tol : Z)
  : list LegacyScored :=
  let scored := legacyScored store targetCoord candidates isConnected linkQ in
  match fold_left bestByDistStep scored None with
  | None => []
  | Some (_, bdist) =>
      filter (fun s => l_connected s
                       && specInBand (leadingByteIndex (l_dist s)) (leadingByteIndex bdist) tol)
        scored
  end.

(** *** The orders behind the selector *)

(** [a] comes no later than [b] in the order of [betterByDist]: smaller XOR
    distance first, equal distances by smaller id. *)
Definition NotAfter (a b : Scored) : Prop :=
  a = b \/ betterByDist (s_id a) (s_dist a) (s_id b) (s_dist b) = true.

(** The defaults of [chooseNextHopCost]: [opts.confidence ?? 0.5] and
    [opts.backoffPenalty ?? (() => 0)]. *)
Definition confidenceOf (opts : NextHopOptions) : Q :=
  match confidence opts with Some c => c | None => (1 # 2)%Q end.

Definition backoffOf (opts : NextHopOptions) : BackoffPenalty :=
  match backoffPenalty opts with Some f => f | None => fun _ => 0%Q end.

(** The elements of a [Uint8Array] are bytes. *)
Definition isByte (x : Z) : bool := (0 <=? x) && (x <? 256).

Definition byteCoord (c : Coord) : bool := forallb isByte c.

Definition byteStore (s : DigitreeStore) : bool :=
  forallb (fun e => byteCoord (Store.coord e)) s.

End Spec.

(* ------------------------------------------------------------------ *)
(** ** Notions the further properties are stated with *)

Module Notions.

Import Ring Store NextHop Service Spec Maintenance.



(** Keys of a [Map] are unique. *)
Definition UniqueKeys {T} (c : Dedup.DedupCache T) : Prop :=
  NoDup (map fst (Dedup.entries c)).

(** No entry has expired at [nowMs]. *)
Definition liveAt {T} (nowMs : Z) (c : Dedup.DedupCache T) : Prop :=
  Forall (fun kv => nowMs <= Dedup.expires (snd kv)) (Dedup.entries c).

(** [recordBackoff(id)] called once at each of the given times. *)
Definition recordBackoffs (times : list Z) (mp : list (Id * Backoff)) (i : Id)
  : list (Id * Backoff) :=
  fold_left (fun acc t => recordBackoff t acc i) times mp.

(** The in-flight limit of [handleMaybeAct]. *)
Definition inflightLimit (cfg : FretConfig) : Z :=
  match profile cfg with core => 16 | edge => 4 end.

(** [routeAct]'s in-cluster test: self is the first or the second member of
    the cohort of size [max 2 want_k] around the key. *)
Definition inCluster (env : Env) (cfg : FretConfig) (st : State) (msg : RouteAndMaybeActV1)
  : bool :=
  match neighborDistance (store st) (selfId env) (hashKey env (key msg))
          (Z.max 2 (wantK cfg msg)) with
  | Some i => Nat.leb i 1
  | None => false
  end.

(** The order of the replacements: connected first, then higher relevance. *)
Definition ReplacementOrder (ic : Id -> bool) (s : DigitreeStore) (a b : Id) : Prop :=
  (ic a = true /\ ic b = false)
  \/ (ic a = ic b /\ (relevanceOf s b <= relevanceOf s a)%Q).

(** "Snapshot caps: Edge <= 6/6/6 (succ/pred/sample), Core <= 12/12/8". *)
Definition snapshotCaps (p : Profile) : Z * Z * Z :=
  match p with edge => (6, 6, 6) | core => (12, 12, 8) end.

(** The expiry [announcedIds.get(id) ?? 0]. *)
Definition announcedUntil (announced : list (Id * Z)) (i : Id) : Z :=
  match JsMap.get announced i with Some e => e | None => 0 end.

End Notions.

Module Samples.

Import Ring Store NextHop Service.

Local Open Scope string_scope.

Definition upsertAll (l : list (Id * Z)) : DigitreeStore :=
  fold_left (fun s ic => Store.upsert 0 s (fst ic) (coordByte (snd ic))) l Store.empty.

(** Twelve peers around coordinate 100: [s1..s6] after it, [p1..p6] before. *)
Definition ring12 : DigitreeStore :=
  upsertAll [("p6", 94); ("p5", 95); ("p4", 96); ("p3", 97); ("p2", 98); ("p1", 99);
             ("s1", 101); ("s2", 102); ("s3", 103); ("s4", 104); ("s5", 105); ("s6", 106)].


Definition withRelevance (r : Q) (e : PeerEntry) : PeerEntry :=
  mkEntry (id e) (Store.coord e) (state e) r (lastAccess e) (accessCount e)
    (successCount e) (failureCount e) (avgLatencyMs e).

(** Seven peers: [p2], [p1], [s1], [s2] next to coordinate 100 with relevance
    0, and [x], [y], [z] further away with relevance 5, 1 and 3. *)
Definition scoredRing : DigitreeStore :=
  runOps [OpUpsert 0 "x" (coordByte 150); OpUpsert 0 "p1" (coordByte 99);
          OpUpsert 0 "y" (coordByte 160); OpUpsert 0 "s1" (coordByte 101);
          OpUpsert 0 "z" (coordByte 170); OpUpsert 0 "s2" (coordByte 102);
          OpUpsert 0 "p2" (coordByte 98);
          OpUpdate "x" (withRelevance 5); OpUpdate "y" (withRelevance 1);
          OpUpdate "z" (withRelevance 3)].

(** Two peers on one coordinate, as a snapshot sample can announce them. *)
Definition twins : DigitreeStore := upsertAll [("a", 201); ("b", 201)].

Definition onlyB (i : Id) : bool := String.eqb i "b".

Definition halfQuality : LinkQuality := fun _ => (1 # 2)%Q.

Definition nearOptions : NextHopOptions :=
  mkOpts (Some (coordByte 255)) (Some (1 # 2)%Q) None None.

(** A close disconnected peer and a connected peer at the far end of the
    ring, seen from the all-zero target. *)
Definition nearAndFar : DigitreeStore :=
  Store.upsert 0 (Store.upsert 0 Store.empty "near" (coordByte 1)) "far"
    (255 :: repeat 0 31%nat).

Definition onlyFar (i : Id) : bool := String.eqb i "far".




(** A stand-in for the peer-id parser that rejects the empty id (as the
    library does) and accepts every other string. *)
Definition nonEmptyId (i : Id) : bool := negb (String.eqb i "").

Definition twelveBadThenGood : list Id := (repeat "" 12 ++ ["12D3KooWgood"])%list.

(** A service of peer [self] at coordinate 100 that knows only itself, with
    an activity callback that signs everything. *)
Definition cfg0 : FretConfig := mkConfig 15 8 2048 core.

Definition env0 : Env :=
  mkEnv "self" (fun _ => coordByte 100) (fun _ => coordByte 100) 1000000 true 0
    (fun _ => true) (fun _ _ => (3%Q, (1 # 2)%Q))
    (Some (fun _ _ _ _ => ActivityResult "cert"))
    (fun _ _ => SendThrows) (fun _ e => e).

Definition diag0 : Diag := mkDiag 0 (mkRejected 0 0 0 0).

Definition state0 : State :=
  mkState (upsertAll [("self", 100)]) None 0 Dedup.newCache [] diag0 [].

Definition msgWith (ttl0 : Z) (act : option string) (ts : Z) : RouteAndMaybeActV1 :=
  mkMsg "a2V5" (Some 7) ttl0 3 None act (Some []) "corr-1" ts "".

(** The same peer inside [ring12], far from the key at 100, forwarding to a
    peer that answers with a certificate. *)
Definition envFar : Env :=
  mkEnv "self" (fun _ => coordByte 200) (fun _ => coordByte 100) 1000000 true 0
    (fun _ => true) (fun _ _ => (13%Q, (1 # 2)%Q))
    None
    (fun _ _ => SendResult (RCommit "remote")) (fun _ e => e).

Definition stateFar : State :=
  mkState (Store.upsert 0 ring12 "self" (coordByte 200)) None 0 Dedup.newCache [] diag0 [].

(** The store of the first unit test of the selector. *)
Definition closeAndFar : DigitreeStore :=
  Store.upsert 0 (Store.upsert 0 Store.empty "close-disconnected" (coordByte 201))
    "far-connected" (coordByte 220).

Definition onlyFarConnected (i : Id) : bool := String.eqb i "far-connected".

(** The entry that [upsert] creates at time 0. *)
Definition freshEntry (i : Id) (c : Coord) : PeerEntry :=
  mkEntry i c disconnected 0%Q 0 0 0 0 0%Q.

(** A cache of capacity 1 that holds one entry. *)
Definition fullCache : Dedup.DedupCache Z :=
  Dedup.set 0 (Dedup.mkCache [] 30000 1) "a" 1.





(** A probability test that always passes. *)
Definition alwaysReaches (_ _ : Z) (_ _ : Q) : bool := true.

End Samples.

(* ------------------------------------------------------------------ *)
(** * Properties *)

Import Ring Store NextHop Service Spec.

(** ** Lists, sets and sorting *)

Lemma has_true_iff (s : list Id) (x : Id) : Js.has s x = true <-> In x s.
Proof.
  unfold Js.has. rewrite existsb_exists. split.
  - intros [y [Hy Heq]]. apply String.eqb_eq in Heq. subst. exact Hy.
  - intros H. exists x. split; [exact H | apply String.eqb_refl].
Qed.

Lemma has_false_iff (s : list Id) (x : Id) : Js.has s x = false <-> ~ In x s.
Proof.
  rewrite <- has_true_iff. destruct (Js.has s x); split; intros; try discriminate; auto.
  exfalso; auto.
Qed.

Lemma In_firstn {A} (n : nat) (l : list A) (x : A) : In x (firstn n l) -> In x l.
Proof.
  intros H. rewrite <- (firstn_skipn n l). apply in_or_app. left. exact H.
Qed.



Lemma IsPrefix_app {A} (a r : list A) : IsPrefix a (a ++ r).
Proof. exists r. reflexivity. Qed.

Lemma uniqFrom_app (a b : list Id) : forall seen,
  exists seen', Js.uniqFrom seen (a ++ b) = Js.uniqFrom seen a ++ Js.uniqFrom seen' b.
Proof.
  induction a as [| x a IH]; intros seen; simpl.
  - exists seen. reflexivity.
  - destruct (existsb (String.eqb x) seen).
    + apply IH.
    + destruct (IH (x :: seen)) as [seen' H]. exists seen'. rewrite H. reflexivity.
Qed.

Lemma uniq_prefix (a b : list Id) : IsPrefix a b -> IsPrefix (Js.uniq a) (Js.uniq b).
Proof.
  intros [r ->]. unfold Js.uniq. destruct (uniqFrom_app a r []) as [seen' H].
  rewrite H. apply IsPrefix_app.
Qed.

Lemma uniqFrom_length (l : list Id) : forall seen,
  (List.length (Js.uniqFrom seen l) <= List.length l)%nat.
Proof.
  induction l as [| x l IH]; intros seen; simpl; [lia|].
  destruct (existsb _ _); [specialize (IH seen) | specialize (IH (x :: seen)); simpl]; lia.
Qed.

Lemma uniqFrom_In (l : list Id) : forall seen i,
  In i (Js.uniqFrom seen l) <-> In i l /\ ~ In i seen.
Proof.
  induction l as [| x r IH]; intros seen i; simpl; [tauto|].
  destruct (existsb (String.eqb x) seen) eqn:E.
  - fold (Js.has seen x) in E. apply has_true_iff in E. rewrite IH.
    split; [tauto|]. intros [[-> | Hin] Hns]; [contradiction | tauto].
  - fold (Js.has seen x) in E. apply has_false_iff in E. simpl. rewrite IH. simpl.
    split.
    + intros [-> | [Hin Hns]]; [tauto|]. tauto.
    + intros [[-> | Hin] Hns]; [tauto|].
      destruct (String.eqb_spec x i) as [-> | Hne]; [tauto|]. right. tauto.
Qed.

Lemma uniq_In (l : list Id) (i : Id) : In i (Js.uniq l) <-> In i l.
Proof. unfold Js.uniq. rewrite uniqFrom_In. simpl. tauto. Qed.

Lemma slice0_short {A} (n : Z) (l : list A) :
  Z.of_nat (List.length l) <= n -> Js.slice0 n l = l.
Proof.
  intros H. unfold Js.slice0. destruct (Z.ltb_spec n 0); [lia|].
  apply firstn_all2. lia.
Qed.

Lemma insertBy_In {A} (cmp : A -> A -> Q) (x a : A) (l : list A) :
  In x (Js.insertBy cmp a l) <-> x = a \/ In x l.
Proof.
  induction l as [| y r IH]; simpl.
  - intuition.
  - destruct (Qle_bool (cmp a y) 0); simpl; [intuition|].
    rewrite IH. intuition.
Qed.

Lemma sortBy_In {A} (cmp : A -> A -> Q) (x : A) (l : list A) :
  In x (Js.sortBy cmp l) <-> In x l.
Proof.
  induction l as [| y r IH]; simpl; [reflexivity|].
  rewrite insertBy_In, IH. intuition.
Qed.

Lemma insertBy_perm {A} (cmp : A -> A -> Q) (x : A) (l : list A) :
  Permutation (Js.insertBy cmp x l) (x :: l).
Proof.
  induction l as [| y r IH]; simpl; [reflexivity|].
  destruct (Qle_bool _ _); [reflexivity|]. rewrite IH. apply perm_swap.
Qed.

Lemma sortBy_perm {A} (cmp : A -> A -> Q) (l : list A) : Permutation (Js.sortBy cmp l) l.
Proof.
  induction l as [| x r IH]; simpl; [reflexivity|].
  rewrite insertBy_perm. constructor. exact IH.
Qed.

(** ** The near radius (C9) *)

Section NearRadius.

Import PayloadHeuristic.

(** The decoder of [bytesToBigInt], started from [init]. *)
Let decodeFrom (init : Z) (u8 : list Z) : Z :=
  fold_left (fun v b => Z.lor (Z.shiftl v 8) b) u8 init.

Lemma lor_shiftl8 (a b : Z) : 0 <= b < 256 -> Z.lor (Z.shiftl a 8) b = a * 256 + b.
Proof.
  intros Hb.
  assert (Hland : Z.land (Z.shiftl a 8) b = 0).
  { apply Z.bits_inj'. intros i Hi.
    rewrite Z.land_spec, Z.bits_0.
    destruct (Z.ltb_spec i 8) as [Hlt | Hge].
    - rewrite Z.shiftl_spec_low by lia. reflexivity.
    - replace (Z.testbit b i) with false; [apply andb_false_r|].
      symmetry. destruct (Z.eq_dec b 0) as [-> | Hnz]; [apply Z.bits_0|].
      apply Z.bits_above_log2; [lia|].
      assert (Z.log2 b < 8) by (apply Z.log2_lt_pow2; lia). lia. }
  rewrite <- Z.lxor_lor by exact Hland.
  rewrite <- Z.add_nocarry_lxor by exact Hland.
  rewrite Z.shiftl_mul_pow2 by lia. reflexivity.
Qed.

Lemma land_255 (v : Z) : Z.land v 255 = v mod 256.
Proof. change 255 with (Z.ones 8). rewrite Z.land_ones by lia. reflexivity. Qed.

Lemma bytesToBigInt_decode (u8 : list Z) : bytesToBigInt u8 = decodeFrom 0 u8.
Proof. reflexivity. Qed.

(** Decoding the bytes the loop wrote gives back the low [8 n] bits. *)
Lemma fillBytes_decode (n : nat) : forall v acc,
  decodeFrom 0 (fillBytes n v acc) = decodeFrom (v mod 2 ^ (8 * Z.of_nat n)) acc.
Proof.
  induction n as [| n IH]; intros v acc.
  - simpl. rewrite Z.mod_1_r. reflexivity.
  - cbn [fillBytes]. rewrite IH. unfold decodeFrom at 1. cbn [fold_left].
    fold (decodeFrom (Z.lor (Z.shiftl (Z.shiftr v 8 mod 2 ^ (8 * Z.of_nat n)) 8)
                        (Z.land v 255)) acc).
    f_equal.
    rewrite land_255.
    rewrite lor_shiftl8 by (apply Z.mod_pos_bound; lia).
    rewrite Z.shiftr_div_pow2 by lia.
    replace (8 * Z.of_nat (S n)) with (8 + 8 * Z.of_nat n) by lia.
    rewrite Z.pow_add_r by lia.
    change (2 ^ 8) with 256.
    rewrite Z.rem_mul_r by lia. lia.
Qed.

Lemma fillBytes_length (n : nat) : forall v acc,
  List.length (fillBytes n v acc) = (n + List.length acc)%nat.
Proof.
  induction n as [| n IH]; intros v acc; cbn [fillBytes].
  - reflexivity.
  - rewrite IH. simpl. lia.
Qed.

Lemma fillBytes_bytes (n : nat) : forall v acc,
  Forall (fun b => 0 <= b < 256) acc ->
  Forall (fun b => 0 <= b < 256) (fillBytes n v acc).
Proof.
  induction n as [| n IH]; intros v acc Hacc; cbn [fillBytes].
  - exact Hacc.
  - apply IH. constructor; [|exact Hacc].
    rewrite land_255. apply Z.mod_pos_bound. lia.
Qed.

(** C9: for every size estimate, every integer [k] and [beta = 2],
    [computeNearRadius] returns 32 bytes; they are all zero when
    [sizeEstimate < 1], and otherwise they encode, big-endian,
    [min (2 * k * (2^256 / max 1 (round sizeEstimate))) (2^256 - 1)] with exact
    integer division: the bytes decode to that number modulo 2^256 (two's
    complement for a negative [k]), which is the number itself for every
    cluster size [k >= 0]. *)
Theorem computeNearRadius_spec (sizeEstimate : Q) (k : Z) :
  let radius := Z.min (2 * k * (2 ^ 256 / Z.max 1 (Js.mathRound sizeEstimate))) (2 ^ 256 - 1) in
  List.length (computeNearRadius sizeEstimate k 2) = 32%nat
  /\ Forall (fun b => 0 <= b < 256) (computeNearRadius sizeEstimate k 2)
  /\ ((sizeEstimate < 1)%Q -> computeNearRadius sizeEstimate k 2 = repeat 0 32%nat)
  /\ ((1 <= sizeEstimate)%Q ->
      bytesToBigInt (computeNearRadius sizeEstimate k 2) = radius mod 2 ^ 256)
  /\ ((1 <= sizeEstimate)%Q -> 0 <= k ->
      bytesToBigInt (computeNearRadius sizeEstimate k 2) = radius).
Proof.
  cbv zeta. unfold computeNearRadius.
  destruct (Qlt_le_dec sizeEstimate 1) as [Hlt | Hge].
  - split; [apply repeat_length|].
    split; [apply Forall_forall; intros b Hb; apply repeat_spec in Hb; lia|].
    split; [reflexivity|].
    split; intros Hge; exfalso; exact (Qlt_not_le _ _ Hlt Hge).
  - set (d := Z.max 1 (Js.mathRound sizeEstimate)).
    assert (Hd : 1 <= d) by (unfold d; lia).
    assert (HR : RING_SIZE = 2 ^ 256) by reflexivity.
    assert (Hq : Z.quot RING_SIZE d = 2 ^ 256 / d).
    { rewrite HR. apply Z.quot_div_nonneg; lia. }
    rewrite Hq.
    assert (Hdiv : 0 <= 2 ^ 256 / d) by (apply Z.div_pos; lia).
    set (val := k * (2 ^ 256 / d) * 2).
    replace (2 * k * (2 ^ 256 / d)) with val by (unfold val; lia).
    assert (Hclamp : (if RING_SIZE <=? val then RING_SIZE - 1 else val)
                     = Z.min val (2 ^ 256 - 1)).
    { rewrite HR. destruct (Z.leb_spec (2 ^ 256) val); lia. }
    rewrite Hclamp.
    assert (Hdecode : bytesToBigInt (fillBytes 32 (Z.min val (2 ^ 256 - 1)) [])
                      = Z.min val (2 ^ 256 - 1) mod 2 ^ 256).
    { rewrite bytesToBigInt_decode, fillBytes_decode. reflexivity. }
    split; [apply fillBytes_length|].
    split; [apply fillBytes_bytes; constructor|].
    split; [intros Hlt; exfalso; exact (Qlt_not_le _ _ Hlt Hge)|].
    split; [intros _; exact Hdecode|].
    intros _ Hk. rewrite Hdecode.
    assert (Hval : 0 <= val) by (unfold val; nia).
    apply Z.mod_small. lia.
Qed.

Lemma mathRound_mono (x y : Q) : (x <= y)%Q -> Js.mathRound x <= Js.mathRound y.
Proof.
  intros Hxy. unfold Js.mathRound. apply Qfloor_resp_le.
  apply Qplus_le_compat; [exact Hxy | apply Qle_refl].
Qed.

Lemma computeNearRadius_value (sizeEstimate : Q) (k : Z) :
  (1 <= sizeEstimate)%Q -> 0 <= k ->
  bytesToBigInt (computeNearRadius sizeEstimate k 2)
  = Z.min (2 * k * (2 ^ 256 / Z.max 1 (Js.mathRound sizeEstimate))) (2 ^ 256 - 1).
Proof.
  intros Hge Hk. unfold computeNearRadius.
  destruct (Qlt_le_dec sizeEstimate 1) as [Hlt | _];
    [exfalso; exact (Qlt_not_le _ _ Hlt Hge)|].
  set (d := Z.max 1 (Js.mathRound sizeEstimate)).
  assert (Hd : 1 <= d) by (unfold d; lia).
  assert (HR : RING_SIZE = 2 ^ 256) by reflexivity.
  assert (Hq : Z.quot RING_SIZE d = 2 ^ 256 / d).
  { rewrite HR. apply Z.quot_div_nonneg; lia. }
  rewrite Hq.
  assert (Hdiv : 0 <= 2 ^ 256 / d) by (apply Z.div_pos; lia).
  set (val := k * (2 ^ 256 / d) * 2).
  replace (2 * k * (2 ^ 256 / d)) with val by (unfold val; lia).
  assert (Hclamp : (if RING_SIZE <=? val then RING_SIZE - 1 else val)
                   = Z.min val (2 ^ 256 - 1)).
  { rewrite HR. destruct (Z.leb_spec (2 ^ 256) val); lia. }
  rewrite Hclamp, bytesToBigInt_decode, fillBytes_decode.
  change (decodeFrom (Z.min val (2 ^ 256 - 1) mod 2 ^ (8 * Z.of_nat 32)) [])
    with (Z.min val (2 ^ 256 - 1) mod 2 ^ 256).
  assert (Hval : 0 <= val) by (unfold val; nia).
  apply Z.mod_small. lia.
Qed.

(** X8: for a cluster size [k >= 0], a larger size estimate never gives a
    larger near radius (the unit test "smaller network produces larger near
    radius", for all estimates of at least 1). *)
Theorem computeNearRadius_antitone (n1 n2 : Q) (k : Z) :
  (1 <= n1)%Q -> (n1 <= n2)%Q -> 0 <= k ->
  bytesToBigInt (computeNearRadius n2 k 2) <= bytesToBigInt (computeNearRadius n1 k 2).
Proof.
  intros H1 H12 Hk.
  rewrite (computeNearRadius_value n1 k H1 Hk).
  rewrite (computeNearRadius_value n2 k (Qle_trans _ _ _ H1 H12) Hk).
  pose proof (mathRound_mono _ _ H12) as Hr.
  assert (Hdiv : 2 ^ 256 / Z.max 1 (Js.mathRound n2) <= 2 ^ 256 / Z.max 1 (Js.mathRound n1)).
  { apply Z.div_le_compat_l; lia. }
  apply Z.min_le_compat_r. nia.
Qed.

Lemma computeNearRadius_antitone_witness :
  bytesToBigInt (computeNearRadius 1000 15 2) <= bytesToBigInt (computeNearRadius 10 15 2).
Proof.
  apply (computeNearRadius_antitone 10 1000 15).
  - vm_compute. discriminate.
  - vm_compute. discriminate.
  - lia.
Defined.

(** The unit tests of [computeNearRadius]: all zero for a zero estimate,
    not all zero for N = 100 and k = 15, and a smaller network gives a larger
    radius in big-endian byte order. *)
Example computeNearRadius_unit_tests :
  forallb (Z.eqb 0) (computeNearRadius 0 15 2) = true
  /\ existsb (fun b => negb (b =? 0)) (computeNearRadius 100 15 2) = true
  /\ lexLess (computeNearRadius 1000 15 2) (computeNearRadius 10 15 2) = true.
Proof. repeat split; vm_compute; reflexivity. Qed.

End NearRadius.

(** ** The selector returns one of its candidates *)

Lemma scoreCandidates_In store t cands ic lq conf bo nr s :
  In s (scoreCandidates store t cands ic lq conf bo nr) ->
  In (s_id s) cands /\ getById store (s_id s) <> None.
Proof.
  unfold scoreCandidates. rewrite in_flat_map. intros [i [Hi Hs]].
  destruct (getById store i) eqn:Hg; simpl in Hs; [|contradiction].
  destruct Hs as [<- | []]. simpl. split; [exact Hi | congruence].
Qed.

Lemma chooseNextHopCost_In store t cands ic lq opts nr i :
  chooseNextHopCost store t cands ic lq opts nr = Some i ->
  In i cands /\ getById store i <> None.
Proof.
  unfold chooseNextHopCost.
  set (scored := scoreCandidates _ _ _ _ _ _ _ _).
  destruct scored as [| s0 rest] eqn:Hsc; [discriminate|].
  rewrite <- Hsc.
  destruct (Js.sortBy nearCmp (filter s_near scored)) as [| f1 r1] eqn:Hn.
  - destruct (Js.sortBy farCmp (filter (fun s => negb (s_near s)) scored)) as [| f2 r2] eqn:Hf;
      [discriminate|].
    intros [= <-].
    assert (Hin : In f2 (Js.sortBy farCmp (filter (fun s => negb (s_near s)) scored)))
      by (rewrite Hf; left; reflexivity).
    apply sortBy_In, filter_In in Hin. destruct Hin as [Hin _].
    exact (scoreCandidates_In _ _ _ _ _ _ _ _ _ Hin).
  - intros [= <-].
    assert (Hin : In f1 (Js.sortBy nearCmp (filter s_near scored)))
      by (rewrite Hn; left; reflexivity).
    apply sortBy_In, filter_In in Hin. destruct Hin as [Hin _].
    exact (scoreCandidates_In _ _ _ _ _ _ _ _ _ Hin).
Qed.

Lemma legacyScored_In store t cands ic lq s :
  In s (legacyScored store t cands ic lq) ->
  In (l_id s) cands /\ getById store (l_id s) <> None.
Proof.
  unfold legacyScored. rewrite in_flat_map. intros [i [Hi Hs]].
  destruct (getById store i) eqn:Hg; simpl in Hs; [|contradiction].
  destruct Hs as [<- | []]. simpl. split; [exact Hi | congruence].
Qed.

Lemma bestByDist_In (l : list LegacyScored) : forall best bid bdist,
  fold_left bestByDistStep l best = Some (bid, bdist) ->
  best = Some (bid, bdist) \/ exists s, In s l /\ l_id s = bid /\ l_dist s = bdist.
Proof.
  induction l as [| s r IH]; intros best bid bdist H; simpl in H.
  - left. exact H.
  - apply IH in H. destruct H as [H | [s' [Hin Heq]]].
    + unfold bestByDistStep in H. destruct best as [[b0 d0] |].
      * destruct (betterByDist (l_id s) (l_dist s) b0 d0).
        -- inversion H; subst. right. exists s. simpl. auto.
        -- left. exact H.
      * inversion H; subst. right. exists s. simpl. auto.
    + right. exists s'. simpl. tauto.
Qed.

Lemma bestConnected_In bestLead tol (l : list LegacyScored) : forall best bc,
  fold_left (bestConnectedStep bestLead tol) l best = Some bc ->
  best = Some bc \/ In bc l.
Proof.
  induction l as [| s r IH]; intros best bc H; simpl in H.
  - left. exact H.
  - apply IH in H. destruct H as [H | Hin]; [|right; right; exact Hin].
    unfold bestConnectedStep in H.
    destruct (negb (l_connected s)); [left; exact H|].
    destruct (withinTolerance _ _ _); [|left; exact H].
    destruct best as [b0 |].
    + destruct (betterByDist _ _ _ _); [inversion H; subst; right; left; reflexivity|].
      destruct (equalBytes _ _); [|left; exact H].
      destruct (Qlt_le_dec _ _); [inversion H; subst; right; left; reflexivity|].
      destruct (_ && _); [inversion H; subst; right; left; reflexivity | left; exact H].
    + inversion H; subst. right. left. reflexivity.
Qed.

Lemma chooseNextHopLegacy_In store t cands ic lq tol i :
  chooseNextHopLegacy store t cands ic lq tol = Some i ->
  In i cands /\ getById store i <> None.
Proof.
  unfold chooseNextHopLegacy.
  destruct (fold_left bestByDistStep _ None) as [[bid bdist] |] eqn:Hb; [|discriminate].
  destruct (fold_left (bestConnectedStep _ _) _ None) as [bc |] eqn:Hc.
  - intros [= <-]. apply bestConnected_In in Hc. destruct Hc as [Hc | Hc]; [discriminate|].
    exact (legacyScored_In _ _ _ _ _ _ Hc).
  - intros [= <-]. apply bestByDist_In in Hb.
    destruct Hb as [Hb | [s [Hin [Hid _]]]]; [discriminate|].
    subst. exact (legacyScored_In _ _ _ _ _ _ Hin).
Qed.

(** In both modes the chosen hop is a candidate that has a store entry. *)
Lemma chooseNextHop_In store t cands ic lq o i :
  chooseNextHop store t cands ic lq o = Some i ->
  In i cands /\ getById store i <> None.
Proof.
  unfold chooseNextHop. destruct (nearRadius _).
  - apply chooseNextHopCost_In.
  - apply chooseNextHopLegacy_In.
Qed.

(** ** Forwarding (C1) *)

Lemma routeCandidates_excluded env cfg s c msg i :
  In i (routeCandidates env cfg s c msg) ->
  ~ In i (breadcrumbsOf msg) /\ i <> selfId env.
Proof.
  unfold routeCandidates. rewrite filter_In. intros [_ H].
  apply negb_true_iff, has_false_iff in H.
  split.
  - intros Hin. apply H, in_or_app. left. exact Hin.
  - intros ->. apply H, in_or_app. right. left. reflexivity.
Qed.

Lemma truthyIds_single (o : option Id) (i : Id) (r : list Id) :
  truthyIds [o] = i :: r -> o = Some i /\ r = [].
Proof.
  unfold truthyIds. simpl. destruct o as [j |]; [|discriminate].
  destruct (String.eqb j ""); [discriminate|].
  simpl. intros [= -> <-]. auto.
Qed.



(** A run that does forward: peer [self], far from the key, hands the
    message to [s1] with TTL 2 and breadcrumbs [self]. *)
Example handleMaybeAct_forwards_once :
  forwards (handleMaybeAct Samples.envFar Samples.cfg0 Samples.stateFar
              (Samples.msgWith 3 (Some "act"%string) 1000000))
  = [mkForward "s1"%string
       (mkMsg "a2V5"%string (Some 7) 2 3 None (Some "act"%string) (Some ["self"%string])
          "corr-1"%string 1000000 ""%string)].
Proof. vm_compute. reflexivity. Qed.

(** ** The dedup cache (C2, C10) *)

Section DedupFacts.

Context {T : Type}.

Let Cache := Dedup.DedupCache T.
Let CEntry := Dedup.CacheEntry T.

Lemma mapGet_mapSet_same (mp : list (string * CEntry)) key v :
  Dedup.mapGet (Dedup.mapSet mp key v) key = Some v.
Proof.
  induction mp as [| [k0 v0] r IH]; simpl.
  - unfold Dedup.mapGet. simpl. rewrite String.eqb_refl. reflexivity.
  - destruct (String.eqb k0 key) eqn:E.
    + unfold Dedup.mapGet. simpl. rewrite E. reflexivity.
    + unfold Dedup.mapGet in *. simpl. rewrite E. exact IH.
Qed.

Lemma mapGet_mapDelete (mp : list (string * CEntry)) key key' :
  Dedup.mapGet (Dedup.mapDelete mp key) key'
  = if String.eqb key key' then None else Dedup.mapGet mp key'.
Proof.
  unfold Dedup.mapGet, Dedup.mapDelete.
  induction mp as [| [k0 v0] r IH]; cbn [filter find fst snd].
  - destruct (String.eqb key key'); reflexivity.
  - destruct (String.eqb k0 key) eqn:E1; cbn [negb find fst snd].
    + apply String.eqb_eq in E1. subst k0. rewrite IH.
      destruct (String.eqb key key'); reflexivity.
    + destruct (String.eqb k0 key') eqn:E2.
      * apply String.eqb_eq in E2. subst k0. rewrite String.eqb_sym, E1. reflexivity.
      * exact IH.
Qed.



Lemma NotWritten_refl nowMs (c : Cache) : NotWritten nowMs c c.
Proof. split; auto. Qed.

(** A lookup writes nothing: at most it drops the expired entry it met. *)
Lemma NotWritten_get nowMs (c : Cache) key :
  NotWritten nowMs c (snd (Dedup.get nowMs c key)).
Proof.
  unfold Dedup.get. destruct (Dedup.mapGet (Dedup.entries c) key) as [e |] eqn:Hg;
    [|apply NotWritten_refl].
  destruct (Z.ltb_spec (Dedup.expires e) nowMs) as [Hexp | Hlive]; [|apply NotWritten_refl].
  split; cbn [snd Dedup.entries Dedup.withEntries].
  - intros key' e'. rewrite mapGet_mapDelete.
    destruct (String.eqb key key'); [discriminate | auto].
  - intros now' key' Hle. unfold Dedup.get. cbn [Dedup.entries Dedup.withEntries].
    rewrite mapGet_mapDelete.
    destruct (String.eqb key key') eqn:E.
    + apply String.eqb_eq in E. subst key'. rewrite Hg.
      destruct (Z.ltb_spec (Dedup.expires e) now'); [reflexivity | lia].
    + destruct (Dedup.mapGet (Dedup.entries c) key') as [e' |]; [|reflexivity].
      destruct (Dedup.expires e' <? now'); reflexivity.
Qed.

(** A key that missed keeps missing while nothing is written. *)
Lemma get_miss_stays nowMs now' (c : Cache) key :
  nowMs <= now' ->
  fst (Dedup.get nowMs c key) = None ->
  fst (Dedup.get now' (snd (Dedup.get nowMs c key)) key) = None.
Proof.
  intros Hle Hmiss.
  destruct (NotWritten_get nowMs c key) as [_ Hsame].
  rewrite Hsame by exact Hle.
  unfold Dedup.get in *.
  destruct (Dedup.mapGet (Dedup.entries c) key) as [e |]; [|reflexivity].
  destruct (Z.ltb_spec (Dedup.expires e) nowMs) as [Hexp | Hlive]; [|discriminate].
  destruct (Z.ltb_spec (Dedup.expires e) now'); [reflexivity | lia].
Qed.

End DedupFacts.

(** ** The size of the dedup cache *)

Section DedupCapacity.

Context {T : Type}.

Let Cache := Dedup.DedupCache T.

Lemma mapSet_length (m : list (string * Dedup.CacheEntry T)) key v :
  (List.length (Dedup.mapSet m key v) <= S (List.length m))%nat.
Proof.
  induction m as [| [k0 v0] r IH]; simpl; [lia|].
  destruct (String.eqb k0 key); simpl; lia.
Qed.

(** X6: a cache with [maxSize >= 1] that holds at most [maxSize] entries
    holds at most [maxSize] entries after [set]; [set] changes neither
    [maxSize] nor [ttlMs]. *)
Theorem set_keeps_capacity nowMs (c : Cache) key (r : T) :
  1 <= Dedup.maxSize c ->
  Dedup.mapSize c <= Dedup.maxSize c ->
  Dedup.mapSize (Dedup.set nowMs c key r) <= Dedup.maxSize c
  /\ Dedup.maxSize (Dedup.set nowMs c key r) = Dedup.maxSize c
  /\ Dedup.ttlMs (Dedup.set nowMs c key r) = Dedup.ttlMs c.
Proof.
  intros Hmax Hsize. unfold Dedup.set.
  set (c1 := if Dedup.maxSize c <=? Dedup.mapSize c then Dedup.evictExpired nowMs c else c).
  assert (H1 : Dedup.maxSize c1 = Dedup.maxSize c /\ Dedup.ttlMs c1 = Dedup.ttlMs c
               /\ Dedup.mapSize c1 <= Dedup.mapSize c).
  { unfold c1. destruct (_ <=? _); [|repeat split; lia].
    repeat split. unfold Dedup.mapSize, Dedup.evictExpired.
    cbn [Dedup.entries Dedup.withEntries].
    pose proof (filter_length_le (fun kv : string * Dedup.CacheEntry T =>
                  negb (Dedup.expires (snd kv) <? nowMs)) (Dedup.entries c)). lia. }
  destruct H1 as [Hm1 [Ht1 Hs1]].
  set (c2 := if Dedup.maxSize c1 <=? Dedup.mapSize c1 then Dedup.evictOldest c1 else c1).
  assert (H2 : Dedup.maxSize c2 = Dedup.maxSize c /\ Dedup.ttlMs c2 = Dedup.ttlMs c
               /\ Dedup.mapSize c2 < Dedup.maxSize c).
  { unfold c2. destruct (Z.leb_spec (Dedup.maxSize c1) (Dedup.mapSize c1)) as [Hfull | Hroom].
    - repeat split; try assumption.
      unfold Dedup.mapSize, Dedup.evictOldest in *. cbn [Dedup.entries Dedup.withEntries].
      destruct (Dedup.entries c1) as [| kv rest]; simpl in *; lia.
    - repeat split; try assumption. lia. }
  destruct H2 as [Hm2 [Ht2 Hs2]].
  cbn [Dedup.maxSize Dedup.ttlMs Dedup.withEntries]. repeat split; try assumption.
  unfold Dedup.mapSize in *. cbn [Dedup.entries Dedup.withEntries].
  pose proof (mapSet_length (Dedup.entries c2) key
                (Dedup.mkCacheEntry r (nowMs + Dedup.ttlMs c2))). lia.
Qed.

End DedupCapacity.

Lemma set_keeps_capacity_witness :
  Dedup.mapSize (Dedup.set 0 Samples.fullCache "b"%string 2) <= 1
  /\ Dedup.maxSize (Dedup.set 0 Samples.fullCache "b"%string 2) = 1
  /\ Dedup.ttlMs (Dedup.set 0 Samples.fullCache "b"%string 2) = 30000.
Proof.
  apply (set_keeps_capacity 0 Samples.fullCache "b"%string 2).
  - vm_compute. discriminate.
  - vm_compute. discriminate.
Defined.

(** The unit tests of the cache ([test/dedup-cache.spec.ts]) give the
    results the tests expect: a value is cached and retrieved, a missing key
    gives nothing, an entry expires after its TTL, the oldest entry is evicted
    at capacity, and a key is overwritten. *)
Example dedup_cache_unit_tests :
  fst (Dedup.get 1000 (Dedup.set 1000 Dedup.newCache "a"%string "hello"%string) "a"%string)
  = Some "hello"%string
  /\ fst (Dedup.has 1000 (Dedup.set 1000 Dedup.newCache "a"%string "hello"%string)
            "a"%string) = true
  /\ fst (Dedup.get 1000 (@Dedup.newCache string) "missing"%string) = None
  /\ fst (Dedup.has 1000 (@Dedup.newCache string) "missing"%string) = false
  /\ fst (Dedup.get 1000 (Dedup.set 1000 (Dedup.mkCache [] 50 1024) "a"%string "val"%string)
            "a"%string) = Some "val"%string
  /\ fst (Dedup.get 1080 (Dedup.set 1000 (Dedup.mkCache [] 50 1024) "a"%string "val"%string)
            "a"%string) = None
  /\ (let c := Dedup.set 1000 (Dedup.set 1000 (Dedup.set 1000 (Dedup.set 1000
                 (Dedup.mkCache [] 30000 3) "a"%string 1) "b"%string 2) "c"%string 3)
                 "d"%string 4 in
      fst (Dedup.has 1000 c "a"%string) = false /\ fst (Dedup.get 1000 c "d"%string) = Some 4)
  /\ fst (Dedup.get 1000 (Dedup.set 1000 (Dedup.set 1000 Dedup.newCache "k"%string "v1"%string)
                            "k"%string "v2"%string) "k"%string) = Some "v2"%string.
Proof. repeat split; vm_compute; reflexivity. Qed.


Lemma routeAct_dedupCache env cfg st msg :
  dedupCache (snd (routeAct env cfg st msg)) = dedupCache st.
Proof.
  unfold routeAct, selfCoord.
  destruct (cachedSelfCoord st) as [c |];
    destruct (estimateSizeAndConfidence env _ _) as [n conf];
    (destruct (match neighborDistance _ _ _ _ with Some i => Nat.leb i 1 | None => false end);
     [ destruct (activityOf msg); [destruct (activityHandler env) as [h |];
         [destruct (h _ _ _ _)|]|]; reflexivity
     | destruct (0 <? ttl msg); [|reflexivity];
       destruct (truthyIds _); [reflexivity|];
       destruct (sendMaybeAct env _ _); reflexivity ]).
Qed.

Lemma dedupLookup_cache env st msg :
  dedupCache (snd (dedupLookup env st msg))
  = if String.eqb (correlation_id msg) "" then dedupCache st
    else snd (Dedup.get (now env) (dedupCache st) (correlation_id msg)).
Proof.
  unfold dedupLookup. destruct (String.eqb _ _); [reflexivity|].
  destruct (Dedup.get _ _ _); reflexivity.
Qed.

Lemma dedupLookup_result env st msg :
  fst (dedupLookup env st msg)
  = if String.eqb (correlation_id msg) "" then None
    else fst (Dedup.get (now env) (dedupCache st) (correlation_id msg)).
Proof.
  unfold dedupLookup. destruct (String.eqb _ _); [reflexivity|].
  destruct (Dedup.get _ _ _); reflexivity.
Qed.

Lemma dedupLookup_NotWritten env st msg :
  NotWritten (now env) (dedupCache st) (dedupCache (snd (dedupLookup env st msg))).
Proof.
  rewrite dedupLookup_cache. destruct (String.eqb _ _);
    [apply NotWritten_refl | apply NotWritten_get].
Qed.

(** [handleMaybeAct] along its return statements: which path was taken, and
    what became of the dedup cache. *)
Lemma handleMaybeAct_cases env cfg st msg :
  let h := handleMaybeAct env cfg st msg in
  let st1 := snd (dedupLookup env st msg) in
  (path h = BreadcrumbLoop /\ In (selfId env) (breadcrumbsOf msg) /\ after h = st)
  \/ (~ In (selfId env) (breadcrumbsOf msg) /\
      ((exists c, path h = DedupHit /\ fst (dedupLookup env st msg) = Some c
                  /\ response h = responseOf c /\ after h = st1)
       \/ (fst (dedupLookup env st msg) = None /\
           ((In (path h) [StaleTimestamp; TtlExpired; OversizedActivity; RateLimited;
                          InflightCap]
             /\ dedupCache (after h) = dedupCache st1)
            \/ (path h = RouteFailed /\ dedupCache (after h) = dedupCache st1)
            \/ (exists result, path h = Routed /\ response h = responseOf result
                  /\ dedupCache (after h)
                     = if String.eqb (correlation_id msg) "" then dedupCache st1
                       else Dedup.set (now env) (dedupCache st1) (correlation_id msg)
                              result))))).
Proof.
  cbv zeta. unfold handleMaybeAct.
  destruct (Js.has (breadcrumbsOf msg) (selfId env)) eqn:Hloop.
  - left. apply has_true_iff in Hloop. simpl. auto.
  - right. apply has_false_iff in Hloop. split; [exact Hloop|].
    destruct (dedupLookup env st msg) as [cached st1] eqn:Hlk. cbn [fst snd].
    destruct cached as [c |].
    + left. exists c. simpl. auto.
    + right. split; [reflexivity|].
      destruct (negb (validateTimestamp _ _)); [left; simpl; auto|].
      destruct (ttl msg <=? 0); [left; simpl; auto|].
      destruct (activityTooLarge msg); [left; simpl; auto|].
      destruct (negb (bucketMaybeAct_tryTake env)); [left; simpl; auto 6|].
      destruct (_ <=? inflightAct st1); [left; simpl; auto 7|].
      right.
      pose proof (routeAct_dedupCache env cfg (withInflight st1 (inflightAct st1 + 1)) msg)
        as Hdc.
      destruct (routeAct env cfg _ msg) as [[out fw] st2]. cbn [snd] in Hdc.
      destruct out as [result |].
      * right. exists result. cbn [path response after].
        split; [reflexivity|]. split; [reflexivity|].
        destruct (String.eqb (correlation_id msg) ""); simpl; rewrite Hdc; reflexivity.
      * left. simpl. rewrite Hdc. auto.
Qed.

Lemma dedupHit_needs_entry env cfg st msg :
  path (handleMaybeAct env cfg st msg) = DedupHit ->
  correlation_id msg <> ""%string
  /\ fst (Dedup.get (now env) (dedupCache st) (correlation_id msg)) <> None.
Proof.
  intros Hp.
  destruct (handleMaybeAct_cases env cfg st msg) as [[H _] | [_ [[c [_ [Hc _]]] | [_ H]]]].
  - congruence.
  - rewrite dedupLookup_result in Hc.
    destruct (String.eqb (correlation_id msg) "") eqn:E; [discriminate|].
    apply String.eqb_neq in E. split; [exact E | congruence].
  - destruct H as [[H _] | [[H _] | [r [H _]]]]; try congruence.
    simpl in H. rewrite Hp in H. intuition discriminate.
Qed.

(** A busy answer comes from the rate limit or the in-flight cap only. *)
Lemma busy_is_rejection env cfg st msg ms :
  response (handleMaybeAct env cfg st msg) = Busy ms ->
  path (handleMaybeAct env cfg st msg) = RateLimited
  \/ path (handleMaybeAct env cfg st msg) = InflightCap.
Proof.
  unfold handleMaybeAct.
  destruct (Js.has _ _); [discriminate|].
  destruct (dedupLookup env st msg) as [cached st1].
  destruct cached as [c |]; [destruct c; discriminate|].
  destruct (negb (validateTimestamp _ _)); [discriminate|].
  destruct (ttl msg <=? 0); [discriminate|].
  destruct (activityTooLarge msg); [discriminate|].
  destruct (negb (bucketMaybeAct_tryTake env)); [auto|].
  destruct (_ <=? inflightAct st1); [auto|].
  destruct (routeAct env cfg _ msg) as [[out fw] st2].
  destruct out as [[a | c] |]; discriminate.
Qed.

(** C10: when [handleMaybeAct] leaves by a rejection (breadcrumb loop, stale
    timestamp, TTL <= 0, oversized activity) or a busy answer (rate limit,
    in-flight cap), nothing is written to the dedup cache: it holds no new
    entry and answers every later lookup as before; and after such a
    rejection past the dedup check, a later message with the same
    correlation id is not answered from the cache. *)
Theorem handleMaybeAct_rejection_keeps_dedup env cfg st msg :
  isRejection (path (handleMaybeAct env cfg st msg)) = true ->
  NotWritten (now env) (dedupCache st) (dedupCache (after (handleMaybeAct env cfg st msg)))
  /\ (path (handleMaybeAct env cfg st msg) <> BreadcrumbLoop ->
      forall env2 msg2,
        correlation_id msg2 = correlation_id msg ->
        now env <= now env2 ->
        path (handleMaybeAct env2 cfg (after (handleMaybeAct env cfg st msg)) msg2)
        <> DedupHit).
Proof.
  intros Hrej.
  destruct (handleMaybeAct_cases env cfg st msg)
    as [[Hp [_ Hst]] | [_ [[c [Hp _]] | [Hmiss [[Hp Hdc] | [[Hp _] | [r [Hp _]]]]]]]];
    try (rewrite Hp in Hrej; discriminate).
  - split; [rewrite Hst; apply NotWritten_refl | congruence].
  - split.
    + rewrite Hdc. apply dedupLookup_NotWritten.
    + intros _ env2 msg2 Hcid Hnow Hhit.
      apply dedupHit_needs_entry in Hhit. destruct Hhit as [Hne Hfound].
      apply Hfound. rewrite Hcid, Hdc, dedupLookup_cache.
      rewrite dedupLookup_result in Hmiss.
      rewrite Hcid in Hne. apply String.eqb_neq in Hne. rewrite Hne in *.
      apply get_miss_stays; assumption.
Qed.

(** A message with TTL 0 is rejected and leaves the cache as it was. *)
Lemma handleMaybeAct_rejection_keeps_dedup_witness :
  isRejection (path (handleMaybeAct Samples.env0 Samples.cfg0 Samples.state0
                       (Samples.msgWith 0 None 1000000))) = true
  /\ NotWritten (now Samples.env0) (dedupCache Samples.state0)
       (dedupCache (after (handleMaybeAct Samples.env0 Samples.cfg0 Samples.state0
                             (Samples.msgWith 0 None 1000000)))).
Proof.
  split; [vm_compute; reflexivity|].
  apply (handleMaybeAct_rejection_keeps_dedup Samples.env0 Samples.cfg0 Samples.state0
           (Samples.msgWith 0 None 1000000)).
  vm_compute. reflexivity.
Defined.




(** ** The selector on ties and on the tolerance band (C3, C4) *)

(** C3: two near candidates at equal XOR distance, [a] disconnected and [b]
    connected.  The code returns [a] (its distance comparison already breaks
    the tie by id); the order of the spec, connected first, returns [b]. *)
Theorem chooseNextHop_near_tie_prefers_lower_id :
  chooseNextHop Samples.twins (coordByte 200) ["a"%string; "b"%string] Samples.onlyB
    Samples.halfQuality (Options Samples.nearOptions) = Some "a"%string
  /\ specChooseNear Samples.twins (coordByte 200) ["a"%string; "b"%string] Samples.onlyB
       Samples.halfQuality (1 # 2)%Q (fun _ => 0%Q) (coordByte 255) = Some "b"%string.
Proof. split; vm_compute; reflexivity. Qed.

(** C4: the closest candidate [near] is disconnected, and the only connected
    candidate [far] lies 31 leading bytes away, outside the band of tolerance
    1.  The code returns [far]; the band of the spec admits no connected
    candidate, so the spec returns the closest one, [near]. *)
Theorem chooseNextHop_legacy_ignores_band :
  chooseNextHop Samples.nearAndFar zeroCoord ["near"%string; "far"%string] Samples.onlyFar
    Samples.halfQuality (Tolerance 1) = Some "far"%string
  /\ specBandCandidates Samples.nearAndFar zeroCoord ["near"%string; "far"%string]
       Samples.onlyFar Samples.halfQuality 1 = []
  /\ fold_left bestByDistStep
       (legacyScored Samples.nearAndFar zeroCoord ["near"%string; "far"%string]
          Samples.onlyFar Samples.halfQuality) None
     = Some ("near"%string, coordByte 1).
Proof. repeat split; vm_compute; reflexivity. Qed.

(** ** The selector as an order on distance and id *)

Lemma lexLess_irrefl (a : Coord) : lexLess a a = false.
Proof.
  induction a as [| x a IH]; simpl; [reflexivity|].
  rewrite Z.ltb_irrefl. exact IH.
Qed.

Lemma lexLess_trans (a : Coord) : forall b c,
  lexLess a b = true -> lexLess b c = true -> lexLess a c = true.
Proof.
  induction a as [| x a IH]; intros [| y b] [| z c] Hab Hbc; simpl in *;
    try discriminate; try reflexivity.
  destruct (Z.ltb_spec x y), (Z.ltb_spec y z), (Z.ltb_spec x z); try reflexivity; try lia;
    destruct (Z.ltb_spec y x), (Z.ltb_spec z y), (Z.ltb_spec z x);
    try discriminate; try lia.
  eapply IH; eassumption.
Qed.

Lemma lexLess_total (a : Coord) : forall b,
  lexLess a b = false -> lexLess b a = false -> a = b.
Proof.
  induction a as [| x a IH]; intros [| y b] Hab Hba; simpl in *;
    try discriminate; try reflexivity.
  destruct (Z.ltb_spec x y); [discriminate|].
  destruct (Z.ltb_spec y x); [discriminate|].
  f_equal; [lia | apply IH; assumption].
Qed.

Lemma ascii_compare_lt_trans (a b c : ascii) :
  Ascii.compare a b = Lt -> Ascii.compare b c = Lt -> Ascii.compare a c = Lt.
Proof.
  unfold Ascii.compare. rewrite !N.compare_lt_iff. apply N.lt_trans.
Qed.

Lemma string_ltb_irrefl (s : string) : String.ltb s s = false.
Proof.
  unfold String.ltb. induction s as [| c s IH]; simpl; [reflexivity|].
  unfold Ascii.compare. rewrite N.compare_refl. exact IH.
Qed.

Lemma string_compare_lt_trans (s1 : string) : forall s2 s3,
  String.compare s1 s2 = Lt -> String.compare s2 s3 = Lt -> String.compare s1 s3 = Lt.
Proof.
  induction s1 as [| a s1 IH]; intros [| b s2] [| c s3] H12 H23; simpl in *;
    try discriminate; try reflexivity.
  destruct (Ascii.compare a b) eqn:Eab; try discriminate;
    destruct (Ascii.compare b c) eqn:Ebc; try discriminate.
  - apply Ascii.compare_eq_iff in Eab, Ebc. subst.
    unfold Ascii.compare. rewrite N.compare_refl. eapply IH; eassumption.
  - apply Ascii.compare_eq_iff in Eab. subst. rewrite Ebc. reflexivity.
  - apply Ascii.compare_eq_iff in Ebc. subst. rewrite Eab. reflexivity.
  - rewrite (ascii_compare_lt_trans _ _ _ Eab Ebc). reflexivity.
Qed.

Lemma string_ltb_trans (s1 s2 s3 : string) :
  String.ltb s1 s2 = true -> String.ltb s2 s3 = true -> String.ltb s1 s3 = true.
Proof.
  unfold String.ltb. intros H12 H23.
  destruct (String.compare s1 s2) eqn:E12; try discriminate.
  destruct (String.compare s2 s3) eqn:E23; try discriminate.
  rewrite (string_compare_lt_trans _ _ _ E12 E23). reflexivity.
Qed.

Lemma string_ltb_total (s1 s2 : string) :
  String.ltb s1 s2 = false -> String.ltb s2 s1 = false -> s1 = s2.
Proof.
  unfold String.ltb. intros H12 H21. rewrite String.compare_antisym in H21.
  destruct (String.compare s1 s2) eqn:E; try discriminate.
  apply String.compare_eq_iff. exact E.
Qed.

(** [betterByDist] is the strict lexicographic order on (distance, id). *)
Lemma betterByDist_trans ia da ib db ic dc :
  betterByDist ia da ib db = true -> betterByDist ib db ic dc = true ->
  betterByDist ia da ic dc = true.
Proof.
  unfold betterByDist. intros Hab Hbc.
  destruct (lexLess da db) eqn:Eab.
  - destruct (lexLess db dc) eqn:Ebc.
    + rewrite (lexLess_trans _ _ _ Eab Ebc). reflexivity.
    + destruct (lexLess dc db) eqn:Ecb; [discriminate|].
      rewrite <- (lexLess_total _ _ Ebc Ecb). rewrite Eab. reflexivity.
  - destruct (lexLess db da) eqn:Eba; [discriminate|].
    pose proof (lexLess_total _ _ Eab Eba) as ->.
    destruct (lexLess db dc) eqn:Ebc; [reflexivity|].
    destruct (lexLess dc db) eqn:Ecb; [discriminate|].
    eapply string_ltb_trans; eassumption.
Qed.

Lemma betterByDist_total ia da ib db :
  betterByDist ia da ib db = false -> betterByDist ib db ia da = false ->
  ia = ib /\ da = db.
Proof.
  unfold betterByDist. intros Hab Hba.
  destruct (lexLess da db) eqn:Eab; [discriminate|].
  destruct (lexLess db da) eqn:Eba; [discriminate|].
  split; [apply string_ltb_total; assumption | apply lexLess_total; assumption].
Qed.

Lemma betterByDist_asym ia da ib db :
  betterByDist ia da ib db = true -> betterByDist ib db ia da = false.
Proof.
  intros H. destruct (betterByDist ib db ia da) eqn:E; [|reflexivity].
  pose proof (betterByDist_trans _ _ _ _ _ _ H E) as Hc.
  unfold betterByDist in Hc. rewrite lexLess_irrefl, string_ltb_irrefl in Hc. discriminate.
Qed.

Lemma NotAfter_trans a b c : NotAfter a b -> NotAfter b c -> NotAfter a c.
Proof.
  intros [-> | Hab] [-> | Hbc]; try (left; reflexivity); try (right; assumption).
  right. eapply betterByDist_trans; eassumption.
Qed.

(** On records that are determined by their id, the near comparator looks
    at distance and id only. *)
Lemma nearCmp_NotAfter a b :
  (s_id a = s_id b -> a = b) ->
  (Qle_bool (nearCmp a b) 0 = true -> NotAfter a b)
  /\ (Qle_bool (nearCmp a b) 0 = false -> NotAfter b a).
Proof.
  intros Huniq. unfold nearCmp, NotAfter.
  destruct (betterByDist (s_id a) (s_dist a) (s_id b) (s_dist b)) eqn:Eab.
  - split; [auto | intros H; vm_compute in H; discriminate].
  - destruct (betterByDist (s_id b) (s_dist b) (s_id a) (s_dist a)) eqn:Eba.
    + split; [intros H; vm_compute in H; discriminate | auto].
    + destruct (betterByDist_total _ _ _ _ Eab Eba) as [Hid _].
      rewrite (Huniq Hid). split; left; reflexivity.
Qed.

(** The head of a sorted array is a least element, for a comparator that
    decides a reflexive and transitive relation on the array. *)
Lemma insertBy_head_least {A} (cmp : A -> A -> Q) (R : A -> A -> Prop) (x : A) (l : list A) :
  (forall a, R a a) ->
  (forall a b c, R a b -> R b c -> R a c) ->
  (forall b, In b l ->
     (Qle_bool (cmp x b) 0 = true -> R x b) /\ (Qle_bool (cmp x b) 0 = false -> R b x)) ->
  (forall h r, l = h :: r -> forall s, In s l -> R h s) ->
  forall h r, Js.insertBy cmp x l = h :: r -> forall s, In s (x :: l) -> R h s.
Proof.
  intros Hrefl Htrans Hcmp Hl h r Hins s Hs.
  destruct l as [| y l']; simpl in Hins.
  - inversion Hins; subst. destruct Hs as [<- | []]. apply Hrefl.
  - destruct (Hcmp y (or_introl eq_refl)) as [Hle Hgt].
    specialize (Hl y l' eq_refl).
    destruct (Qle_bool (cmp x y) 0) eqn:E; inversion Hins; subst.
    + destruct Hs as [<- | Hs]; [apply Hrefl|].
      eapply Htrans; [apply Hle; reflexivity | apply Hl, Hs].
    + destruct Hs as [<- | Hs]; [apply Hgt; reflexivity | apply Hl, Hs].
Qed.

Lemma sortBy_head_least {A} (cmp : A -> A -> Q) (R : A -> A -> Prop) (l : list A) :
  (forall a, R a a) ->
  (forall a b c, R a b -> R b c -> R a c) ->
  (forall a b, In a l -> In b l ->
     (Qle_bool (cmp a b) 0 = true -> R a b) /\ (Qle_bool (cmp a b) 0 = false -> R b a)) ->
  forall h r, Js.sortBy cmp l = h :: r -> forall s, In s l -> R h s.
Proof.
  intros Hrefl Htrans.
  induction l as [| x l IH]; intros Hcmp h r Hsort s Hs; [contradiction|].
  simpl in Hsort.
  apply (insertBy_head_least cmp R x (Js.sortBy cmp l) Hrefl Htrans) with (r := r);
    [| | exact Hsort |].
  - intros b Hb. apply Hcmp; [left; reflexivity | right; apply (sortBy_In cmp), Hb].
  - intros h' r' Hh' s' Hs'.
    apply (IH (fun a b Ha Hb => Hcmp a b (or_intror Ha) (or_intror Hb)) h' r' Hh').
    apply (sortBy_In cmp), Hs'.
  - destruct Hs as [<- | Hs]; [left; reflexivity | right; apply (sortBy_In cmp); exact Hs].
Qed.

Lemma NotAfter_refl a : NotAfter a a.
Proof. left. reflexivity. Qed.

Lemma NotAfter_antisym a b : NotAfter a b -> NotAfter b a -> a = b.
Proof.
  intros [-> | Hab] [E | Hba]; try reflexivity; try (symmetry; exact E).
  rewrite (betterByDist_asym _ _ _ _ Hab) in Hba. discriminate.
Qed.

(** Without distance ties the spec's comparator looks at the distance
    only. *)
Lemma specNearCmp_NotAfter a b :
  (s_dist a = s_dist b -> a = b) ->
  (Qle_bool (specNearCmp a b) 0 = true -> NotAfter a b)
  /\ (Qle_bool (specNearCmp a b) 0 = false -> NotAfter b a).
Proof.
  intros Huniq. unfold specNearCmp, NotAfter, betterByDist.
  destruct (lexLess (s_dist a) (s_dist b)) eqn:Eab.
  - split; [auto | intros H; vm_compute in H; discriminate].
  - destruct (lexLess (s_dist b) (s_dist a)) eqn:Eba.
    + split; [intros H; vm_compute in H; discriminate | auto].
    + rewrite (Huniq (lexLess_total _ _ Eab Eba)). split; left; reflexivity.
Qed.

Lemma scoreCandidates_spec store t cands ic lq conf bo nr s :
  In s (scoreCandidates store t cands ic lq conf bo nr) <->
  exists e, In (s_id s) cands /\ getById store (s_id s) = Some e
    /\ s = mkScored (s_id s) (xorDistance (Store.coord e) t)
             (isNear (xorDistance (Store.coord e) t) nr) (ic (s_id s))
             (cost (normalizeDistance (xorDistance (Store.coord e) t)) (ic (s_id s))
                   (lq (s_id s)) (bo (s_id s))
                   (weightsForContext (isNear (xorDistance (Store.coord e) t) nr) conf)).
Proof.
  unfold scoreCandidates. rewrite in_flat_map. split.
  - intros [i [Hi Hs]]. destruct (getById store i) as [e |] eqn:Hg; simpl in Hs; [|contradiction].
    destruct Hs as [<- | []]. simpl. exists e. auto.
  - intros [e [Hi [Hg Hs]]]. exists (s_id s). split; [exact Hi|].
    rewrite Hg. left. symmetry. exact Hs.
Qed.

Lemma scoreCandidates_by_id store t cands ic lq conf bo nr a b :
  In a (scoreCandidates store t cands ic lq conf bo nr) ->
  In b (scoreCandidates store t cands ic lq conf bo nr) ->
  s_id a = s_id b -> a = b.
Proof.
  intros Ha Hb Hid. apply scoreCandidates_spec in Ha, Hb.
  destruct Ha as [ea [_ [Hga Ha]]], Hb as [eb [_ [Hgb Hb]]].
  rewrite Hid in Hga. rewrite Hga in Hgb. inversion Hgb; subst eb.
  rewrite Ha, Hb, Hid. reflexivity.
Qed.

Lemma chooseNextHopCost_near_closest store t cands ic lq opts nr j ej :
  In j cands ->
  getById store j = Some ej ->
  isNear (xorDistance (Store.coord ej) t) nr = true ->
  exists i ei,
    chooseNextHopCost store t cands ic lq opts nr = Some i
    /\ In i cands
    /\ getById store i = Some ei
    /\ isNear (xorDistance (Store.coord ei) t) nr = true
    /\ (i = j \/ betterByDist i (xorDistance (Store.coord ei) t)
                              j (xorDistance (Store.coord ej) t) = true).
Proof.
  intros Hj Hgj Hnear. unfold chooseNextHopCost.
  set (conf := match confidence opts with Some c => c | None => (1 # 2)%Q end).
  set (bo := match backoffPenalty opts with Some f => f | None => fun _ => 0%Q end).
  set (scored := scoreCandidates store t cands ic lq conf bo nr).
  set (dj := xorDistance (Store.coord ej) t) in *.
  set (sj := mkScored j dj (isNear dj nr) (ic j)
               (cost (normalizeDistance dj) (ic j) (lq j) (bo j)
                  (weightsForContext (isNear dj nr) conf))).
  assert (Hsj : In sj scored).
  { apply scoreCandidates_spec. exists ej. simpl. auto. }
  assert (Hsjn : In sj (filter s_near scored)).
  { apply filter_In. split; [exact Hsj | exact Hnear]. }
  destruct scored as [| s0 rest] eqn:Hscored; [contradiction|].
  rewrite <- Hscored in *.
  destruct (Js.sortBy nearCmp (filter s_near scored)) as [| f r] eqn:Hsort.
  - apply (sortBy_In nearCmp) in Hsjn. rewrite Hsort in Hsjn. contradiction.
  - assert (Hf : In f (filter s_near scored)).
    { apply (sortBy_In nearCmp). rewrite Hsort. left. reflexivity. }
    apply filter_In in Hf. destruct Hf as [Hf Hfn].
    pose proof Hf as Hf'. apply scoreCandidates_spec in Hf'.
    destruct Hf' as [ei [Hi [Hgi Hfeq]]].
    exists (s_id f), ei. repeat split; try assumption.
    + rewrite Hfeq in Hfn. exact Hfn.
    + assert (Hna : NotAfter f sj).
      { apply (sortBy_head_least nearCmp NotAfter (filter s_near scored)
                 NotAfter_refl NotAfter_trans) with (r := r); [| exact Hsort | exact Hsjn].
        intros a b Ha Hb. apply nearCmp_NotAfter. apply filter_In in Ha, Hb.
        eapply scoreCandidates_by_id; [apply Ha | apply Hb]. }
      destruct Hna as [-> | Hna]; [left; reflexivity|].
      right. rewrite Hfeq in Hna. exact Hna.
Qed.

Lemma chooseNextHopCost_spec_without_ties store t cands ic lq opts nr :
  (forall i j ei ej, In i cands -> In j cands ->
     getById store i = Some ei -> getById store j = Some ej ->
     xorDistance (Store.coord ei) t = xorDistance (Store.coord ej) t -> i = j) ->
  (exists j ej, In j cands /\ getById store j = Some ej
                /\ isNear (xorDistance (Store.coord ej) t) nr = true) ->
  chooseNextHopCost store t cands ic lq opts nr
  = specChooseNear store t cands ic lq (confidenceOf opts) (backoffOf opts) nr.
Proof.
  intros Hinj [j [ej [Hj [Hgj Hnear]]]].
  unfold chooseNextHopCost, specChooseNear, confidenceOf, backoffOf.
  set (conf := match confidence opts with Some c => c | None => (1 # 2)%Q end).
  set (bo := match backoffPenalty opts with Some f => f | None => fun _ => 0%Q end).
  set (scored := scoreCandidates store t cands ic lq conf bo nr).
  set (dj := xorDistance (Store.coord ej) t) in *.
  set (sj := mkScored j dj (isNear dj nr) (ic j)
               (cost (normalizeDistance dj) (ic j) (lq j) (bo j)
                  (weightsForContext (isNear dj nr) conf))).
  assert (Hsj : In sj (filter s_near scored)).
  { apply filter_In. split; [|exact Hnear].
    apply scoreCandidates_spec. exists ej. simpl. auto. }
  assert (Hne : scored <> []).
  { intros E. rewrite E in Hsj. contradiction. }
  destruct scored as [| s0 rest] eqn:Hscored; [congruence|].
  rewrite <- Hscored in *. clear Hne.
  assert (Hbyid : forall a b, In a (filter s_near scored) -> In b (filter s_near scored) ->
                              s_id a = s_id b -> a = b).
  { intros a b Ha Hb. apply filter_In in Ha, Hb.
    eapply scoreCandidates_by_id; [apply Ha | apply Hb]. }
  assert (Hbydist : forall a b, In a (filter s_near scored) -> In b (filter s_near scored) ->
                                s_dist a = s_dist b -> a = b).
  { intros a b Ha Hb Hd. apply Hbyid; try assumption.
    apply filter_In in Ha, Hb. destruct Ha as [Ha _], Hb as [Hb _].
    apply scoreCandidates_spec in Ha, Hb.
    destruct Ha as [ea [Hia [Hga Ha]]], Hb as [eb [Hib [Hgb Hb]]].
    apply (Hinj _ _ ea eb Hia Hib Hga Hgb).
    rewrite Ha, Hb in Hd. exact Hd. }
  destruct (Js.sortBy nearCmp (filter s_near scored)) as [| f1 r1] eqn:Hs1.
  { apply (sortBy_In nearCmp) in Hsj. rewrite Hs1 in Hsj. contradiction. }
  destruct (Js.sortBy specNearCmp (filter s_near scored)) as [| f2 r2] eqn:Hs2.
  { apply (sortBy_In specNearCmp) in Hsj. rewrite Hs2 in Hsj. contradiction. }
  assert (H1 : In f1 (filter s_near scored)).
  { apply (sortBy_In nearCmp). rewrite Hs1. left. reflexivity. }
  assert (H2 : In f2 (filter s_near scored)).
  { apply (sortBy_In specNearCmp). rewrite Hs2. left. reflexivity. }
  assert (H12 : NotAfter f1 f2).
  { apply (sortBy_head_least nearCmp NotAfter (filter s_near scored)
             NotAfter_refl NotAfter_trans) with (r := r1); [| exact Hs1 | exact H2].
    intros a b Ha Hb. apply nearCmp_NotAfter. apply Hbyid; assumption. }
  assert (H21 : NotAfter f2 f1).
  { apply (sortBy_head_least specNearCmp NotAfter (filter s_near scored)
             NotAfter_refl NotAfter_trans) with (r := r2); [| exact Hs2 | exact H1].
    intros a b Ha Hb. apply specNearCmp_NotAfter. apply Hbydist; assumption. }
  rewrite (NotAfter_antisym _ _ H12 H21). reflexivity.
Qed.

Lemma leadingByteIndexFrom_ge (u8 : list Z) : forall i j,
  leadingByteIndexFrom i u8 = Some j -> i <= j.
Proof.
  induction u8 as [| b r IH]; intros i j H; simpl in H; [discriminate|].
  destruct (b =? 0).
  - apply IH in H. lia.
  - inversion H. lia.
Qed.

(** A distance that is not smaller has its first non-zero byte no later. *)
Lemma withinTolerance_of_not_closer (d : Coord) : forall b i tol,
  Forall (fun x => 0 <= x) b ->
  0 <= tol ->
  lexLess d b = false ->
  withinTolerance (leadingByteIndexFrom i d) (leadingByteIndexFrom i b) tol = true.
Proof.
  induction d as [| x d IH]; intros [| y b] i tol Hb Htol Hlex; simpl in *;
    try reflexivity; try discriminate.
  inversion Hb as [| ? ? Hy Hb']; subst.
  destruct (Z.ltb_spec x y) as [Hxy | Hxy]; [discriminate|].
  destruct (Z.eqb_spec y 0) as [-> | Hy0].
  - destruct (Z.eqb_spec x 0) as [-> | Hx0].
    + rewrite Z.ltb_irrefl in Hlex. apply IH; assumption.
    + destruct (leadingByteIndexFrom (i + 1) b) as [j |] eqn:Hj; [|reflexivity].
      apply leadingByteIndexFrom_ge in Hj. simpl. apply Z.leb_le. lia.
  - destruct (Z.eqb_spec x 0) as [-> | Hx0]; [lia|].
    simpl. apply Z.leb_le. lia.
Qed.

Lemma xorDistance_nonneg (a : Coord) : forall b,
  Forall (fun x => 0 <= x) a -> Forall (fun x => 0 <= x) b ->
  Forall (fun x => 0 <= x) (xorDistance a b).
Proof.
  induction a as [| x a IH]; intros [| y b] Ha Hb; simpl; try constructor.
  - inversion Ha; inversion Hb; subst. apply Z.lxor_nonneg. lia.
  - inversion Ha; inversion Hb; subst. apply IH; assumption.
Qed.

(** [bestByDist] is not farther than any scored candidate. *)
Lemma bestByDist_minimal (l : list LegacyScored) : forall best bid bdist,
  (forall b d, best = Some (b, d) -> forall s, In s l -> True) ->
  fold_left bestByDistStep l best = Some (bid, bdist) ->
  (forall b d, best = Some (b, d) -> lexLess d bdist = false)
  /\ (forall s, In s l -> lexLess (l_dist s) bdist = false).
Proof.
  induction l as [| s r IH]; intros best bid bdist _ H; simpl in H.
  - split; [|intros s []]. intros b d Hb. rewrite Hb in H. inversion H; subst.
    apply lexLess_irrefl.
  - apply IH in H; [|auto]. destruct H as [Hbest Hrest].
    assert (Hs : lexLess (l_dist s) bdist = false).
    { unfold bestByDistStep in Hbest. destruct best as [[b0 d0] |].
      - destruct (betterByDist (l_id s) (l_dist s) b0 d0) eqn:E.
        + apply (Hbest _ _ eq_refl).
        + specialize (Hbest _ _ eq_refl).
          unfold betterByDist in E. destruct (lexLess (l_dist s) d0) eqn:E1; [discriminate|].
          destruct (lexLess (l_dist s) bdist) eqn:E2; [|reflexivity].
          destruct (lexLess d0 (l_dist s)) eqn:E3.
          * rewrite (lexLess_trans _ _ _ E3 E2) in Hbest. discriminate.
          * rewrite (lexLess_total _ _ E1 E3) in E2. congruence.
      - apply (Hbest _ _ eq_refl). }
    split.
    + intros b d Hb. subst best. unfold bestByDistStep in Hbest.
      destruct (betterByDist (l_id s) (l_dist s) b d) eqn:E.
      * destruct (lexLess d bdist) eqn:E2; [|reflexivity].
        unfold betterByDist in E. destruct (lexLess (l_dist s) d) eqn:E1.
        -- rewrite (lexLess_trans _ _ _ E1 E2) in Hs. discriminate.
        -- destruct (lexLess d (l_dist s)) eqn:E3; [discriminate|].
           rewrite (lexLess_total _ _ E1 E3) in Hs. congruence.
      * apply (Hbest _ _ eq_refl).
    + intros s' [<- | Hin]; [exact Hs | apply Hrest, Hin].
Qed.

(** Once a connected candidate passed the band test, the loop holds a
    connected candidate. *)
Lemma bestConnected_connected bestLead tol (l : list LegacyScored) : forall best,
  (forall s, In s l -> l_connected s = true ->
             withinTolerance (leadingByteIndex (l_dist s)) bestLead tol = true) ->
  (forall bc, best = Some bc -> l_connected bc = true) ->
  (best <> None \/ exists s, In s l /\ l_connected s = true) ->
  exists bc, fold_left (bestConnectedStep bestLead tol) l best = Some bc
             /\ l_connected bc = true.
Proof.
  induction l as [| s r IH]; intros best Hband Hbest Hsome; simpl.
  - destruct Hsome as [Hsome | [s [[] _]]].
    destruct best as [bc |]; [|congruence]. exists bc. auto.
  - apply IH.
    + intros s' Hin. apply Hband. right. exact Hin.
    + intros bc. unfold bestConnectedStep.
      destruct (l_connected s) eqn:Hc; cbn [negb]; [|apply Hbest].
      rewrite (Hband s (or_introl eq_refl) Hc).
      destruct best as [b0 |].
      * destruct (betterByDist _ _ _ _); [intros [= <-]; exact Hc|].
        destruct (equalBytes _ _); [|apply Hbest].
        destruct (Qlt_le_dec _ _); [intros [= <-]; exact Hc|].
        destruct (_ && _); [intros [= <-]; exact Hc | apply Hbest].
      * intros [= <-]. exact Hc.
    + destruct Hsome as [Hsome | [s' [[<- | Hin] Hc]]].
      * left. unfold bestConnectedStep.
        destruct (negb (l_connected s)); [exact Hsome|].
        destruct (withinTolerance _ _ _); [|exact Hsome].
        destruct best as [b0 |]; [|discriminate].
        destruct (betterByDist _ _ _ _); [discriminate|].
        destruct (equalBytes _ _); [|discriminate].
        destruct (Qlt_le_dec _ _); [discriminate|].
        destruct (_ && _); discriminate.
      * left. unfold bestConnectedStep. rewrite Hc. cbn [negb].
        rewrite (Hband s (or_introl eq_refl) Hc).
        destruct best as [b0 |]; [|discriminate].
        destruct (betterByDist _ _ _ _); [discriminate|].
        destruct (equalBytes _ _); [|discriminate].
        destruct (Qlt_le_dec _ _); [discriminate|].
        destruct (_ && _); discriminate.
      * right. exists s'. auto.
Qed.

Lemma legacyScored_spec store t cands ic lq s :
  In s (legacyScored store t cands ic lq) ->
  exists e, getById store (l_id s) = Some e
            /\ l_dist s = xorDistance (Store.coord e) t
            /\ l_connected s = ic (l_id s)
            /\ In (l_id s) cands.
Proof.
  unfold legacyScored. rewrite in_flat_map. intros [i [Hi Hs]].
  destruct (getById store i) as [e |] eqn:Hg; simpl in Hs; [|contradiction].
  destruct Hs as [<- | []]. simpl. exists e. auto.
Qed.

Lemma legacyScored_complete store t cands ic lq i e :
  In i cands -> getById store i = Some e ->
  exists s, In s (legacyScored store t cands ic lq) /\ l_id s = i /\ l_connected s = ic i.
Proof.
  intros Hi Hg. unfold legacyScored.
  exists (mkLegacy i (xorDistance (Store.coord e) t) (ic i)
            ((if ic i then 1 else 0) + (25 # 100) * lq i)%Q).
  split; [|auto]. apply in_flat_map. exists i. split; [exact Hi|].
  rewrite Hg. left. reflexivity.
Qed.

Lemma getById_In store i e : getById store i = Some e -> In e store.
Proof. unfold getById. intros H. apply find_some in H. tauto. Qed.


Lemma byteCoord_nonneg c : byteCoord c = true -> Forall (fun x => 0 <= x) c.
Proof.
  unfold byteCoord. rewrite forallb_forall. intros H. apply Forall_forall.
  intros x Hx. apply H in Hx. unfold isByte in Hx.
  apply andb_true_iff in Hx. destruct Hx as [Hx _]. apply Z.leb_le. exact Hx.
Qed.

Lemma bestByDist_none (l : list LegacyScored) : forall o,
  fold_left bestByDistStep l o = None -> l = [] /\ o = None.
Proof.
  induction l as [| s r IH]; intros o H; simpl in H; [auto|].
  apply IH in H. destruct H as [_ H]. unfold bestByDistStep in H.
  destruct o as [[b d] |]; [destruct (betterByDist _ _ _ _)|]; discriminate.
Qed.

Lemma chooseNextHopLegacy_connected_wins store t cands ic lq tol i :
  byteCoord t = true -> byteStore store = true -> 0 <= tol ->
  In i cands -> getById store i <> None -> ic i = true ->
  exists j, chooseNextHopLegacy store t cands ic lq tol = Some j /\ ic j = true.
Proof.
  intros Ht Hstore Htol Hi Hg Hc.
  destruct (getById store i) as [e |] eqn:Hge; [|congruence].
  destruct (legacyScored_complete store t cands ic lq i e Hi Hge) as [s0 [Hs0 [Hid0 Hc0]]].
  unfold chooseNextHopLegacy.
  set (scored := legacyScored store t cands ic lq) in *.
  destruct (fold_left bestByDistStep scored None) as [[bid bdist] |] eqn:Hb.
  - destruct (bestByDist_minimal scored None bid bdist (fun _ _ _ _ _ => I) Hb) as [_ Hmin].
    assert (Hbd : Forall (fun x => 0 <= x) bdist).
    { apply bestByDist_In in Hb. destruct Hb as [Hb | [s [Hin [_ Hd]]]]; [discriminate|].
      destruct (legacyScored_spec _ _ _ _ _ _ Hin) as [e' [Hg' [Hd' _]]].
      rewrite <- Hd, Hd'. apply xorDistance_nonneg; [|apply byteCoord_nonneg, Ht].
      apply byteCoord_nonneg. unfold byteStore in Hstore.
      rewrite forallb_forall in Hstore. apply Hstore. eapply getById_In. exact Hg'. }
    destruct (bestConnected_connected (leadingByteIndex bdist) tol scored None) as [bc [Hbc Hcc]].
    + intros s Hin _. apply withinTolerance_of_not_closer; auto.
    + discriminate.
    + right. exists s0. split; [exact Hs0 | congruence].
    + rewrite Hbc. exists (l_id bc). split; [reflexivity|].
      apply bestConnected_In in Hbc. destruct Hbc as [Hbc | Hin]; [discriminate|].
      destruct (legacyScored_spec _ _ _ _ _ _ Hin) as [_ [_ [_ [Hcon _]]]]. congruence.
  - exfalso. apply bestByDist_none in Hb. destruct Hb as [H _].
    rewrite H in Hs0. contradiction.
Qed.

(** [bestByDist] is the least scored candidate in the order of
    [betterByDist]. *)
Lemma bestByDist_least (l : list LegacyScored) : forall best bid bdist,
  fold_left bestByDistStep l best = Some (bid, bdist) ->
  (forall b d, best = Some (b, d) ->
     (b = bid /\ d = bdist) \/ betterByDist bid bdist b d = true)
  /\ (forall s, In s l ->
        (l_id s = bid /\ l_dist s = bdist)
        \/ betterByDist bid bdist (l_id s) (l_dist s) = true).
Proof.
  induction l as [| s r IH]; intros best bid bdist H; simpl in H.
  - split; [|intros s []]. intros b d Hb. rewrite Hb in H. inversion H; subst. auto.
  - apply IH in H. destruct H as [Hbest Hrest].
    assert (Hstep : forall b d, bestByDistStep best s = Some (b, d) ->
              ((l_id s = b /\ l_dist s = d) \/ betterByDist b d (l_id s) (l_dist s) = true)
              /\ (forall b0 d0, best = Some (b0, d0) ->
                    (b0 = b /\ d0 = d) \/ betterByDist b d b0 d0 = true)).
    { intros b d Hs. unfold bestByDistStep in Hs. destruct best as [[b0 d0] |].
      - destruct (betterByDist (l_id s) (l_dist s) b0 d0) eqn:E.
        + inversion Hs; subst. split; [auto|]. intros b1 d1 [= <- <-]. auto.
        + inversion Hs; subst. split; [|intros b1 d1 [= <- <-]; auto].
          destruct (betterByDist b d (l_id s) (l_dist s)) eqn:E'; [auto|].
          left. destruct (betterByDist_total _ _ _ _ E E'). auto.
      - inversion Hs; subst. split; [auto | discriminate]. }
    destruct (bestByDistStep best s) as [[b d] |] eqn:Hs.
    + destruct (Hstep b d eq_refl) as [Hs1 Hs2].
      destruct (Hbest b d eq_refl) as [[-> ->] | Hlt].
      * split; [exact Hs2|]. intros s' [<- | Hin]; [exact Hs1 | apply Hrest, Hin].
      * split.
        -- intros b0 d0 Hb0. right. destruct (Hs2 b0 d0 Hb0) as [[-> ->] | Hlt2]; [exact Hlt|].
           eapply betterByDist_trans; eassumption.
        -- intros s' [<- | Hin]; [|apply Hrest, Hin].
           right. destruct Hs1 as [[-> ->] | Hlt1]; [exact Hlt|].
           eapply betterByDist_trans; eassumption.
    + unfold bestByDistStep in Hs. destruct best as [[b0 d0] |];
        [destruct (betterByDist _ _ _ _)|]; discriminate.
Qed.

Lemma bestConnected_none bestLead tol (l : list LegacyScored) : forall best,
  (forall s, In s l -> l_connected s = false) ->
  fold_left (bestConnectedStep bestLead tol) l best = best.
Proof.
  induction l as [| s r IH]; intros best Hnc; simpl; [reflexivity|].
  unfold bestConnectedStep at 2. rewrite (Hnc s (or_introl eq_refl)). cbn [negb].
  apply IH. intros s' Hs'. apply Hnc. right. exact Hs'.
Qed.

Lemma chooseNextHopLegacy_no_connected store t cands ic lq tol i j ej :
  (forall c, In c cands -> ic c = false) ->
  chooseNextHopLegacy store t cands ic lq tol = Some i ->
  In j cands -> getById store j = Some ej ->
  exists ei, getById store i = Some ei
    /\ (i = j \/ betterByDist i (xorDistance (Store.coord ei) t)
                              j (xorDistance (Store.coord ej) t) = true).
Proof.
  intros Hnc Hres Hj Hgj. unfold chooseNextHopLegacy in Hres.
  set (scored := legacyScored store t cands ic lq) in *.
  destruct (fold_left bestByDistStep scored None) as [[bid bdist] |] eqn:Hb; [|discriminate].
  rewrite bestConnected_none in Hres.
  2:{ intros s Hs. destruct (legacyScored_spec _ _ _ _ _ _ Hs) as [_ [_ [_ [Hc Hin]]]].
      rewrite Hc. apply Hnc, Hin. }
  inversion Hres; subst bid. clear Hres.
  pose proof Hb as Hin. apply bestByDist_In in Hin.
  destruct Hin as [Hin | [s [Hin [Hid Hd]]]]; [discriminate|].
  destruct (legacyScored_spec _ _ _ _ _ _ Hin) as [ei [Hgi [Hdi _]]].
  rewrite Hid in Hgi. exists ei. split; [exact Hgi|].
  destruct (bestByDist_least scored None i bdist Hb) as [_ Hleast].
  assert (Hsj : In (mkLegacy j (xorDistance (Store.coord ej) t) (ic j)
                      ((if ic j then 1 else 0) + (25 # 100) * lq j)%Q) scored).
  { apply in_flat_map. exists j. split; [exact Hj|]. rewrite Hgj. left. reflexivity. }
  apply Hleast in Hsj. cbn [l_id l_dist] in Hsj.
  rewrite <- Hdi, Hd.
  destruct Hsj as [[-> _] | Hlt]; [left; reflexivity | right; exact Hlt].
Qed.

(** X1: in cost-function mode, whenever some candidate with a store entry is
    near, [chooseNextHop] returns a near candidate that comes first in the
    order (XOR distance, id) among the near candidates, whatever the
    connections, link qualities, confidence and backoff are. *)
Theorem chooseNextHop_near_returns_closest store t cands ic lq opts nr j ej :
  nearRadius opts = Some nr ->
  In j cands ->
  getById store j = Some ej ->
  isNear (xorDistance (Store.coord ej) t) nr = true ->
  exists i ei,
    chooseNextHop store t cands ic lq (Options opts) = Some i
    /\ In i cands
    /\ getById store i = Some ei
    /\ isNear (xorDistance (Store.coord ei) t) nr = true
    /\ (i = j \/ betterByDist i (xorDistance (Store.coord ei) t)
                              j (xorDistance (Store.coord ej) t) = true).
Proof.
  intros Hnr Hj Hg Hnear. unfold chooseNextHop. rewrite Hnr.
  apply chooseNextHopCost_near_closest; assumption.
Qed.

Lemma chooseNextHop_near_returns_closest_witness :
  exists i ei,
    chooseNextHop Samples.twins (coordByte 200) ["a"%string; "b"%string] Samples.onlyB
      Samples.halfQuality (Options Samples.nearOptions) = Some i
    /\ In i ["a"%string; "b"%string]
    /\ getById Samples.twins i = Some ei
    /\ isNear (xorDistance (Store.coord ei) (coordByte 200)) (coordByte 255) = true
    /\ (i = "b"%string
        \/ betterByDist i (xorDistance (Store.coord ei) (coordByte 200)) "b"%string
             (xorDistance (Store.coord (Samples.freshEntry "b"%string (coordByte 201)))
                (coordByte 200)) = true).
Proof.
  apply (chooseNextHop_near_returns_closest Samples.twins (coordByte 200)
           ["a"%string; "b"%string] Samples.onlyB Samples.halfQuality Samples.nearOptions
           (coordByte 255) "b"%string (Samples.freshEntry "b"%string (coordByte 201))).
  - reflexivity.
  - simpl. tauto.
  - reflexivity.
  - reflexivity.
Defined.

(** X2: in cost-function mode with at least one near candidate,
    [chooseNextHop] returns what the order of the spec (distance, then
    connected first, then lower cost, then lower id) returns, provided that no
    two distinct candidates lie at the same XOR distance from the target. *)
Theorem chooseNextHop_near_order_without_ties store t cands ic lq opts nr :
  nearRadius opts = Some nr ->
  (forall i j ei ej, In i cands -> In j cands ->
     getById store i = Some ei -> getById store j = Some ej ->
     xorDistance (Store.coord ei) t = xorDistance (Store.coord ej) t -> i = j) ->
  (exists j ej, In j cands /\ getById store j = Some ej
                /\ isNear (xorDistance (Store.coord ej) t) nr = true) ->
  chooseNextHop store t cands ic lq (Options opts)
  = specChooseNear store t cands ic lq (confidenceOf opts) (backoffOf opts) nr.
Proof.
  intros Hnr Hinj Hex. unfold chooseNextHop. rewrite Hnr.
  apply chooseNextHopCost_spec_without_ties; assumption.
Qed.

Lemma chooseNextHop_near_order_without_ties_witness :
  chooseNextHop Samples.closeAndFar (coordByte 200)
    ["close-disconnected"%string; "far-connected"%string]
    Samples.onlyFarConnected Samples.halfQuality (Options Samples.nearOptions)
  = specChooseNear Samples.closeAndFar (coordByte 200)
      ["close-disconnected"%string; "far-connected"%string]
      Samples.onlyFarConnected Samples.halfQuality
      (confidenceOf Samples.nearOptions) (backoffOf Samples.nearOptions) (coordByte 255).
Proof.
  apply (chooseNextHop_near_order_without_ties Samples.closeAndFar (coordByte 200)
           ["close-disconnected"%string; "far-connected"%string]
           Samples.onlyFarConnected Samples.halfQuality Samples.nearOptions
           (coordByte 255)).
  - reflexivity.
  - intros i j ei ej Hi Hj Hgi Hgj Hd.
    simpl in Hi, Hj.
    destruct Hi as [<- | [<- | []]]; destruct Hj as [<- | [<- | []]];
      try reflexivity; vm_compute in Hgi, Hgj;
      inversion Hgi; inversion Hgj; subst; vm_compute in Hd; discriminate.
  - exists "close-disconnected"%string,
      (Samples.freshEntry "close-disconnected"%string (coordByte 201)).
    split; [simpl; tauto|]. split; reflexivity.
Defined.

(** X3: in legacy mode with a tolerance of at least 0, over byte-valued
    coordinates, [chooseNextHop] returns a connected candidate whenever some
    candidate with a store entry is connected, however far that candidate is
    from the closest one: the band test of the code excludes no candidate. *)
Theorem chooseNextHop_legacy_connected_wins store t cands ic lq tol i :
  byteCoord t = true -> byteStore store = true -> 0 <= tol ->
  In i cands -> getById store i <> None -> ic i = true ->
  exists j, chooseNextHop store t cands ic lq (Tolerance tol) = Some j /\ ic j = true.
Proof.
  intros. unfold chooseNextHop. cbn [nearRadius connectedToleranceBytes].
  apply chooseNextHopLegacy_connected_wins with (i := i); assumption.
Qed.

Lemma chooseNextHop_legacy_connected_wins_witness :
  exists j, chooseNextHop Samples.nearAndFar zeroCoord ["near"%string; "far"%string]
              Samples.onlyFar Samples.halfQuality (Tolerance 1) = Some j
            /\ Samples.onlyFar j = true.
Proof.
  apply (chooseNextHop_legacy_connected_wins Samples.nearAndFar zeroCoord
           ["near"%string; "far"%string] Samples.onlyFar Samples.halfQuality 1 "far"%string).
  - reflexivity.
  - reflexivity.
  - lia.
  - simpl. tauto.
  - vm_compute. discriminate.
  - reflexivity.
Defined.

(** X4: in legacy mode, when no candidate is connected, [chooseNextHop]
    returns [bestByDist]: a candidate that comes first in the order (XOR
    distance, id) among the candidates with a store entry. *)
Theorem chooseNextHop_legacy_no_connected store t cands ic lq tol i j ej :
  (forall c, In c cands -> ic c = false) ->
  chooseNextHop store t cands ic lq (Tolerance tol) = Some i ->
  In j cands -> getById store j = Some ej ->
  exists ei, getById store i = Some ei
    /\ (i = j \/ betterByDist i (xorDistance (Store.coord ei) t)
                              j (xorDistance (Store.coord ej) t) = true).
Proof.
  unfold chooseNextHop. cbn [nearRadius connectedToleranceBytes].
  apply chooseNextHopLegacy_no_connected.
Qed.

Lemma chooseNextHop_legacy_no_connected_witness :
  exists ei, getById Samples.nearAndFar "near"%string = Some ei
    /\ ("near"%string = "far"%string
        \/ betterByDist "near"%string (xorDistance (Store.coord ei) zeroCoord) "far"%string
             (xorDistance
                (Store.coord (Samples.freshEntry "far"%string (255 :: repeat 0 31%nat)))
                zeroCoord) = true).
Proof.
  apply (chooseNextHop_legacy_no_connected Samples.nearAndFar zeroCoord
           ["near"%string; "far"%string] (fun _ => false) Samples.halfQuality 1
           "near"%string "far"%string
           (Samples.freshEntry "far"%string (255 :: repeat 0 31%nat))).
  - reflexivity.
  - reflexivity.
  - simpl. tauto.
  - reflexivity.
Defined.

(** The four unit tests of the selector ([test/next-hop.spec.ts]) give
    the results the tests expect. *)
Example next_hop_unit_tests :
  chooseNextHop Samples.closeAndFar (coordByte 200)
    ["close-disconnected"%string; "far-connected"%string]
    Samples.onlyFarConnected Samples.halfQuality
    (Options (mkOpts (Some (PayloadHeuristic.computeNearRadius 10 5 2)) (Some (9 # 10)%Q)
                None None))
  = Some "close-disconnected"%string
  /\ chooseNextHop
       (Store.upsert 0 (Store.upsert 0 Store.empty "closer-disconnected"%string (coordByte 110))
          "farther-connected"%string (coordByte 115))
       (coordByte 100) ["closer-disconnected"%string; "farther-connected"%string]
       (String.eqb "farther-connected"%string) Samples.halfQuality
       (Options (mkOpts (Some (coordByte 1)) (Some (1 # 2)%Q) None None))
     = Some "farther-connected"%string
  /\ chooseNextHop
       (Store.upsert 0 (Store.upsert 0 Store.empty "penalized"%string (coordByte 60))
          "ok"%string (coordByte 61))
       (coordByte 50) ["penalized"%string; "ok"%string] (fun _ => false) Samples.halfQuality
       (Options (mkOpts (Some zeroCoord) (Some (1 # 2)%Q)
                   (Some (fun i => if String.eqb i "penalized"%string then 1%Q else 0%Q))
                   None))
     = Some "ok"%string
  /\ chooseNextHop
       (Store.upsert 0 (Store.upsert 0 Store.empty "far-connected"%string (coordByte 210))
          "near-disconnected"%string (coordByte 201))
       (coordByte 200) ["far-connected"%string; "near-disconnected"%string]
       Samples.onlyFarConnected Samples.halfQuality (Tolerance 1)
     = Some "far-connected"%string.
Proof. repeat split; vm_compute; reflexivity. Qed.

(** ** Partition detection (C5) *)





(** ** Capacity enforcement (C6) *)

Lemma remove_In s i e : In e (Store.remove s i) <-> In e s /\ id e <> i.
Proof.
  unfold Store.remove. rewrite filter_In, negb_true_iff, String.eqb_neq. tauto.
Qed.

Lemma insertOrdered_perm e s : Permutation (insertOrdered e s) (e :: s).
Proof.
  induction s as [| x r IH]; simpl; [reflexivity|].
  destruct (entryBefore e x); [reflexivity|].
  rewrite IH. apply perm_swap.
Qed.

Lemma remove_unique s i : UniqueIds s -> UniqueIds (Store.remove s i).
Proof.
  unfold UniqueIds, Store.remove. induction s as [| x r IH]; simpl; intros H; [exact H|].
  inversion H as [| ? ? Hx Hr]; subst.
  destruct (negb (String.eqb (id x) i)); simpl; [|auto].
  constructor; [|auto].
  intros Hin. apply Hx. apply in_map_iff in Hin. destruct Hin as [y [Hy Hin]].
  apply filter_In in Hin. apply in_map_iff. exists y. tauto.
Qed.

Lemma remove_no_id s i : ~ In i (map id (Store.remove s i)).
Proof.
  intros Hin. apply in_map_iff in Hin. destruct Hin as [y [Hy Hin]].
  apply remove_In in Hin. tauto.
Qed.

Lemma getById_None s i : getById s i = None -> ~ In i (map id s).
Proof.
  unfold getById. intros H Hin. apply in_map_iff in Hin. destruct Hin as [y [Hy Hin]].
  apply (find_none _ _ H) in Hin. rewrite Hy, String.eqb_refl in Hin. discriminate.
Qed.

Lemma insertOrdered_unique e s :
  UniqueIds s -> ~ In (id e) (map id s) -> UniqueIds (insertOrdered e s).
Proof.
  intros Hs Hnew. unfold UniqueIds.
  eapply Permutation_NoDup.
  - apply Permutation_map. symmetry. apply insertOrdered_perm.
  - simpl. constructor; assumption.
Qed.

Lemma update_ids s i patch : map id (Store.update s i patch) = map id s.
Proof.
  unfold Store.update. rewrite map_map. apply map_ext.
  intros e. destruct (String.eqb (id e) i); reflexivity.
Qed.

Lemma applyOp_unique s op : UniqueIds s -> UniqueIds (applyOp s op).
Proof.
  intros Hs. destruct op as [nowMs i c | i patch | i st | i]; simpl.
  - unfold Store.upsert. destruct (getById s i) as [e |] eqn:Hg.
    + apply insertOrdered_unique; [apply remove_unique; exact Hs | apply remove_no_id].
    + apply insertOrdered_unique; [exact Hs | simpl; apply getById_None; exact Hg].
  - unfold UniqueIds. rewrite update_ids. exact Hs.
  - unfold UniqueIds, Store.setState. rewrite update_ids. exact Hs.
  - apply remove_unique. exact Hs.
Qed.

(** Invariant I2 holds of every store that the operations build. *)
Lemma runOps_unique ops : UniqueIds (runOps ops).
Proof.
  unfold runOps. assert (H : UniqueIds Store.empty) by constructor.
  revert H. generalize Store.empty. induction ops as [| op ops IH]; intros s Hs; simpl.
  - exact Hs.
  - apply IH, applyOp_unique, Hs.
Qed.

Lemma remove_size s e :
  UniqueIds s -> In e s -> Store.size (Store.remove s (id e)) = Store.size s - 1.
Proof.
  unfold UniqueIds, Store.size, Store.remove.
  induction s as [| x r IH]; intros Hu Hin; [contradiction|].
  inversion Hu as [| ? ? Hx Hr]; subst. simpl in Hin. cbn [filter].
  destruct Hin as [-> | Hin].
  - rewrite String.eqb_refl. cbn [negb].
    assert (Hsame : filter (fun e0 => negb (String.eqb (id e0) (id e))) r = r).
    { apply forallb_filter_id. apply forallb_forall. intros y Hy.
      apply negb_true_iff, String.eqb_neq. intros Heq. apply Hx.
      rewrite <- Heq. apply in_map. exact Hy. }
    rewrite Hsame. cbn [List.length]. lia.
  - assert (Hne : id x <> id e).
    { intros Heq. apply Hx. rewrite Heq. apply in_map. exact Hin. }
    apply String.eqb_neq in Hne. rewrite Hne. cbn [negb List.length].
    specialize (IH Hr Hin). lia.
Qed.

Lemma unique_entry s e x :
  UniqueIds s -> In e s -> In x s -> id e = id x -> e = x.
Proof.
  unfold UniqueIds. induction s as [| y r IHs]; intros Hu He Hx Heq; [contradiction|].
  inversion Hu as [| ? ? Hy Hr]; subst. simpl in He, Hx.
  destruct He as [-> | He]; destruct Hx as [Hx | Hx]; auto.
  - exfalso. apply Hy. rewrite Heq. apply in_map. exact Hx.
  - subst y. exfalso. apply Hy. rewrite <- Heq. apply in_map. exact He.
Qed.

Lemma relevanceCmp_le a b : Qle_bool (relevanceCmp a b) 0 = true <-> ByRelevance a b.
Proof.
  unfold relevanceCmp, ByRelevance. rewrite Qle_bool_iff. split; intros H.
  - apply Qle_minus_iff in H. apply Qle_minus_iff.
    setoid_replace (relevance b + - relevance a)%Q with (0 + - (relevance a - relevance b))%Q
      by ring. exact H.
  - apply Qle_minus_iff. apply Qle_minus_iff in H.
    setoid_replace (0 + - (relevance a - relevance b))%Q with (relevance b + - relevance a)%Q
      by ring. exact H.
Qed.

Lemma insertBy_sorted x l :
  StronglySorted ByRelevance l -> StronglySorted ByRelevance (Js.insertBy relevanceCmp x l).
Proof.
  induction l as [| y r IH]; intros Hs; simpl.
  - constructor; constructor.
  - inversion Hs as [| ? ? Hr Hy]; subst.
    destruct (Qle_bool (relevanceCmp x y) 0) eqn:E.
    + apply relevanceCmp_le in E. constructor; [exact Hs|].
      constructor; [exact E|].
      rewrite Forall_forall in *. intros z Hz. unfold ByRelevance in *.
      eapply Qle_trans; [exact E | apply Hy, Hz].
    + constructor; [apply IH, Hr|].
      assert (Hyx : ByRelevance y x).
      { unfold ByRelevance. destruct (Qlt_le_dec (relevance x) (relevance y)) as [Hlt | Hle];
          [|exact Hle].
        exfalso. apply Qlt_le_weak in Hlt. apply relevanceCmp_le in Hlt. congruence. }
      rewrite Forall_forall in *. intros z Hz.
      apply insertBy_In in Hz. destruct Hz as [-> | Hz]; [exact Hyx | apply Hy, Hz].
Qed.

(** The eviction snapshot is in ascending relevance. *)
Lemma sortBy_sorted l : StronglySorted ByRelevance (Js.sortBy relevanceCmp l).
Proof.
  induction l as [| x r IH]; simpl; [constructor | apply insertBy_sorted, IH].
Qed.

(** The eviction loop over a snapshot sorted by relevance: what it keeps,
    what it removes, and when it stops. *)
Lemma evictLoop_spec cap prot : forall entries s,
  UniqueIds s ->
  NoDup (map id entries) ->
  StronglySorted ByRelevance entries ->
  (forall e, In e entries -> In e s) ->
  let s' := evictLoop cap prot entries s in
  (forall e, In e s' -> In e s)
  /\ (forall e, In e s -> Js.has prot (id e) = true -> In e s')
  /\ (forall e, In e s -> ~ In e s' -> In e entries /\ Js.has prot (id e) = false)
  /\ (forall e e', In e s -> ~ In e s' -> In e' entries -> In e' s' ->
        Js.has prot (id e') = false -> ByRelevance e e')
  /\ Z.min (Store.size s) cap <= Store.size s'
  /\ (Store.size s' <= cap
      \/ forall e, In e entries -> In e s' -> Js.has prot (id e) = true).
Proof.
  induction entries as [| x rest IH]; intros s Hu Hnd Hsorted Hsub; cbn zeta.
  - simpl. repeat split; auto; try tauto; try lia.
  - cbn [evictLoop].
    inversion Hsorted as [| ? ? Hrest Hx]; subst.
    inversion Hnd as [| ? ? Hxrest Hndrest]; subst.
    destruct (Z.leb_spec (Store.size s) cap) as [Hfit | Hover].
    + repeat split; auto; try tauto; lia.
    + destruct (Js.has prot (id x)) eqn:Hprot.
      * specialize (IH s Hu Hndrest Hrest (fun e He => Hsub e (or_intror He))).
        cbn zeta in IH.
        destruct IH as [I1 [I2 [I3 [I4 [I5 I6]]]]].
        split; [exact I1|]. split; [exact I2|].
        split; [intros e He Hgone; destruct (I3 e He Hgone); split; [right|]; assumption|].
        split.
        { intros e e' He Hgone [<- | He'] Hkept Hnp; [congruence|].
          apply (I4 e e'); assumption. }
        split; [exact I5|].
        destruct I6 as [I6 | I6]; [left; exact I6|].
        right. intros e [<- | He] Hkept; [exact Hprot | apply I6; assumption].
      * assert (Hxs : In x s) by (apply Hsub; left; reflexivity).
        assert (Hu' : UniqueIds (Store.remove s (id x))) by (apply remove_unique, Hu).
        assert (Hsub' : forall e, In e rest -> In e (Store.remove s (id x))).
        { intros e He. apply remove_In. split; [apply Hsub; right; exact He|].
          intros Heq. apply Hxrest. rewrite <- Heq. apply in_map. exact He. }
        specialize (IH (Store.remove s (id x)) Hu' Hndrest Hrest Hsub'). cbn zeta in IH.
        destruct IH as [I1 [I2 [I3 [I4 [I5 I6]]]]].
        assert (Hxgone : forall e, In e (evictLoop cap prot rest (Store.remove s (id x))) ->
                                   id e <> id x).
        { intros e He. apply I1, remove_In in He. tauto. }
        assert (Hcase : forall e, In e s -> e = x \/ In e (Store.remove s (id x))).
        { intros e He. destruct (String.eqb_spec (id e) (id x)) as [Heq | Hne].
          - left. exact (unique_entry s e x Hu He Hxs Heq).
          - right. apply remove_In. tauto. }
        split; [intros e He; apply I1, remove_In in He; tauto|].
        split.
        { intros e He Hp. destruct (Hcase e He) as [-> | Hin]; [congruence|].
          apply I2; assumption. }
        split.
        { intros e He Hgone. destruct (Hcase e He) as [-> | Hin].
          - split; [left; reflexivity | exact Hprot].
          - destruct (I3 e Hin Hgone). split; [right|]; assumption. }
        split.
        { intros e e' He Hgone [<- | He'] Hkept Hnp.
          - exfalso. apply (Hxgone _ Hkept). reflexivity.
          - destruct (Hcase e He) as [-> | Hin].
            + rewrite Forall_forall in Hx. apply Hx, He'.
            + apply (I4 e e'); assumption. }
        split; [rewrite (remove_size s x Hu Hxs) in I5; lia|].
        destruct I6 as [I6 | I6]; [left; exact I6|].
        right. intros e [<- | He] Hkept.
        -- exfalso. apply (Hxgone _ Hkept). reflexivity.
        -- apply I6; assumption.
Qed.

Lemma ringRight_In s c e : In e (ringRight s c) -> In e s.
Proof.
  unfold ringRight. rewrite in_app_iff, !filter_In. tauto.
Qed.

Lemma ringLeft_In s c e : In e (ringLeft s c) -> In e s.
Proof.
  unfold ringLeft. rewrite in_app_iff, <- !in_rev, !filter_In. tauto.
Qed.

Lemma protectedIds_in_store s self m i :
  In i (protectedIdsAround s self m) -> exists e, In e s /\ id e = i.
Proof.
  unfold protectedIdsAround, neighborsRight, neighborsLeft.
  rewrite uniq_In, in_app_iff.
  intros [H | H]; apply In_firstn, in_map_iff in H; destruct H as [e [He Hin]];
    exists e; split; auto; [eapply ringRight_In | eapply ringLeft_In]; exact Hin.
Qed.

(** C6: take the store [s] after any sequence of upserts (and updates, state
    changes, removals) and enforce capacity around a recorded self
    coordinate (without one, nothing is removed at all).  Every member of
    [protectedIdsAround(self, max(2, m))] is still present; nothing is added; only non-protected entries are removed;
    every removed entry has a relevance no higher than that of any
    non-protected entry that stays; a store within capacity is left alone;
    eviction never goes below the capacity, and it ends with [size <=
    capacity] or with protected entries only. *)
Theorem enforceCapacity_protects ops cfg self :
  let s := runOps ops in
  let cap := Z.max 1 (capacity cfg) in
  let protectedIds := protectedIdsAround s self (Z.max 2 (m cfg)) in
  let s' := enforceCapacity cfg (Some self) s in
  enforceCapacity cfg None s = s
  /\ (forall i, In i protectedIds -> exists e, In e s /\ In e s' /\ id e = i)
  /\ (forall e, In e s' -> In e s)
  /\ (forall e, In e s -> ~ In e s' -> ~ In (id e) protectedIds)
  /\ (forall e e', In e s -> ~ In e s' -> In e' s' -> ~ In (id e') protectedIds ->
        (relevance e <= relevance e')%Q)
  /\ (Store.size s <= cap -> s' = s)
  /\ Z.min (Store.size s) cap <= Store.size s'
  /\ (Store.size s' <= cap \/ forall e, In e s' -> In (id e) protectedIds).
Proof.
  cbv zeta. set (s := runOps ops). set (cap := Z.max 1 (capacity cfg)).
  set (prot := protectedIdsAround s self (Z.max 2 (m cfg))).
  pose proof (runOps_unique ops) as Hu. fold s in Hu.
  split; [unfold enforceCapacity; destruct (_ <=? _); reflexivity|].
  unfold enforceCapacity. fold cap. fold prot.
  destruct (Z.leb_spec (Store.size s) cap) as [Hfit | Hover].
  - split; [intros i Hi; destruct (protectedIds_in_store _ _ _ _ Hi) as [e [He Hid]];
            exists e; auto|].
    repeat split; auto; try tauto; lia.
  - unfold Store.listEntries.
    assert (Hperm : Permutation (Js.sortBy relevanceCmp s) s) by apply sortBy_perm.
    assert (Hnd : NoDup (map id (Js.sortBy relevanceCmp s))).
    { eapply Permutation_NoDup; [apply Permutation_map; symmetry; exact Hperm | exact Hu]. }
    assert (Hsub : forall e, In e (Js.sortBy relevanceCmp s) -> In e s).
    { intros e. apply sortBy_In. }
    destruct (evictLoop_spec cap prot _ s Hu Hnd (sortBy_sorted s) Hsub)
      as [I1 [I2 [I3 [I4 [I5 I6]]]]].
    split.
    { intros i Hi. destruct (protectedIds_in_store _ _ _ _ Hi) as [e [He Hid]].
      exists e. split; [exact He|]. split; [|exact Hid].
      apply I2; [exact He|]. apply has_true_iff. rewrite Hid. exact Hi. }
    split; [exact I1|].
    split.
    { intros e He Hgone. destruct (I3 e He Hgone) as [_ Hnp]. apply has_false_iff. exact Hnp. }
    split.
    { intros e e' He Hgone He' Hnp. apply (I4 e e'); auto.
      - apply sortBy_In, I1, He'.
      - apply has_false_iff. exact Hnp. }
    split; [lia|].
    split; [exact I5|].
    destruct I6 as [I6 | I6]; [left; exact I6|].
    right. intros e He. apply has_true_iff. apply I6; [|exact He].
    apply sortBy_In, I1, He.
Qed.

(** Seven peers, capacity 5 and [m = 1]: the two nearest on each side of
    coordinate 100 are protected although their relevance is lowest; of the
    others, [y] (relevance 1) and [z] (relevance 3) go and [x] stays. *)
Example enforceCapacity_evicts_lowest_relevance :
  map id (enforceCapacity (mkConfig 15 1 5 core) (Some (coordByte 100)) Samples.scoredRing)
  = ["p2"%string; "p1"%string; "s1"%string; "s2"%string; "x"%string].
Proof. vm_compute. reflexivity. Qed.

(** With capacity 2 the four protected peers are all that stays. *)
Example enforceCapacity_keeps_protected_over_capacity :
  map id (enforceCapacity (mkConfig 15 1 2 core) (Some (coordByte 100)) Samples.scoredRing)
  = ["p2"%string; "p1"%string; "s1"%string; "s2"%string].
Proof. vm_compute. reflexivity. Qed.

(** ** Cohort assembly (C7) *)


Lemma pushUnlessExcluded_length ex out i :
  (List.length (pushUnlessExcluded ex out i) <= S (List.length out))%nat.
Proof.
  unfold pushUnlessExcluded. destruct (_ && _); [rewrite length_app; simpl|]; lia.
Qed.


(** One turn of the [while] loop. *)
Lemma cohortLoop_eq wants ex succIds predIds out :
  cohortLoop wants ex succIds predIds out =
  if (Z.of_nat (List.length out) <? wants)
  then
    match succIds, predIds with
    | [], [] => out
    | i :: succ', [] => cohortLoop wants ex succ' [] (pushUnlessExcluded ex out i)
    | [], i :: pred' => cohortLoop wants ex [] pred' (pushUnlessExcluded ex out i)
    | i :: succ', j :: pred' =>
        if Nat.even (List.length out)
        then cohortLoop wants ex succ' predIds (pushUnlessExcluded ex out i)
        else cohortLoop wants ex succIds pred' (pushUnlessExcluded ex out j)
    end
  else out.
Proof. destruct succIds, predIds; reflexivity. Qed.

(** Induction along the loop: every turn shortens one of the two walks. *)
Lemma cohortLoop_ind (P : list Id -> list Id -> Prop) :
  (forall A B,
     (forall i A', A = i :: A' -> P A' B) ->
     (forall j B', B = j :: B' -> P A B') ->
     P A B) ->
  forall A B, P A B.
Proof.
  intros step A. induction A as [| i A IHA]; intros B; induction B as [| j B IHB];
    apply step; intros; try discriminate.
  - inversion H; subst. exact IHB.
  - inversion H; subst. apply IHA.
  - inversion H; subst. apply IHA.
  - inversion H; subst. exact IHB.
Qed.



Lemma cohortLoop_length w ex : forall A B out,
  Z.of_nat (List.length (cohortLoop w ex A B out))
  <= Z.max (Z.of_nat (List.length out)) w.
Proof.
  intros A B. pattern A, B. apply cohortLoop_ind. clear A B.
  intros A B IHA IHB out. rewrite cohortLoop_eq.
  destruct (Z.ltb_spec (Z.of_nat (List.length out)) w) as [Hlt | Hge]; [|lia].
  assert (Hpush : forall i, Z.max (Z.of_nat (List.length (pushUnlessExcluded ex out i))) w
                            <= Z.max (Z.of_nat (List.length out)) w).
  { intros i. pose proof (pushUnlessExcluded_length ex out i). lia. }
  destruct A as [| i A'], B as [| j B'].
  - lia.
  - etransitivity; [apply (IHB j B' eq_refl) | apply Hpush].
  - etransitivity; [apply (IHA i A' eq_refl) | apply Hpush].
  - destruct (Nat.even _).
    + etransitivity; [apply (IHA i A' eq_refl) | apply Hpush].
    + etransitivity; [apply (IHB j B' eq_refl) | apply Hpush].
Qed.






(** ** Replacement lists of leave notices (C8) *)

Section LeaveFacts.

Variable peerIdFromString : Id -> bool.

Lemma slice0_MAX {A} (l : list A) : Js.slice0 Leave.MAX_REPLACEMENTS l = firstn 12 l.
Proof. reflexivity. Qed.

Lemma handlerReplacements_eq (msg : Leave.LeaveNoticeV1) :
  Leave.handlerReplacements peerIdFromString msg
  = filter peerIdFromString
      (firstn 12 (match Leave.replacements msg with Some l => l | None => [] end)).
Proof.
  unfold Leave.handlerReplacements, Leave.registerLeave_notice, Leave.sanitizeReplacements.
  cbn [Leave.replacements].
  destruct (Leave.replacements msg) as [[| i l] |]; try reflexivity.
  rewrite slice0_MAX.
  destruct (filter peerIdFromString (firstn 12 (i :: l))); reflexivity.
Qed.

(** C8, amended: the replacements that the leave handler receives are the
    well-formed ids among the first 12 entries of the wire-level list, in
    order: at most 12, all well-formed, and none of the well-formed ids among
    those first 12 entries is missing. *)
Theorem sanitizeReplacements_spec (msg : Leave.LeaveNoticeV1) :
  let wire := match Leave.replacements msg with Some l => l | None => [] end in
  let got := Leave.handlerReplacements peerIdFromString msg in
  got = filter peerIdFromString (firstn 12 wire)
  /\ (List.length got <= 12)%nat
  /\ Forall (fun i => peerIdFromString i = true) got
  /\ (forall i, In i (firstn 12 wire) -> peerIdFromString i = true -> In i got)
  /\ Leave.replacements (Leave.registerLeave_notice peerIdFromString msg)
     = match got with [] => None | _ => Some got end.
Proof.
  cbv zeta. rewrite handlerReplacements_eq.
  set (wire := match Leave.replacements msg with Some l => l | None => [] end).
  split; [reflexivity|].
  split.
  { etransitivity; [apply filter_length_le|]. apply firstn_le_length. }
  split.
  { apply Forall_forall. intros i Hi. apply filter_In in Hi. tauto. }
  split.
  { intros i Hi Hok. apply filter_In. tauto. }
  unfold Leave.registerLeave_notice, Leave.sanitizeReplacements. cbn [Leave.replacements].
  subst wire. destruct (Leave.replacements msg) as [[| i l] |]; try reflexivity.
  rewrite slice0_MAX.
  destruct (filter peerIdFromString (firstn 12 (i :: l))); reflexivity.
Qed.

(** Whatever the parser, twelve unparseable ids in front hide a well-formed
    thirteenth. *)
Lemma sanitizeReplacements_truncates_first (bad good : Id) :
  peerIdFromString bad = false ->
  peerIdFromString good = true ->
  ~ ReplacementsAsStated peerIdFromString (repeat bad 12 ++ [good]).
Proof.
  intros Hbad Hgood. unfold ReplacementsAsStated.
  rewrite handlerReplacements_eq. cbn [Leave.replacements].
  cbn [repeat app firstn filter]. rewrite !Hbad, Hgood. cbn [firstn]. discriminate.
Qed.

End LeaveFacts.

(** C8 as worded fails: of twelve empty ids followed by a well-formed one,
    the handler receives nothing, while dropping first and truncating second
    would keep the well-formed id. *)
Lemma sanitizeReplacements_counterexample :
  ~ ReplacementsAsStated Samples.nonEmptyId Samples.twelveBadThenGood.
Proof.
  unfold ReplacementsAsStated. vm_compute. discriminate.
Qed.

(* ------------------------------------------------------------------ *)
(** * Further properties *)

Import Maintenance Notions.

(** ** The selector in far mode and on empty input *)



Lemma Qle_bool_false (x y : Q) : Qle_bool x y = false <-> (y < x)%Q.
Proof.
  split.
  - intros H. apply Qnot_le_lt. intros Hle. apply Qle_bool_iff in Hle. congruence.
  - intros H. destruct (Qle_bool x y) eqn:E; [|reflexivity].
    apply Qle_bool_iff in E. exfalso. exact (Qlt_not_le _ _ H E).
Qed.




Lemma scoreCandidates_nil store t cands ic lq conf bo nr :
  scoreCandidates store t cands ic lq conf bo nr = [] <->
  (forall i, In i cands -> getById store i = None).
Proof.
  split.
  - intros H i Hi. destruct (getById store i) as [e |] eqn:Hg; [|reflexivity].
    exfalso.
    assert (Hin : In (mkScored i (xorDistance (Store.coord e) t)
               (isNear (xorDistance (Store.coord e) t) nr) (ic i)
               (cost (normalizeDistance (xorDistance (Store.coord e) t)) (ic i) (lq i) (bo i)
                  (weightsForContext (isNear (xorDistance (Store.coord e) t) nr) conf)))
              (scoreCandidates store t cands ic lq conf bo nr)).
    { apply scoreCandidates_spec. exists e. simpl. auto. }
    rewrite H in Hin. contradiction.
  - intros H. destruct (scoreCandidates store t cands ic lq conf bo nr) as [| s r] eqn:E;
      [reflexivity|].
    assert (Hin : In s (scoreCandidates store t cands ic lq conf bo nr))
      by (rewrite E; left; reflexivity).
    apply scoreCandidates_In in Hin. destruct Hin as [Hi Hg].
    rewrite (H _ Hi) in Hg. congruence.
Qed.

Lemma legacyScored_nil store t cands ic lq :
  legacyScored store t cands ic lq = [] <->
  (forall i, In i cands -> getById store i = None).
Proof.
  split.
  - intros H i Hi. destruct (getById store i) as [e |] eqn:Hg; [|reflexivity].
    exfalso. destruct (legacyScored_complete store t cands ic lq i e Hi Hg) as [s [Hs _]].
    rewrite H in Hs. contradiction.
  - intros H. destruct (legacyScored store t cands ic lq) as [| s r] eqn:E; [reflexivity|].
    assert (Hin : In s (legacyScored store t cands ic lq)) by (rewrite E; left; reflexivity).
    apply legacyScored_In in Hin. destruct Hin as [Hi Hg].
    rewrite (H _ Hi) in Hg. congruence.
Qed.

Lemma sortBy_nil {A} (cmp : A -> A -> Q) (l : list A) : Js.sortBy cmp l = [] -> l = [].
Proof.
  destruct l as [| x r]; [reflexivity|]. intros H.
  assert (Hin : In x (Js.sortBy cmp (x :: r))) by (apply sortBy_In; left; reflexivity).
  rewrite H in Hin. contradiction.
Qed.

Lemma chooseNextHop_undefined_iff_facts store t cands ic lq o :
  chooseNextHop store t cands ic lq o = None <->
  (forall i, In i cands -> getById store i = None).
Proof.
  unfold chooseNextHop.
  destruct (nearRadius _) as [nr |].
  - unfold chooseNextHopCost.
    set (scored := scoreCandidates _ _ _ _ _ _ _ _).
    rewrite <- (scoreCandidates_nil store t cands ic lq
                  (match confidence match o with
                                     | Tolerance n => mkOpts None None None (Some n)
                                     | Options o0 => o0
                                     | NoOptions => mkOpts None None None None
                                     end with Some c => c | None => (1 # 2)%Q end)
                  (match backoffPenalty match o with
                                     | Tolerance n => mkOpts None None None (Some n)
                                     | Options o0 => o0
                                     | NoOptions => mkOpts None None None None
                                     end with Some f => f | None => fun _ => 0%Q end) nr).
    fold scored.
    destruct scored as [| s0 rest] eqn:Hsc; [tauto|].
    rewrite <- Hsc.
    split; [|intros H; rewrite H in Hsc; discriminate].
    intros H. exfalso.
    destruct (Js.sortBy nearCmp (filter s_near scored)) as [| f1 r1] eqn:Hn; [|discriminate].
    destruct (Js.sortBy farCmp (filter (fun s => negb (s_near s)) scored)) as [| f2 r2] eqn:Hf;
      [|discriminate].
    apply sortBy_nil in Hn, Hf.
    assert (Hin : In s0 scored) by (rewrite Hsc; left; reflexivity).
    destruct (s_near s0) eqn:Hs0.
    + assert (Hin' : In s0 (filter s_near scored)) by (apply filter_In; auto).
      rewrite Hn in Hin'. contradiction.
    + assert (Hin' : In s0 (filter (fun s => negb (s_near s)) scored)).
      { apply filter_In. rewrite Hs0. auto. }
      rewrite Hf in Hin'. contradiction.
  - unfold chooseNextHopLegacy. rewrite <- (legacyScored_nil store t cands ic lq).
    set (scored := legacyScored store t cands ic lq).
    destruct (fold_left bestByDistStep scored None) as [[bid bdist] |] eqn:Hb.
    + split.
      * intros H. destruct (fold_left (bestConnectedStep _ _) scored None); discriminate.
      * intros H. rewrite H in Hb. discriminate.
    + apply bestByDist_none in Hb. tauto.
Qed.

(** X10: in every mode, [chooseNextHop] returns [undefined] exactly when no
    candidate has an entry in the store, in particular for an empty list of
    candidates. *)
Theorem chooseNextHop_undefined_iff store t cands ic lq o :
  chooseNextHop store t cands ic lq o = None <->
  (forall i, In i cands -> getById store i = None).
Proof. exact (chooseNextHop_undefined_iff_facts store t cands ic lq o). Qed.

(** [Math.max(a, b)] is at least [a]. *)
Lemma qmax_ge_l a b : (a <= qmax a b)%Q.
Proof.
  unfold qmax. destruct (Qle_bool a b) eqn:E; [apply Qle_bool_iff, E | apply Qle_refl].
Qed.

(** X11: with the weights of every context (near or far, any confidence), a
    connected peer costs strictly less than the same peer disconnected, and
    the cost does not decrease with the normalised distance, does not
    increase with the link quality, and does not decrease with the backoff
    penalty: the clamps [Math.max(0.1, ..)] and [Math.max(0.05, ..)] keep the
    weights of distance and connection positive. *)
Theorem cost_monotone (near : bool) (confidence nd nd' lq lq' bo bo' : Q) (c : bool) :
  let w := weightsForContext near confidence in
  (cost nd true lq bo w < cost nd false lq bo w)%Q
  /\ ((nd <= nd')%Q -> (cost nd c lq bo w <= cost nd' c lq bo w)%Q)
  /\ ((lq <= lq')%Q -> (cost nd c lq' bo w <= cost nd c lq bo w)%Q)
  /\ ((bo <= bo')%Q -> (cost nd c lq bo w <= cost nd c lq bo' w)%Q).
Proof.
  cbv zeta. unfold weightsForContext, cost. cbn [wD wConn wQ wB].
  set (wd := qmax (1 # 10) _). set (wc := qmax (5 # 100) _).
  assert (Hwd : (1 # 10 <= wd)%Q) by apply qmax_ge_l.
  assert (Hwc : (5 # 100 <= wc)%Q) by apply qmax_ge_l.
  assert (Hwd0 : (0 <= wd)%Q) by (eapply Qle_trans; [|exact Hwd]; discriminate).
  assert (Hwc0 : (0 < wc)%Q) by (eapply Qlt_le_trans; [|exact Hwc]; reflexivity).
  split; [|split; [|split]].
  - lra.
  - intros H. destruct c; nra.
  - intros H. destruct c; lra.
  - intros H. destruct c; lra.
Qed.

(** ** The dedup cache: round trip and eviction *)

Section DedupMore.

Context {T : Type}.

Let Cache := Dedup.DedupCache T.

Lemma mapGet_mapSet_other (mp : list (string * Dedup.CacheEntry T)) key key' v :
  key <> key' -> Dedup.mapGet (Dedup.mapSet mp key v) key' = Dedup.mapGet mp key'.
Proof.
  intros Hne. unfold Dedup.mapGet.
  induction mp as [| [k0 v0] r IH]; simpl.
  - destruct (String.eqb_spec key key'); [contradiction | reflexivity].
  - destruct (String.eqb_spec k0 key) as [-> | Hk]; simpl.
    + destruct (String.eqb_spec key key'); [contradiction | reflexivity].
    + destruct (String.eqb k0 key'); [reflexivity | exact IH].
Qed.

Lemma mapSet_keys_In (mp : list (string * Dedup.CacheEntry T)) key v k :
  In k (map fst (Dedup.mapSet mp key v)) <-> k = key \/ In k (map fst mp).
Proof.
  induction mp as [| [k0 v0] r IH]; simpl.
  - intuition.
  - destruct (String.eqb_spec k0 key) as [-> | Hk]; simpl; [intuition|].
    rewrite IH. intuition.
Qed.

Lemma mapSet_unique (mp : list (string * Dedup.CacheEntry T)) key v :
  NoDup (map fst mp) -> NoDup (map fst (Dedup.mapSet mp key v)).
Proof.
  induction mp as [| [k0 v0] r IH]; simpl; intros Hnd.
  - constructor; [intros [] | constructor].
  - inversion Hnd as [| ? ? Hnotin Hnd']; subst.
    destruct (String.eqb_spec k0 key) as [-> | Hk]; simpl.
    + constructor; assumption.
    + constructor; [|apply IH, Hnd'].
      rewrite mapSet_keys_In. intros [-> | Hin]; [congruence | contradiction].
Qed.

Lemma filter_keys_unique (f : string * Dedup.CacheEntry T -> bool) (mp : list (string * Dedup.CacheEntry T)) :
  NoDup (map fst mp) -> NoDup (map fst (filter f mp)).
Proof.
  induction mp as [| kv r IH]; simpl; intros Hnd; [constructor|].
  inversion Hnd as [| ? ? Hnotin Hnd']; subst.
  destruct (f kv); simpl; [|apply IH, Hnd'].
  constructor; [|apply IH, Hnd'].
  intros Hin. apply Hnotin. apply in_map_iff in Hin. destruct Hin as [x [Hx Hin]].
  apply filter_In in Hin. apply in_map_iff. exists x. tauto.
Qed.

Lemma mapGet_In (mp : list (string * Dedup.CacheEntry T)) key e :
  Dedup.mapGet mp key = Some e -> In (key, e) mp.
Proof.
  unfold Dedup.mapGet.
  destruct (find (fun kv : string * Dedup.CacheEntry T => String.eqb (fst kv) key) mp) as [[k v] |] eqn:Hf;
    simpl; [|discriminate].
  intros [= <-]. apply find_some in Hf. destruct Hf as [Hin Hk].
  apply String.eqb_eq in Hk. simpl in Hk. subst. exact Hin.
Qed.

Lemma mapGet_unique (mp : list (string * Dedup.CacheEntry T)) key e :
  NoDup (map fst mp) -> In (key, e) mp -> Dedup.mapGet mp key = Some e.
Proof.
  unfold Dedup.mapGet. induction mp as [| [k0 v0] r IH]; simpl; intros Hnd Hin; [contradiction|].
  inversion Hnd as [| ? ? Hnotin Hnd']; subst.
  destruct Hin as [[= -> ->] | Hin].
  - rewrite String.eqb_refl. reflexivity.
  - destruct (String.eqb_spec k0 key) as [-> | Hk].
    + exfalso. apply Hnotin. apply in_map_iff. exists (key, e). auto.
    + apply IH; assumption.
Qed.

Lemma mapGet_None_keys (mp : list (string * Dedup.CacheEntry T)) key :
  Dedup.mapGet mp key = None <-> ~ In key (map fst mp).
Proof.
  unfold Dedup.mapGet. induction mp as [| [k0 v0] r IH]; simpl.
  - tauto.
  - destruct (String.eqb_spec k0 key) as [-> | Hk].
    + split; [discriminate | intros H; exfalso; apply H; auto].
    + rewrite IH. split; [intros H [E | Hin]; [contradiction | auto] | intros H Hin; auto].
Qed.

(** What [get] answers, from the entry of the key. *)
Lemma get_fst nowMs (c : Cache) key :
  fst (Dedup.get nowMs c key)
  = match Dedup.mapGet (Dedup.entries c) key with
    | Some e => if Dedup.expires e <? nowMs then None else Some (Dedup.result e)
    | None => None
    end.
Proof.
  unfold Dedup.get. destruct (Dedup.mapGet _ _) as [e |]; [|reflexivity].
  destruct (_ <? _); reflexivity.
Qed.

Lemma set_entries_below nowMs (c : Cache) key r :
  Dedup.mapSize c < Dedup.maxSize c ->
  Dedup.entries (Dedup.set nowMs c key r)
  = Dedup.mapSet (Dedup.entries c) key (Dedup.mkCacheEntry r (nowMs + Dedup.ttlMs c)).
Proof.
  intros Hroom. unfold Dedup.set.
  destruct (Z.leb_spec (Dedup.maxSize c) (Dedup.mapSize c)) as [Hfull | _]; [lia|].
  destruct (Z.leb_spec (Dedup.maxSize c) (Dedup.mapSize c)) as [Hfull | _]; [lia|].
  reflexivity.
Qed.

(** X7: a value that was [set] is returned by [get] up to its expiry
    ([now <= set time + ttlMs], whatever was evicted to make room) and is gone
    after it, when [get] also deletes the entry; below capacity, [set] does
    not change what [get] answers for the other keys. *)
Theorem set_then_get nowMs now' (c : Cache) key (r : T) :
  (now' <= nowMs + Dedup.ttlMs c ->
     Dedup.get now' (Dedup.set nowMs c key r) key = (Some r, Dedup.set nowMs c key r))
  /\ (nowMs + Dedup.ttlMs c < now' ->
      fst (Dedup.get now' (Dedup.set nowMs c key r) key) = None
      /\ Dedup.mapGet (Dedup.entries (snd (Dedup.get now' (Dedup.set nowMs c key r) key))) key
         = None)
  /\ (Dedup.mapSize c < Dedup.maxSize c ->
      forall key', key' <> key ->
        fst (Dedup.get now' (Dedup.set nowMs c key r) key') = fst (Dedup.get now' c key')).
Proof.
  assert (Hget : Dedup.mapGet (Dedup.entries (Dedup.set nowMs c key r)) key
                 = Some (Dedup.mkCacheEntry r (nowMs + Dedup.ttlMs c))).
  { unfold Dedup.set. cbn [Dedup.entries Dedup.withEntries].
    rewrite mapGet_mapSet_same.
    match goal with
    | |- Some (Dedup.mkCacheEntry r (nowMs + Dedup.ttlMs ?c2)) = _ =>
        assert (Httl : Dedup.ttlMs c2 = Dedup.ttlMs c)
    end.
    { destruct (Dedup.maxSize c <=? Dedup.mapSize c);
        match goal with |- context [if ?b then _ else _] => destruct b end; reflexivity. }
    rewrite Httl. reflexivity. }
  split; [|split].
  - intros Hle. unfold Dedup.get at 1. rewrite Hget. cbn [Dedup.expires Dedup.result].
    destruct (Z.ltb_spec (nowMs + Dedup.ttlMs c) now'); [lia | reflexivity].
  - intros Hlt. unfold Dedup.get. rewrite Hget. cbn [Dedup.expires Dedup.result].
    destruct (Z.ltb_spec (nowMs + Dedup.ttlMs c) now'); [|lia].
    cbn [fst snd Dedup.entries Dedup.withEntries]. split; [reflexivity|].
    rewrite mapGet_mapDelete, String.eqb_refl. reflexivity.
  - intros Hroom key' Hne. rewrite !get_fst, set_entries_below by exact Hroom.
    rewrite mapGet_mapSet_other by congruence. reflexivity.
Qed.

(** X12: at capacity with no expired entry, [set] of a key other than the
    oldest one evicts the entry that was inserted first, and only that one:
    the oldest key is gone, and [get] answers for every other key as before. *)
Theorem set_evicts_oldest nowMs now' (c : Cache) key (r : T) k0 e0 rest :
  UniqueKeys c ->
  Dedup.entries c = (k0, e0) :: rest ->
  Dedup.maxSize c <= Dedup.mapSize c ->
  liveAt nowMs c ->
  key <> k0 ->
  Dedup.entries (Dedup.set nowMs c key r)
  = Dedup.mapSet rest key (Dedup.mkCacheEntry r (nowMs + Dedup.ttlMs c))
  /\ fst (Dedup.get now' (Dedup.set nowMs c key r) k0) = None
  /\ (forall key', key' <> key -> key' <> k0 ->
        fst (Dedup.get now' (Dedup.set nowMs c key r) key') = fst (Dedup.get now' c key')).
Proof.
  intros Huniq Hent Hfull Hlive Hne.
  assert (Hkeep : filter (fun kv : string * Dedup.CacheEntry T => negb (Dedup.expires (snd kv) <? nowMs))
                    (Dedup.entries c) = Dedup.entries c).
  { unfold liveAt in Hlive. clear - Hlive.
    induction (Dedup.entries c) as [| kv l IH]; [reflexivity|].
    inversion Hlive as [| ? ? Hkv Hl]; subst. simpl.
    destruct (Z.ltb_spec (Dedup.expires (snd kv)) nowMs); [lia|]. simpl. f_equal. apply IH, Hl. }
  assert (Hset : Dedup.entries (Dedup.set nowMs c key r)
                 = Dedup.mapSet rest key (Dedup.mkCacheEntry r (nowMs + Dedup.ttlMs c))).
  { unfold Dedup.set.
    destruct (Z.leb_spec (Dedup.maxSize c) (Dedup.mapSize c)) as [_ | Hroom]; [|lia].
    unfold Dedup.evictExpired. rewrite Hkeep.
    set (c1 := Dedup.withEntries c (Dedup.entries c)).
    assert (Hsz : Dedup.mapSize c1 = Dedup.mapSize c) by reflexivity.
    assert (Hmx : Dedup.maxSize c1 = Dedup.maxSize c) by reflexivity.
    destruct (Z.leb_spec (Dedup.maxSize c1) (Dedup.mapSize c1)) as [_ | Hroom]; [|lia].
    unfold c1. cbn [Dedup.evictOldest Dedup.entries Dedup.withEntries Dedup.ttlMs].
    rewrite Hent. reflexivity. }
  unfold UniqueKeys in Huniq. rewrite Hent in Huniq. simpl in Huniq.
  inversion Huniq as [| ? ? Hnotin Hnd]; subst.
  split; [exact Hset | split].
  - rewrite get_fst, Hset.
    rewrite mapGet_mapSet_other by exact Hne.
    apply mapGet_None_keys in Hnotin. rewrite Hnotin. reflexivity.
  - intros key' Hk Hk0. rewrite !get_fst, Hset, Hent.
    rewrite mapGet_mapSet_other by congruence.
    unfold Dedup.mapGet at 2. simpl.
    destruct (String.eqb_spec k0 key'); [congruence | reflexivity].
Qed.

(** X13: an expired entry is evicted before any live one: when a cache
    within its capacity holds an expired entry, [set] (at capacity or not)
    keeps the keys unique and does not change what [get] answers, at any later
    time, for the keys other than the one set. *)
Theorem set_prefers_expired nowMs now' (c : Cache) key (r : T) kx ex :
  UniqueKeys c ->
  Dedup.mapSize c <= Dedup.maxSize c ->
  In (kx, ex) (Dedup.entries c) ->
  Dedup.expires ex < nowMs ->
  nowMs <= now' ->
  UniqueKeys (Dedup.set nowMs c key r)
  /\ (forall key', key' <> key ->
        fst (Dedup.get now' (Dedup.set nowMs c key r) key') = fst (Dedup.get now' c key')).
Proof.
  intros Huniq Hsize Hin Hexp Hnow.
  set (live := fun kv : string * Dedup.CacheEntry T => negb (Dedup.expires (snd kv) <? nowMs)).
  assert (Hshrink : (List.length (filter live (Dedup.entries c))
                     < List.length (Dedup.entries c))%nat).
  { clear - Hin Hexp. induction (Dedup.entries c) as [| kv l IH]; [contradiction|].
    simpl. destruct Hin as [-> | Hin].
    - unfold live at 1. cbn [snd]. destruct (Z.ltb_spec (Dedup.expires ex) nowMs); [|lia].
      cbn [negb]. pose proof (filter_length_le live l). lia.
    - specialize (IH Hin). destruct (live kv); simpl; lia. }
  assert (Hent : Dedup.entries (Dedup.set nowMs c key r)
                 = Dedup.mapSet
                     (if Dedup.maxSize c <=? Dedup.mapSize c
                      then filter live (Dedup.entries c) else Dedup.entries c)
                     key (Dedup.mkCacheEntry r (nowMs + Dedup.ttlMs c))).
  { unfold Dedup.set.
    destruct (Z.leb_spec (Dedup.maxSize c) (Dedup.mapSize c)) as [Hfull | Hroom].
    - unfold Dedup.evictExpired. fold live.
      set (c1 := Dedup.withEntries c (filter live (Dedup.entries c))).
      assert (Hsz : Dedup.mapSize c1
                    = Z.of_nat (List.length (filter live (Dedup.entries c)))) by reflexivity.
      assert (Hmx : Dedup.maxSize c1 = Dedup.maxSize c) by reflexivity.
      unfold Dedup.mapSize in Hsize, Hfull.
      destruct (Z.leb_spec (Dedup.maxSize c1) (Dedup.mapSize c1)); [lia|].
      reflexivity.
    - destruct (Z.leb_spec (Dedup.maxSize c) (Dedup.mapSize c)); [lia | reflexivity]. }
  split.
  - unfold UniqueKeys. rewrite Hent. apply mapSet_unique.
    destruct (_ <=? _); [apply filter_keys_unique|]; exact Huniq.
  - intros key' Hne. rewrite !get_fst, Hent.
    rewrite mapGet_mapSet_other by congruence.
    destruct (Dedup.maxSize c <=? Dedup.mapSize c); [|reflexivity].
    destruct (Dedup.mapGet (Dedup.entries c) key') as [e |] eqn:Hg.
    + destruct (Z.ltb_spec (Dedup.expires e) nowMs) as [Hdead | Hlive].
      * destruct (Z.ltb_spec (Dedup.expires e) now'); [|lia].
        destruct (Dedup.mapGet (filter live (Dedup.entries c)) key') as [e' |] eqn:Hg';
          [|reflexivity].
        apply mapGet_In in Hg'. apply filter_In in Hg'. destruct Hg' as [Hin' _].
        rewrite (mapGet_unique _ _ _ Huniq Hin') in Hg. inversion Hg; subst.
        destruct (Z.ltb_spec (Dedup.expires e) now'); [reflexivity | lia].
      * assert (Hin' : In (key', e) (filter live (Dedup.entries c))).
        { apply filter_In. split; [apply mapGet_In, Hg|].
          unfold live. cbn [snd]. destruct (Z.ltb_spec (Dedup.expires e) nowMs); [lia|].
          reflexivity. }
        rewrite (mapGet_unique _ _ _ (filter_keys_unique live _ Huniq) Hin'). reflexivity.
    + destruct (Dedup.mapGet (filter live (Dedup.entries c)) key') as [e' |] eqn:Hg';
        [|reflexivity].
      apply mapGet_In in Hg'. apply filter_In in Hg'. destruct Hg' as [Hin' _].
      rewrite (mapGet_unique _ _ _ Huniq Hin') in Hg. discriminate.
Qed.

End DedupMore.

Lemma set_evicts_oldest_witness :
  Dedup.entries (Dedup.set 1000 Samples.fullCache "b"%string 2)
  = [("b"%string, Dedup.mkCacheEntry 2 31000)]
  /\ fst (Dedup.get 1000 (Dedup.set 1000 Samples.fullCache "b"%string 2) "a"%string) = None.
Proof.
  destruct (set_evicts_oldest 1000 1000 Samples.fullCache "b"%string 2 "a"%string
              (Dedup.mkCacheEntry 1 30000) []) as [H1 [H2 _]].
  - unfold UniqueKeys. simpl. constructor; [intros [] | constructor].
  - reflexivity.
  - vm_compute. discriminate.
  - unfold liveAt. simpl. constructor; [simpl; lia | constructor].
  - discriminate.
  - split; [exact H1 | exact H2].
Defined.

Lemma set_prefers_expired_witness :
  UniqueKeys (Dedup.set 40000 Samples.fullCache "b"%string 2)
  /\ Dedup.entries (Dedup.set 40000 Samples.fullCache "b"%string 2)
     = [("b"%string, Dedup.mkCacheEntry 2 70000)].
Proof.
  split; [|reflexivity].
  apply (set_prefers_expired 40000 40000 Samples.fullCache "b"%string 2 "a"%string
           (Dedup.mkCacheEntry 1 30000)).
  - unfold UniqueKeys. simpl. constructor; [intros [] | constructor].
  - vm_compute. discriminate.
  - simpl. left. reflexivity.
  - simpl. lia.
  - lia.
Defined.

(** ** Cohorts and neighbours *)

Lemma uniqFrom_NoDup (l : list Id) : forall seen, NoDup (Js.uniqFrom seen l).
Proof.
  induction l as [| x r IH]; intros seen; simpl; [constructor|].
  destruct (existsb (String.eqb x) seen) eqn:E; [apply IH|].
  constructor; [|apply IH].
  rewrite uniqFrom_In. intros [_ Hnot]. apply Hnot. left. reflexivity.
Qed.

Lemma uniq_NoDup (l : list Id) : NoDup (Js.uniq l).
Proof. apply uniqFrom_NoDup. Qed.

Lemma NoDup_firstn {A} (n : nat) (l : list A) : NoDup l -> NoDup (firstn n l).
Proof.
  revert n. induction l as [| x r IH]; intros n Hnd; destruct n; simpl; try constructor.
  - inversion Hnd; subst. intros Hin. apply In_firstn in Hin. contradiction.
  - inversion Hnd; subst. apply IH. assumption.
Qed.

Lemma slice0_NoDup {A} (n : Z) (l : list A) : NoDup l -> NoDup (Js.slice0 n l).
Proof. unfold Js.slice0. destruct (n <? 0); apply NoDup_firstn. Qed.

Lemma slice0_In {A} (n : Z) (l : list A) (x : A) : In x (Js.slice0 n l) -> In x l.
Proof. unfold Js.slice0. destruct (n <? 0); apply In_firstn. Qed.

Lemma slice0_length {A} (n : Z) (l : list A) :
  0 <= n -> Z.of_nat (List.length (Js.slice0 n l)) <= n.
Proof.
  intros Hn. unfold Js.slice0. destruct (Z.ltb_spec n 0); [lia|].
  rewrite length_firstn. lia.
Qed.

Lemma slice0_length_le {A} (n : Z) (l : list A) :
  (List.length (Js.slice0 n l) <= List.length l)%nat.
Proof. unfold Js.slice0. destruct (n <? 0); rewrite length_firstn; lia. Qed.

Lemma uniq_NoDup_id (l : list Id) : NoDup l -> Js.uniq l = l.
Proof.
  unfold Js.uniq. intros Hnd.
  assert (H : forall seen, (forall x, In x l -> ~ In x seen) -> Js.uniqFrom seen l = l).
  { induction l as [| x r IH]; intros seen Hs; simpl; [reflexivity|].
    inversion Hnd as [| ? ? Hx Hr]; subst.
    destruct (existsb (String.eqb x) seen) eqn:E.
    - exfalso. apply (Hs x (or_introl eq_refl)). apply has_true_iff. exact E.
    - f_equal. apply IH; [exact Hr|].
      intros y Hy [<- | Hin]; [contradiction | exact (Hs y (or_intror Hy) Hin)]. }
  apply H. intros x _ [].
Qed.

Lemma pushUnlessExcluded_In ex out i x :
  In x (pushUnlessExcluded ex out i) -> In x out \/ (x = i /\ Pushed ex i).
Proof.
  unfold pushUnlessExcluded, Pushed.
  destruct (String.eqb_spec i ""%string) as [Hi | Hi]; cbn [negb andb]; [auto|].
  destruct (Js.has ex i) eqn:E; cbn [negb]; [auto|].
  apply has_false_iff in E.
  intros Hin. apply in_app_or in Hin. destruct Hin as [Hin | [<- | []]]; auto.
Qed.

(** Whatever the loop appends is a pushed id of one of the two walks. *)
Lemma cohortLoop_In w ex : forall A B out x,
  In x (cohortLoop w ex A B out) ->
  In x out \/ (Pushed ex x /\ (In x A \/ In x B)).
Proof.
  intros A B. pattern A, B. apply cohortLoop_ind. clear A B.
  intros A B IHA IHB out x. rewrite cohortLoop_eq.
  destruct (_ <? w); [|auto].
  destruct A as [| i A'], B as [| j B'].
  - auto.
  - intros H. apply (IHB j B' eq_refl) in H.
    destruct H as [H | [Hp [[] | Hin]]].
    + apply pushUnlessExcluded_In in H. destruct H as [H | [-> Hp]]; [auto|].
      right. split; [exact Hp | right; left; reflexivity].
    + right. split; [exact Hp | right; right; exact Hin].
  - intros H. apply (IHA i A' eq_refl) in H.
    destruct H as [H | [Hp [Hin | []]]].
    + apply pushUnlessExcluded_In in H. destruct H as [H | [-> Hp]]; [auto|].
      right. split; [exact Hp | left; left; reflexivity].
    + right. split; [exact Hp | left; right; exact Hin].
  - destruct (Nat.even _); intros H.
    + apply (IHA i A' eq_refl) in H.
      destruct H as [H | [Hp [Hin | Hin]]].
      * apply pushUnlessExcluded_In in H. destruct H as [H | [-> Hp]]; [auto|].
        right. split; [exact Hp | left; left; reflexivity].
      * right. split; [exact Hp | left; right; exact Hin].
      * right. split; [exact Hp | right; exact Hin].
    + apply (IHB j B' eq_refl) in H.
      destruct H as [H | [Hp [Hin | Hin]]].
      * apply pushUnlessExcluded_In in H. destruct H as [H | [-> Hp]]; [auto|].
        right. split; [exact Hp | right; left; reflexivity].
      * right. split; [exact Hp | left; exact Hin].
      * right. split; [exact Hp | right; right; exact Hin].
Qed.

Lemma neighborsRight_store s c k i :
  In i (neighborsRight s c k) -> exists e, In e s /\ id e = i.
Proof.
  unfold neighborsRight. intros H. apply In_firstn in H.
  apply in_map_iff in H. destruct H as [e [He Hin]].
  exists e. split; [eapply ringRight_In; exact Hin | exact He].
Qed.

Lemma neighborsLeft_store s c k i :
  In i (neighborsLeft s c k) -> exists e, In e s /\ id e = i.
Proof.
  unfold neighborsLeft. intros H. apply In_firstn in H.
  apply in_map_iff in H. destruct H as [e [He Hin]].
  exists e. split; [eapply ringLeft_In; exact Hin | exact He].
Qed.

Lemma assembleCohort_shape_facts s c wants ex :
  NoDup (assembleCohort s c wants ex)
  /\ Z.of_nat (List.length (assembleCohort s c wants ex)) <= Z.max 0 wants
  /\ (forall i, In i (assembleCohort s c wants ex) ->
        i <> ""%string /\ ~ In i ex
        /\ (In i (neighborsRight s c (wants * 2)) \/ In i (neighborsLeft s c (wants * 2)))
        /\ exists e, In e s /\ id e = i).
Proof.
  unfold assembleCohort.
  set (out := cohortLoop wants ex _ _ []).
  split; [apply slice0_NoDup, uniq_NoDup | split].
  - pose proof (slice0_length_le wants (Js.uniq out)) as H1.
    pose proof (uniqFrom_length out []) as H2. fold (Js.uniq out) in H2.
    pose proof (cohortLoop_length wants ex (neighborsRight s c (wants * 2))
                  (neighborsLeft s c (wants * 2)) []) as H3.
    fold out in H3. simpl List.length in H3. lia.
  - intros i Hi. apply slice0_In in Hi. apply (proj1 (uniq_In _ _)) in Hi.
    apply cohortLoop_In in Hi. destruct Hi as [[] | [[Hne Hex] Hwalk]].
    repeat split; try assumption.
    destruct Hwalk as [Hw | Hw];
      [eapply neighborsRight_store | eapply neighborsLeft_store]; exact Hw.
Qed.

(** X14: [assembleCohort] returns at most [wants] ids without duplicates;
    each of them is non-empty, not excluded, taken from the [2 * wants]
    successors or predecessors of the coordinate, and the id of an entry of
    the store. *)
Theorem assembleCohort_shape s c wants ex :
  NoDup (assembleCohort s c wants ex)
  /\ Z.of_nat (List.length (assembleCohort s c wants ex)) <= Z.max 0 wants
  /\ (forall i, In i (assembleCohort s c wants ex) ->
        i <> ""%string /\ ~ In i ex
        /\ (In i (neighborsRight s c (wants * 2)) \/ In i (neighborsLeft s c (wants * 2)))
        /\ exists e, In e s /\ id e = i).
Proof. exact (assembleCohort_shape_facts s c wants ex). Qed.

Lemma getNeighbors_shape_facts s c direction wants :
  NoDup (getNeighbors s c direction wants)
  /\ Z.of_nat (List.length (getNeighbors s c direction wants)) <= Z.max 0 wants
  /\ (forall i, In i (getNeighbors s c direction wants) ->
        ((direction <> left /\ In i (neighborsRight s c wants))
         \/ (direction <> right /\ In i (neighborsLeft s c wants)))
        /\ exists e, In e s /\ id e = i)
  /\ (0 <= wants -> NoDup (neighborsRight s c wants) ->
      List.length (neighborsRight s c wants) = Z.to_nat wants ->
      getNeighbors s c both wants = neighborsRight s c wants
      /\ getNeighbors s c both wants = getNeighbors s c right wants).
Proof.
  unfold getNeighbors.
  split; [apply slice0_NoDup, uniq_NoDup | split; [|split]].
  - destruct (Z.le_gt_cases 0 wants) as [Hw | Hw].
    + rewrite Z.max_r by exact Hw. apply slice0_length. exact Hw.
    + assert (Hr : neighborsRight s c wants = []).
      { unfold neighborsRight. replace (Z.to_nat wants) with 0%nat by lia. reflexivity. }
      assert (Hl : neighborsLeft s c wants = []).
      { unfold neighborsLeft. replace (Z.to_nat wants) with 0%nat by lia. reflexivity. }
      rewrite Hr, Hl. destruct direction; unfold Js.slice0; destruct (wants <? 0); simpl;
        rewrite ?firstn_nil; simpl; lia.
  - intros i Hi. apply slice0_In in Hi. apply (proj1 (uniq_In _ _)) in Hi. apply in_app_or in Hi.
    destruct direction; destruct Hi as [Hi | Hi]; try contradiction.
    + split; [right; split; [discriminate | exact Hi] | eapply neighborsLeft_store; exact Hi].
    + split; [left; split; [discriminate | exact Hi] | eapply neighborsRight_store; exact Hi].
    + split; [left; split; [discriminate | exact Hi] | eapply neighborsRight_store; exact Hi].
    + split; [right; split; [discriminate | exact Hi] | eapply neighborsLeft_store; exact Hi].
  - intros Hw Hnd Hlen.
    assert (Hboth : Js.slice0 wants (Js.uniq (neighborsRight s c wants ++ neighborsLeft s c wants))
                    = neighborsRight s c wants).
    { destruct (uniqFrom_app (neighborsRight s c wants) (neighborsLeft s c wants) [])
        as [seen' Happ].
      unfold Js.uniq. rewrite Happ. fold (Js.uniq (neighborsRight s c wants)).
      rewrite (uniq_NoDup_id _ Hnd).
      unfold Js.slice0. destruct (Z.ltb_spec wants 0); [lia|].
      rewrite <- Hlen. rewrite firstn_app, Nat.sub_diag, firstn_all. simpl.
      apply app_nil_r. }
    split; [exact Hboth|]. rewrite Hboth. rewrite app_nil_r.
    rewrite (uniq_NoDup_id _ Hnd). symmetry. apply slice0_short. lia.
Qed.

(** X15: [getNeighbors] returns at most [wants] ids of store entries,
    without duplicates, from the successors (right, both) or the predecessors
    (left, both) of the coordinate; and for [both], when the store gives
    [wants] distinct successors, the result is exactly these successors: no
    predecessor is returned. *)
Theorem getNeighbors_shape s c direction wants :
  NoDup (getNeighbors s c direction wants)
  /\ Z.of_nat (List.length (getNeighbors s c direction wants)) <= Z.max 0 wants
  /\ (forall i, In i (getNeighbors s c direction wants) ->
        ((direction <> left /\ In i (neighborsRight s c wants))
         \/ (direction <> right /\ In i (neighborsLeft s c wants)))
        /\ exists e, In e s /\ id e = i)
  /\ (0 <= wants -> NoDup (neighborsRight s c wants) ->
      List.length (neighborsRight s c wants) = Z.to_nat wants ->
      getNeighbors s c both wants = neighborsRight s c wants
      /\ getNeighbors s c both wants = getNeighbors s c right wants).
Proof. exact (getNeighbors_shape_facts s c direction wants). Qed.

Lemma expandCohort_shape_facts s current c step ex :
  IsPrefix (Js.uniq current) (expandCohort s current c step ex)
  /\ NoDup (expandCohort s current c step ex)
  /\ (forall i, In i (expandCohort s current c step ex) <->
        In i current
        \/ In i (assembleCohort s c (Z.of_nat (List.length current) + step) ex))
  /\ (forall i, In i (expandCohort s current c step ex) -> ~ In i current ->
        i <> ""%string /\ ~ In i ex /\ exists e, In e s /\ id e = i)
  /\ Z.of_nat (List.length (expandCohort s current c step ex))
     <= Z.of_nat (List.length current)
        + Z.max 0 (Z.of_nat (List.length current) + step).
Proof.
  unfold expandCohort.
  set (next := assembleCohort s c (Z.of_nat (List.length current) + step) ex).
  destruct (assembleCohort_shape_facts s c (Z.of_nat (List.length current) + step) ex)
    as [_ [Hlen Hmem]]. fold next in Hlen, Hmem.
  split; [apply uniq_prefix, IsPrefix_app|].
  split; [apply uniq_NoDup|].
  split; [intros i; rewrite uniq_In, in_app_iff; tauto|].
  split.
  - intros i Hi Hnot. apply (proj1 (uniq_In _ _)) in Hi. apply in_app_or in Hi.
    destruct Hi as [Hi | Hi]; [contradiction|].
    destruct (Hmem i Hi) as [H1 [H2 [_ H3]]]. auto.
  - unfold Js.uniq. pose proof (uniqFrom_length (current ++ next) []) as H.
    rewrite length_app in H. lia.
Qed.

(** X16: [expandCohort] keeps the ids of [current], in their order, as a
    prefix of its result, has no duplicates, adds exactly the members of the
    cohort of size [current.length + step], and what it adds is non-empty, not
    excluded and in the store. *)
Theorem expandCohort_shape s current c step ex :
  IsPrefix (Js.uniq current) (expandCohort s current c step ex)
  /\ NoDup (expandCohort s current c step ex)
  /\ (forall i, In i (expandCohort s current c step ex) <->
        In i current
        \/ In i (assembleCohort s c (Z.of_nat (List.length current) + step) ex))
  /\ (forall i, In i (expandCohort s current c step ex) -> ~ In i current ->
        i <> ""%string /\ ~ In i ex /\ exists e, In e s /\ id e = i)
  /\ Z.of_nat (List.length (expandCohort s current c step ex))
     <= Z.of_nat (List.length current)
        + Z.max 0 (Z.of_nat (List.length current) + step).
Proof. exact (expandCohort_shape_facts s current c step ex). Qed.

(** ** Backoff *)

Lemma backoffGet_set_same mp i b : backoffGet (backoffSet mp i b) i = Some b.
Proof.
  unfold backoffGet. induction mp as [| [i0 b0] r IH]; simpl.
  - rewrite String.eqb_refl. reflexivity.
  - destruct (String.eqb_spec i0 i) as [-> | Hne]; simpl.
    + rewrite String.eqb_refl. reflexivity.
    + destruct (String.eqb_spec i0 i); [contradiction | exact IH].
Qed.

Lemma backoffGet_set_other mp i j b : i <> j -> backoffGet (backoffSet mp i b) j = backoffGet mp j.
Proof.
  intros Hne. unfold backoffGet. induction mp as [| [i0 b0] r IH]; simpl.
  - destruct (String.eqb_spec i j); [contradiction | reflexivity].
  - destruct (String.eqb_spec i0 i) as [-> | Hk]; simpl.
    + destruct (String.eqb_spec i j); [contradiction | reflexivity].
    + destruct (String.eqb i0 j); [reflexivity | exact IH].
Qed.

Lemma backoffGet_delete mp i j :
  backoffGet (backoffDelete mp i) j = if String.eqb i j then None else backoffGet mp j.
Proof.
  unfold backoffGet, backoffDelete. induction mp as [| [i0 b0] r IH]; simpl.
  - destruct (String.eqb i j); reflexivity.
  - destruct (String.eqb_spec i0 i) as [-> | Hk]; simpl.
    + rewrite IH. destruct (String.eqb i j); reflexivity.
    + destruct (String.eqb_spec i0 j) as [-> | Hj]; simpl.
      * destruct (String.eqb_spec i j); [congruence | reflexivity].
      * exact IH.
Qed.

Lemma recordBackoff_other nowMs mp i j :
  i <> j -> backoffGet (recordBackoff nowMs mp i) j = backoffGet mp j.
Proof. intros Hne. unfold recordBackoff. apply backoffGet_set_other. exact Hne. Qed.

Lemma recordBackoffs_other times : forall mp i j,
  i <> j -> backoffGet (recordBackoffs times mp i) j = backoffGet mp j.
Proof.
  unfold recordBackoffs. induction times as [| t r IH]; intros mp i j Hne; simpl; [reflexivity|].
  rewrite IH by exact Hne. apply recordBackoff_other. exact Hne.
Qed.

Lemma recordBackoffs_snoc times t mp i :
  recordBackoffs (times ++ [t]) mp i = recordBackoff t (recordBackoffs times mp i) i.
Proof. unfold recordBackoffs. rewrite fold_left_app. reflexivity. Qed.

(** After [n >= 1] consecutive failures of a peer without an entry, recorded
    at [times], the factor is [min (2^(n-1)) 32] and the peer is backed off
    for [1000 * factor] ms from the last failure. *)
Lemma recordBackoffs_factor times : forall t mp i,
  backoffGet mp i = None ->
  backoffGet (recordBackoffs (times ++ [t]) mp i) i
  = Some (mkBackoff (t + 1000 * Z.min (2 ^ Z.of_nat (List.length times)) 32)
            (Z.min (2 ^ Z.of_nat (List.length times)) 32)).
Proof.
  induction times as [| t0 r IH] using rev_ind; intros t mp i Hnone.
  - simpl. unfold recordBackoffs. simpl. unfold recordBackoff. rewrite Hnone.
    apply backoffGet_set_same.
  - rewrite recordBackoffs_snoc. unfold recordBackoff at 1.
    rewrite (IH t0 mp i Hnone). cbn [factor].
    rewrite backoffGet_set_same. rewrite length_app. simpl List.length.
    replace (Z.of_nat (List.length r + 1)) with (Z.of_nat (List.length r) + 1) by lia.
    rewrite Z.pow_add_r by lia. change (2 ^ 1) with 2.
    assert (Hpos : 0 < 2 ^ Z.of_nat (List.length r)) by (apply Z.pow_pos_nonneg; lia).
    assert (Hf : Z.min (Z.min (2 ^ Z.of_nat (List.length r)) 32 * 2) 32
                 = Z.min (2 ^ Z.of_nat (List.length r) * 2) 32) by lia.
    rewrite Hf. reflexivity.
Qed.

(** X17: after [n >= 1] consecutive failures of a peer that had no backoff
    entry, the last one at time [t], the factor is [min (2^(n-1)) 32] and the
    backoff lasts until [t + 1000 * factor] ms; up to that time the penalty is
    [factor / 32], between 1/32 and 1, and after it the penalty is 0 and the
    entry is deleted by the lookup; other peers are not affected. *)
Theorem backoff_escalates times t mp i j now' :
  backoffGet mp i = None ->
  let n := S (List.length times) in
  let f := Z.min (2 ^ (Z.of_nat n - 1)) 32 in
  let mp' := recordBackoffs (times ++ [t]) mp i in
  backoffGet mp' i = Some (mkBackoff (t + 1000 * f) f)
  /\ 1 <= f <= 32
  /\ (now' <= t + 1000 * f ->
      (getBackoffPenalty now' mp' i == inject_Z f / 32)%Q
      /\ (1 # 32 <= getBackoffPenalty now' mp' i <= 1)%Q)
  /\ (t + 1000 * f < now' ->
      getBackoffPenalty now' mp' i = 0%Q
      /\ backoffGet (backoffAfterPenalty now' mp' i) i = None)
  /\ (i <> j -> getBackoffPenalty now' mp' j = getBackoffPenalty now' mp j).
Proof.
  intros Hnone n f mp'.
  assert (Hn : Z.of_nat n - 1 = Z.of_nat (List.length times)) by (unfold n; lia).
  assert (Hget : backoffGet mp' i = Some (mkBackoff (t + 1000 * f) f)).
  { unfold mp', f. rewrite Hn. apply recordBackoffs_factor. exact Hnone. }
  assert (Hf : 1 <= f <= 32).
  { unfold f. rewrite Hn.
    assert (0 < 2 ^ Z.of_nat (List.length times)) by (apply Z.pow_pos_nonneg; lia). lia. }
  split; [exact Hget | split; [exact Hf | split; [|split]]].
  - intros Hle. unfold getBackoffPenalty. rewrite Hget. cbn [until factor].
    destruct (Z.ltb_spec (t + 1000 * f) now'); [lia|].
    assert (Hq : (inject_Z f / 32 <= 1)%Q).
    { apply Qle_shift_div_r; [reflexivity|]. rewrite Qmult_1_l.
      change 32%Q with (inject_Z 32). rewrite <- Zle_Qle. lia. }
    assert (Hq' : (1 # 32 <= inject_Z f / 32)%Q).
    { apply Qle_shift_div_l; [reflexivity|].
      setoid_replace ((1 # 32) * 32)%Q with (inject_Z 1) by reflexivity.
      rewrite <- Zle_Qle. lia. }
    unfold qmin. destruct (Qle_bool 1 (inject_Z f / 32)) eqn:E.
    + apply Qle_bool_iff in E.
      assert (Heq : (inject_Z f / 32 == 1)%Q) by (apply Qle_antisym; assumption).
      split; [symmetry; exact Heq | split; [discriminate | apply Qle_refl]].
    + split; [reflexivity | split; assumption].
  - intros Hlt. unfold getBackoffPenalty, backoffAfterPenalty. rewrite Hget. cbn [until].
    destruct (Z.ltb_spec (t + 1000 * f) now'); [|lia].
    split; [reflexivity|]. rewrite backoffGet_delete, String.eqb_refl. reflexivity.
  - intros Hne. unfold getBackoffPenalty, mp'.
    rewrite recordBackoffs_other by exact Hne. reflexivity.
Qed.

Lemma backoff_escalates_witness :
  backoffGet (recordBackoffs [0; 1000; 5000] [] "p"%string) "p"%string
  = Some (mkBackoff 9000 4)
  /\ Qeq (getBackoffPenalty 6000 (recordBackoffs [0; 1000; 5000] [] "p"%string) "p"%string)
       (4 # 32).
Proof.
  destruct (backoff_escalates [0; 1000] 5000 [] "p"%string "q"%string 6000 eq_refl)
    as [H1 [_ [H2 _]]].
  split; [exact H1|].
  destruct (H2 ltac:(simpl; lia)) as [H3 _]. exact H3.
Defined.

(** [clearBackoff] forgets the peer: no penalty, and the next failure starts
    again at factor 1.  An expired entry is forgotten only by
    [getBackoffPenalty]; [recordBackoff] doubles it whatever its age. *)
Lemma backoff_forgets nowMs t mp i j bo :
  getBackoffPenalty nowMs (clearBackoff mp i) i = 0%Q
  /\ backoffGet (recordBackoff t (clearBackoff mp i) i) i = Some (mkBackoff (t + 1000) 1)
  /\ (i <> j -> getBackoffPenalty nowMs (clearBackoff mp i) j = getBackoffPenalty nowMs mp j)
  /\ (backoffGet mp i = Some bo ->
      backoffGet (recordBackoff t mp i) i
      = Some (mkBackoff (t + 1000 * Z.min (factor bo * 2) 32) (Z.min (factor bo * 2) 32)))
  /\ (backoffGet mp i = Some bo -> until bo < nowMs ->
      backoffGet (recordBackoff t (backoffAfterPenalty nowMs mp i) i) i
      = Some (mkBackoff (t + 1000) 1)).
Proof.
  assert (Hclear : backoffGet (clearBackoff mp i) i = None).
  { unfold clearBackoff. rewrite backoffGet_delete, String.eqb_refl. reflexivity. }
  split; [|split; [|split; [|split]]].
  - unfold getBackoffPenalty. rewrite Hclear. reflexivity.
  - unfold recordBackoff. rewrite Hclear, backoffGet_set_same. reflexivity.
  - intros Hne. unfold getBackoffPenalty, clearBackoff. rewrite backoffGet_delete.
    destruct (String.eqb_spec i j); [contradiction | reflexivity].
  - intros Hget. unfold recordBackoff. rewrite Hget, backoffGet_set_same. reflexivity.
  - intros Hget Hexp. unfold backoffAfterPenalty. rewrite Hget.
    destruct (Z.ltb_spec (until bo) nowMs); [|lia].
    unfold recordBackoff. rewrite backoffGet_delete, String.eqb_refl, backoffGet_set_same.
    reflexivity.
Qed.

(** ** The guards of [handleMaybeAct] *)

(** What [routeAct] leaves alone, and how it counts its forwards. *)
Lemma routeAct_frame env cfg st msg :
  let st' := snd (routeAct env cfg st msg) in
  let fw := snd (fst (routeAct env cfg st msg)) in
  inflightAct st' = inflightAct st
  /\ networkObservations st' = networkObservations st
  /\ rejected (diag st') = rejected (diag st)
  /\ maybeActForwarded (diag st') = maybeActForwarded (diag st) + Z.of_nat (List.length fw)
  /\ (List.length fw <= 1)%nat.
Proof.
  cbv zeta. unfold routeAct, selfCoord.
  destruct (cachedSelfCoord st) as [c |];
    destruct (estimateSizeAndConfidence env _ _) as [n conf];
    (destruct (match neighborDistance _ _ _ _ with Some i => Nat.leb i 1 | None => false end);
     [ destruct (activityOf msg); [destruct (activityHandler env) as [h |];
         [destruct (h _ _ _ _)|]|]; cbn; repeat split; lia
     | destruct (0 <? ttl msg); [|cbn; repeat split; lia];
       destruct (truthyIds _); [cbn; repeat split; lia|];
       destruct (sendMaybeAct env _ _); cbn; repeat split; lia ]).
Qed.

(** X18: [handleMaybeAct] leaves the in-flight counter as it found it
    (incremented and decremented around routing) and the observations
    untouched, forwards at most one copy, adds the number of forwards to
    [maybeActForwarded], and bumps exactly the rejection counter of the path it
    took; on a rejection or a busy answer it forwards nothing and changes
    neither the store, the backoff map nor the cached coordinate. *)
Theorem handleMaybeAct_accounting env cfg st msg :
  let h := handleMaybeAct env cfg st msg in
  inflightAct (after h) = inflightAct st
  /\ networkObservations (after h) = networkObservations st
  /\ (List.length (forwards h) <= 1)%nat
  /\ maybeActForwarded (diag (after h))
     = maybeActForwarded (diag st) + Z.of_nat (List.length (forwards h))
  /\ match path h with
     | BreadcrumbLoop => after h = st
     | DedupHit => rejected (diag (after h)) = rejected (diag st)
     | StaleTimestamp =>
         rejected (diag (after h)) = rejected (bumpTimestampBounds (diag st))
     | TtlExpired => rejected (diag (after h)) = rejected (bumpTtlExpired (diag st))
     | OversizedActivity =>
         rejected (diag (after h)) = rejected (bumpPayloadTooLarge (diag st))
     | RateLimited | InflightCap =>
         rejected (diag (after h)) = rejected (bumpRateLimited (diag st))
     | Routed | RouteFailed => rejected (diag (after h)) = rejected (diag st)
     end
  /\ (isRejection (path h) = true ->
      forwards h = []
      /\ store (after h) = store st
      /\ backoffMap (after h) = backoffMap st
      /\ cachedSelfCoord (after h) = cachedSelfCoord st).
Proof.
  cbv zeta. unfold handleMaybeAct.
  destruct (Js.has (breadcrumbsOf msg) (selfId env)).
  { cbn. repeat split; lia. }
  assert (Hlk : let st1 := snd (dedupLookup env st msg) in
                inflightAct st1 = inflightAct st
                /\ networkObservations st1 = networkObservations st
                /\ diag st1 = diag st /\ store st1 = store st
                /\ backoffMap st1 = backoffMap st
                /\ cachedSelfCoord st1 = cachedSelfCoord st).
  { unfold dedupLookup. destruct (String.eqb _ _); [cbn; auto 6|].
    destruct (Dedup.get _ _ _); cbn; auto 6. }
  destruct (dedupLookup env st msg) as [cached st1]. cbn [snd] in Hlk.
  destruct Hlk as [Hi [Ho [Hd [Hs [Hb Hc]]]]].
  destruct cached as [c |].
  { cbn. rewrite Hd, Hi, Ho. repeat split; try lia; congruence. }
  destruct (negb (validateTimestamp _ _)).
  { cbn. rewrite Hd, Hi, Ho. repeat split; try lia; congruence. }
  destruct (ttl msg <=? 0).
  { cbn. rewrite Hd, Hi, Ho. repeat split; try lia; congruence. }
  destruct (activityTooLarge msg).
  { cbn. rewrite Hd, Hi, Ho. repeat split; try lia; congruence. }
  destruct (negb (bucketMaybeAct_tryTake env)).
  { cbn. rewrite Hd, Hi, Ho. repeat split; try lia; congruence. }
  destruct (_ <=? inflightAct st1).
  { cbn. rewrite Hd, Hi, Ho. repeat split; try lia; congruence. }
  pose proof (routeAct_frame env cfg (withInflight st1 (inflightAct st1 + 1)) msg) as Hf.
  cbv zeta in Hf.
  destruct (routeAct env cfg _ msg) as [[out fw] st2]. cbn [fst snd] in Hf.
  cbn [withInflight inflightAct networkObservations diag] in Hf.
  destruct Hf as [Hfi [Hfo [Hfr [Hff Hfl]]]].
  destruct out as [result |].
  - destruct (String.eqb (correlation_id msg) ""); cbn;
      rewrite ?Hfi, ?Hfo, ?Hfr, ?Hff, <- ?Hd, ?Hi, ?Ho;
      repeat split; try lia; try congruence; discriminate.
  - cbn. rewrite ?Hfi, ?Hfo, ?Hfr, ?Hff, <- ?Hd, ?Hi, ?Ho.
    repeat split; try lia; try congruence; discriminate.
Qed.

(** X19: [handleMaybeAct] hands a copy to the transport only for a message
    that passed every guard: this peer is not in its breadcrumbs, its
    correlation id is not served from the dedup cache, its timestamp is within
    bounds, its TTL is positive, its activity is not oversized, the token
    bucket gave a token and the in-flight counter was below the limit of the
    profile (16 for core, 4 for edge). *)
Theorem handleMaybeAct_forwards_only_valid env cfg st msg :
  forwards (handleMaybeAct env cfg st msg) <> [] ->
  ~ In (selfId env) (breadcrumbsOf msg)
  /\ (correlation_id msg <> ""%string ->
      fst (Dedup.get (now env) (dedupCache st) (correlation_id msg)) = None)
  /\ validateTimestamp (now env) (timestamp msg) = true
  /\ 0 < ttl msg
  /\ activityTooLarge msg = false
  /\ bucketMaybeAct_tryTake env = true
  /\ inflightAct st < inflightLimit cfg.
Proof.
  unfold handleMaybeAct, inflightLimit.
  destruct (Js.has (breadcrumbsOf msg) (selfId env)) eqn:Hloop; [cbn; congruence|].
  apply has_false_iff in Hloop.
  pose proof (dedupLookup_result env st msg) as Hres.
  assert (Hi : inflightAct (snd (dedupLookup env st msg)) = inflightAct st).
  { unfold dedupLookup. destruct (String.eqb _ _); [reflexivity|].
    destruct (Dedup.get _ _ _); reflexivity. }
  destruct (dedupLookup env st msg) as [cached st1]. cbn [fst snd] in Hres, Hi.
  destruct cached as [c |]; [cbn; congruence|].
  destruct (validateTimestamp _ _); cbn [negb]; [|cbn; congruence].
  destruct (Z.leb_spec (ttl msg) 0); [cbn; congruence|].
  destruct (activityTooLarge msg); [cbn; congruence|].
  destruct (bucketMaybeAct_tryTake env); cbn [negb]; [|cbn; congruence].
  destruct (Z.leb_spec (match profile cfg with core => 16 | edge => 4 end) (inflightAct st1));
    [cbn; congruence|].
  intros _. repeat split; try assumption; try lia.
  intros Hne. apply String.eqb_neq in Hne. rewrite Hne in Hres. congruence.
Qed.

Lemma handleMaybeAct_forwards_only_valid_witness :
  validateTimestamp (now Samples.envFar) 1000000 = true
  /\ inflightAct Samples.stateFar < inflightLimit Samples.cfg0.
Proof.
  destruct (handleMaybeAct_forwards_only_valid Samples.envFar Samples.cfg0 Samples.stateFar
              (Samples.msgWith 3 None 1000000)) as [_ [_ [H1 [_ [_ [_ H2]]]]]].
  - vm_compute. discriminate.
  - split; [exact H1 | exact H2].
Defined.

(** ** Routing: staying local and forwarding *)

Lemma getById_Some_In s i : getById s i <> None <-> In i (map id s).
Proof.
  split.
  - destruct (getById s i) as [e |] eqn:Hg; [|congruence]. intros _.
    unfold getById in Hg. apply find_some in Hg. destruct Hg as [Hin He].
    apply String.eqb_eq in He. apply in_map_iff. exists e. auto.
  - intros Hin Hnone. apply getById_None in Hnone. contradiction.
Qed.

Lemma selfCoord_store env st : store (snd (selfCoord env st)) = store st.
Proof. unfold selfCoord. destruct (cachedSelfCoord st); reflexivity. Qed.




Lemma backoffAfterPenalty_other nowMs mp i j :
  i <> j -> backoffGet (backoffAfterPenalty nowMs mp i) j = backoffGet mp j.
Proof.
  intros Hne. unfold backoffAfterPenalty.
  destruct (backoffGet mp i) as [bo |]; [|reflexivity].
  destruct (_ <? _); [|reflexivity].
  rewrite backoffGet_delete. destruct (String.eqb_spec i j); [contradiction | reflexivity].
Qed.

(** X21: when [routeAct] forwards, it forwards once, with a positive TTL
    and from outside the cluster, to a peer of the store other than itself.
    A result from that peer is returned, clears the peer's backoff and keeps
    the peer in the store; a busy answer or a failed send gives a NearAnchor,
    leaves the store unchanged and records a backoff for the peer that lasts
    1000 ms times its factor. *)
Theorem routeAct_forward_feedback env cfg st msg f :
  In f (snd (fst (routeAct env cfg st msg))) ->
  let r := routeAct env cfg st msg in
  snd (fst r) = [f]
  /\ 0 < ttl msg
  /\ inCluster env cfg st msg = false
  /\ target f <> selfId env
  /\ getById (store st) (target f) <> None
  /\ match sendMaybeAct env (target f) (forwarded f) with
     | SendResult result =>
         fst (fst r) = Returned result
         /\ backoffGet (backoffMap (snd r)) (target f) = None
         /\ getBackoffPenalty (now env) (backoffMap (snd r)) (target f) = 0%Q
         /\ getById (store (snd r)) (target f) <> None
     | SendBusy _ | SendThrows =>
         (exists a, fst (fst r) = Returned (RNearAnchor a))
         /\ store (snd r) = store st
         /\ exists bo, backoffGet (backoffMap (snd r)) (target f) = Some bo
                       /\ until bo = now env + 1000 * factor bo
                       /\ factor bo <= 32
     end.
Proof.
  cbv zeta. unfold routeAct, inCluster.
  pose proof (selfCoord_store env st) as Hs.
  destruct (selfCoord env st) as [selfC st0]. cbn [snd] in Hs. rewrite Hs.
  destruct (estimateSizeAndConfidence env (store st) (m cfg)) as [n conf].
  destruct (match neighborDistance _ _ _ _ with Some i => Nat.leb i 1 | None => false end).
  { destruct (activityOf msg); [destruct (activityHandler env) as [h |];
      [destruct (h _ _ _ _)|]|]; cbn; contradiction. }
  destruct (Z.ltb_spec 0 (ttl msg)) as [Httl | Httl]; [|cbn; contradiction].
  set (cands := routeCandidates env cfg (store st) (hashKey env (key msg)) msg).
  set (opts := buildNextHopOptions env cfg st0 n conf).
  destruct (chooseNextHop (store st) (hashKey env (key msg)) cands (isConnected env)
              (linkQuality (store st)) (Options opts)) as [nx |] eqn:Hnext;
    [|cbn; contradiction].
  destruct (truthyIds [Some nx]) as [| nextId rest] eqn:Ht; [cbn; contradiction|].
  apply truthyIds_single in Ht. destruct Ht as [Ht ->]. inversion Ht; subst nx. clear Ht.
  apply chooseNextHop_In in Hnext. destruct Hnext as [Hcand Hentry].
  apply routeCandidates_excluded in Hcand. destruct Hcand as [_ Hself].
  destruct (sendMaybeAct env nextId (forwardCopy env msg)) eqn:Hsend;
    cbn [fst snd]; intros [<- | []]; cbn [target forwarded]; rewrite Hsend;
    (split; [reflexivity|]); (split; [exact Httl|]); (split; [reflexivity|]);
    (split; [exact Hself|]); (split; [exact Hentry|]).
  - split; [eexists; reflexivity|]. cbn. rewrite Hs. split; [reflexivity|].
    unfold recordBackoff. eexists. rewrite backoffGet_set_same.
    split; [reflexivity|]. cbn [until factor]. split; [reflexivity|].
    destruct (backoffGet _ nextId); lia.
  - split; [reflexivity|].
    cbn [fst snd store backoffMap withStore withBackoff withDiag].
    assert (Hget : forall mp, backoffGet (clearBackoff mp nextId) nextId = None).
    { intros mp. unfold clearBackoff. rewrite backoffGet_delete, String.eqb_refl.
      reflexivity. }
    split; [apply Hget|]. split; [unfold getBackoffPenalty; rewrite Hget; reflexivity|].
    apply getById_Some_In. unfold applySuccess. rewrite update_ids.
    rewrite Hs. destruct (getById (store st) nextId) eqn:Hg; [|congruence].
    apply getById_Some_In. congruence.
  - split; [eexists; reflexivity|]. cbn. rewrite Hs. split; [reflexivity|].
    unfold recordBackoff. eexists. rewrite backoffGet_set_same.
    split; [reflexivity|]. cbn [until factor]. split; [reflexivity|].
    destruct (backoffGet _ nextId); lia.
Qed.

Lemma routeAct_forward_feedback_witness :
  snd (fst (routeAct Samples.envFar Samples.cfg0 Samples.stateFar
              (Samples.msgWith 3 None 1000000)))
  = [mkForward "s1"%string (forwardCopy Samples.envFar (Samples.msgWith 3 None 1000000))]
  /\ inCluster Samples.envFar Samples.cfg0 Samples.stateFar
       (Samples.msgWith 3 None 1000000) = false.
Proof.
  destruct (routeAct_forward_feedback Samples.envFar Samples.cfg0 Samples.stateFar
              (Samples.msgWith 3 None 1000000)
              (mkForward "s1"%string
                 (forwardCopy Samples.envFar (Samples.msgWith 3 None 1000000))))
    as [H1 [_ [H2 _]]].
  - vm_compute. left. reflexivity.
  - split; [exact H1 | exact H2].
Defined.

(** ** Anchors *)

Lemma truthyIds_In l i : In i (truthyIds l) <-> In (Some i) l /\ i <> ""%string.
Proof.
  unfold truthyIds. rewrite in_flat_map. split.
  - intros [o [Ho Hi]]. destruct o as [j |]; [|contradiction].
    destruct (String.eqb_spec j ""%string); [contradiction|].
    destruct Hi as [<- | []]. auto.
  - intros [Hin Hne]. exists (Some i). split; [exact Hin|].
    destruct (String.eqb_spec i ""%string); [contradiction | left; reflexivity].
Qed.

Lemma pickAnchors_shape_facts env s cands :
  (List.length (pickAnchors env s cands) <= 2)%nat
  /\ NoDup (pickAnchors env s cands)
  /\ (forall i, In i (pickAnchors env s cands) ->
        In i cands /\ i <> ""%string /\ getById s i <> None)
  /\ ((exists i, In i cands /\ i <> ""%string /\ getById s i <> None) <->
      pickAnchors env s cands <> []).
Proof.
  unfold pickAnchors.
  destruct (Js.uniq cands) as [| u0 urest] eqn:Hu.
  { split; [simpl; lia|]. split; [constructor|]. split; [intros i []|].
    split; [|congruence]. intros [i [Hi _]]. apply (proj2 (uniq_In _ _)) in Hi. rewrite Hu in Hi.
    contradiction. }
  rewrite <- Hu. clear u0 urest Hu.
  set (unique := Js.uniq cands).
  set (lq := fun _ : Id => (1 # 2)%Q).
  remember (chooseNextHop s zeroCoord unique (isConnected env) lq NoOptions) as first
    eqn:Efirst.
  remember (filter (fun i => match first with
                             | Some f => negb (String.eqb i f)
                             | None => true
                             end) unique) as rest eqn:Erest.
  remember (chooseNextHop s zeroCoord rest (isConnected env) lq NoOptions) as second
    eqn:Esecond.
  assert (Hfirst : forall f, first = Some f -> In f cands /\ getById s f <> None).
  { intros f Hf. rewrite Efirst in Hf. apply chooseNextHop_In in Hf. destruct Hf as [Hin Hg].
    apply (proj1 (uniq_In _ _)) in Hin. auto. }
  assert (Hsecond : forall g, second = Some g ->
            In g cands /\ getById s g <> None /\ first <> Some g).
  { intros g Hg. rewrite Esecond in Hg. apply chooseNextHop_In in Hg. destruct Hg as [Hin Hg].
    rewrite Erest in Hin. apply filter_In in Hin. destruct Hin as [Hin Hne]. apply (proj1 (uniq_In _ _)) in Hin.
    repeat split; try assumption.
    intros Hf. rewrite Hf in Hne. rewrite String.eqb_refl in Hne. discriminate. }
  split; [|split; [|split]].
  - unfold truthyIds. simpl.
    destruct first as [f |]; [destruct (String.eqb f "")|];
      (destruct second as [g |]; [destruct (String.eqb g "")|]); simpl; lia.
  - unfold truthyIds. simpl.
    destruct first as [f |]; [destruct (String.eqb f "")|];
      (destruct second as [g |]; [destruct (String.eqb g "")|]); simpl;
      repeat constructor; auto.
    intros [E | []]. subst g. destruct (Hsecond f eq_refl) as [_ [_ Hne]]. congruence.
    Unshelve. all: try exact ""%string.
  - intros i Hi. apply truthyIds_In in Hi. destruct Hi as [[Hi | [Hi | []]] Hne].
    + destruct (Hfirst i Hi). auto.
    + destruct (Hsecond i Hi) as [H1 [H2 _]]. auto.
  - split.
    + intros [i [Hi [Hne Hg]]] Hnil.
      assert (Hiu : In i unique) by (apply uniq_In; exact Hi).
      destruct first as [f |].
      * destruct (String.eqb_spec f ""%string) as [Hf0 | Hf].
        -- assert (Hir : In i rest).
           { rewrite Erest. apply filter_In. split; [exact Hiu|].
             destruct (String.eqb_spec i f); [congruence | reflexivity]. }
           destruct second as [g |].
           ++ assert (Hgin : In g (truthyIds [Some f; Some g])).
              { apply truthyIds_In. split; [right; left; reflexivity|].
                destruct (Hsecond g eq_refl) as [_ [_ Hnf]]. congruence. }
              rewrite Hnil in Hgin. contradiction.
           ++ symmetry in Esecond.
              pose proof (proj1 (chooseNextHop_undefined_iff_facts _ _ _ _ _ _) Esecond i Hir).
              contradiction.
        -- assert (Hfin : In f (truthyIds [Some f; second])).
           { apply truthyIds_In. split; [left; reflexivity | exact Hf]. }
           rewrite Hnil in Hfin. contradiction.
      * symmetry in Efirst.
        pose proof (proj1 (chooseNextHop_undefined_iff_facts _ _ _ _ _ _) Efirst i Hiu).
        contradiction.
    + intros Hne. destruct (truthyIds [first; second]) as [| a r] eqn:Ht; [congruence|].
      assert (Ha : In a (truthyIds [first; second])) by (rewrite Ht; left; reflexivity).
      apply truthyIds_In in Ha. destruct Ha as [[Ha | [Ha | []]] Hane].
      * exists a. destruct (Hfirst a Ha). auto.
      * exists a. destruct (Hsecond a Ha) as [H1 [H2 _]]. auto.
Qed.

(** X22: [pickAnchors] returns at most two distinct non-empty ids, each a
    candidate with a store entry, and returns none exactly when no non-empty
    candidate has a store entry. *)
Theorem pickAnchors_shape env s cands :
  (List.length (pickAnchors env s cands) <= 2)%nat
  /\ NoDup (pickAnchors env s cands)
  /\ (forall i, In i (pickAnchors env s cands) ->
        In i cands /\ i <> ""%string /\ getById s i <> None)
  /\ ((exists i, In i cands /\ i <> ""%string /\ getById s i <> None) <->
      pickAnchors env s cands <> []).
Proof. exact (pickAnchors_shape_facts env s cands). Qed.

Lemma slice0_pos_length {A} (n : Z) (l : list A) :
  0 <= n -> (List.length (Js.slice0 n l) <= Z.to_nat n)%nat.
Proof. intros Hn. pose proof (slice0_length n l Hn). lia. Qed.

(** X23: the NearAnchor of a rejection ([nearAnchorOnly]) carries at most
    two anchors and at most four cohort hints, cluster size [k] and confidence
    0.5; the NearAnchor of [buildNearAnchor] carries at most two anchors and
    at most eight cohort hints, cluster size [max k n], the confidence given,
    and its anchors are among its hints.  Anchors and hints are distinct ids of
    store entries. *)
Theorem nearAnchor_shape env cfg s msg coord n conf :
  let r := nearAnchorOnly env cfg s msg in
  let b := buildNearAnchor env cfg s coord n conf in
  ((List.length (anchors r) <= 2)%nat /\ NoDup (anchors r)
   /\ (List.length (cohort_hint r) <= 4)%nat /\ NoDup (cohort_hint r)
   /\ (estimated_cluster_size r == inject_Z (k cfg))%Q /\ (na_confidence r == 1 # 2)%Q
   /\ forall i, In i (anchors r) \/ In i (cohort_hint r) -> exists e, In e s /\ id e = i)
  /\ ((List.length (anchors b) <= 2)%nat /\ NoDup (anchors b)
      /\ (List.length (cohort_hint b) <= 8)%nat /\ NoDup (cohort_hint b)
      /\ (inject_Z (k cfg) <= estimated_cluster_size b)%Q
      /\ (n <= estimated_cluster_size b)%Q
      /\ na_confidence b = conf
      /\ (forall i, In i (anchors b) -> In i (cohort_hint b))
      /\ forall i, In i (cohort_hint b) -> exists e, In e s /\ id e = i).
Proof.
  cbv zeta. unfold nearAnchorOnly, buildNearAnchor.
  cbn [anchors cohort_hint estimated_cluster_size na_confidence].
  assert (Hstore : forall c d w j i,
            In i (Js.slice0 j (getNeighbors s c d w)) -> exists e, In e s /\ id e = i).
  { intros c d w j i Hi. apply slice0_In in Hi.
    destruct (getNeighbors_shape_facts s c d w) as [_ [_ [H _]]]. apply (H i Hi). }
  assert (Hlen : forall (a b : list Id) j, 0 <= j ->
            (List.length (Js.uniq (Js.slice0 j a ++ Js.slice0 j b)) <= 2 * Z.to_nat j)%nat).
  { intros a b j Hj. unfold Js.uniq.
    pose proof (uniqFrom_length (Js.slice0 j a ++ Js.slice0 j b) []) as H.
    rewrite length_app in H.
    pose proof (slice0_pos_length j a Hj). pose proof (slice0_pos_length j b Hj). lia. }
  split.
  - destruct (pickAnchors_shape_facts env s
                (Js.slice0 3 (getNeighbors s (hashKey env (key msg)) right (m cfg))
                 ++ Js.slice0 3 (getNeighbors s (hashKey env (key msg)) left (m cfg))))
      as [H1 [H2 [H3 _]]].
    split; [exact H1 | split; [exact H2|]].
    split; [apply (Hlen _ _ 2); lia|]. split; [apply uniq_NoDup|].
    split; [reflexivity | split; [reflexivity|]].
    intros i [Hi | Hi].
    + destruct (H3 i Hi) as [Hin _]. apply in_app_or in Hin.
      destruct Hin as [Hin | Hin]; eapply Hstore; exact Hin.
    + apply (proj1 (uniq_In _ _)) in Hi. apply in_app_or in Hi.
      destruct Hi as [Hin | Hin]; eapply Hstore; exact Hin.
  - destruct (pickAnchors_shape_facts env s
                (Js.slice0 4 (getNeighbors s coord right (m cfg))
                 ++ Js.slice0 4 (getNeighbors s coord left (m cfg))))
      as [H1 [H2 [H3 _]]].
    split; [exact H1 | split; [exact H2|]].
    split; [apply (Hlen _ _ 4); lia|]. split; [apply uniq_NoDup|].
    split; [apply qmax_ge_l|].
    split; [unfold qmax; destruct (Qle_bool (inject_Z (k cfg)) n) eqn:E;
            [apply Qle_refl|]; apply Qlt_le_weak, Qle_bool_false, E|].
    split; [reflexivity|].
    split.
    + intros i Hi. apply uniq_In. destruct (H3 i Hi) as [Hin _]. exact Hin.
    + intros i Hi. apply (proj1 (uniq_In _ _)) in Hi. apply in_app_or in Hi.
      destruct Hi as [Hin | Hin]; eapply Hstore; exact Hin.
Qed.

(** ** Reporting network size *)

Lemma sliceLast_suffix {A} (n : nat) (l : list A) :
  exists dropped, l = dropped ++ Js.sliceLast n l.
Proof.
  unfold Js.sliceLast. exists (firstn (List.length l - n) l).
  symmetry. apply firstn_skipn.
Qed.

Lemma sliceLast_length {A} (n : nat) (l : list A) :
  List.length (Js.sliceLast n l) = Nat.min n (List.length l).
Proof. unfold Js.sliceLast. rewrite length_skipn. lia. Qed.

(** X24: after [reportNetworkSize] the list holds between 1 and 100
    observations, all younger than the five-minute window, the new one last;
    it is a suffix of the old observations within the window followed by the
    new one, and all of them when these were fewer than 100. *)
Theorem reportNetworkSize_invariants nowMs obs estimate confidence source :
  let new := mkObs estimate confidence nowMs source in
  let inWindow := fun o => nowMs - observationWindowMs <? obs_timestamp o in
  let r := reportNetworkSize nowMs obs estimate confidence source in
  (1 <= List.length r <= 100)%nat
  /\ (exists front, r = front ++ [new])
  /\ (exists dropped, filter inWindow obs ++ [new] = dropped ++ r)
  /\ (forall o, In o r -> nowMs - 300000 < obs_timestamp o)
  /\ (forall o, In o r -> o = new \/ In o obs)
  /\ ((List.length (filter inWindow obs) < 100)%nat -> r = filter inWindow obs ++ [new]).
Proof.
  cbv zeta. unfold reportNetworkSize, maxObservations, observationWindowMs.
  set (new := mkObs estimate confidence nowMs source).
  set (inWindow := fun o => nowMs - 300000 <? obs_timestamp o).
  assert (Hkept : filter inWindow (obs ++ [new]) = filter inWindow obs ++ [new]).
  { rewrite filter_app. f_equal. simpl. unfold inWindow at 1. cbn [obs_timestamp new].
    destruct (Z.ltb_spec (nowMs - 300000) nowMs); [reflexivity | lia]. }
  rewrite Hkept.
  set (kept := filter inWindow obs ++ [new]).
  assert (Hlen : List.length kept = S (List.length (filter inWindow obs))).
  { unfold kept. rewrite length_app. simpl. lia. }
  assert (Hwin : forall o, In o kept -> nowMs - 300000 < obs_timestamp o).
  { intros o Ho. unfold kept in Ho. apply in_app_or in Ho. destruct Ho as [Ho | [<- | []]].
    - apply filter_In in Ho. destruct Ho as [_ Ho]. unfold inWindow in Ho.
      apply Z.ltb_lt in Ho. exact Ho.
    - simpl. lia. }
  assert (Hsrc : forall o, In o kept -> o = new \/ In o obs).
  { intros o Ho. unfold kept in Ho. apply in_app_or in Ho. destruct Ho as [Ho | [<- | []]].
    - right. apply filter_In in Ho. tauto.
    - left. reflexivity. }
  destruct (Z.ltb_spec 100 (Z.of_nat (List.length kept))) as [Hbig | Hsmall].
  - destruct (sliceLast_suffix (Z.to_nat 100) kept) as [dropped Hd].
    pose proof (sliceLast_length (Z.to_nat 100) kept) as Hl.
    assert (Hsub : forall o, In o (Js.sliceLast (Z.to_nat 100) kept) -> In o kept).
    { intros o Ho. rewrite Hd. apply in_or_app. right. exact Ho. }
    split; [lia|]. split.
    + unfold Js.sliceLast, kept.
      rewrite skipn_app.
      assert (Hz : (List.length (filter inWindow obs ++ [new])
                    - Z.to_nat 100 - List.length (filter inWindow obs) = 0)%nat).
      { rewrite length_app. simpl. lia. }
      fold kept. unfold kept at 2. rewrite Hz. simpl. eexists. reflexivity.
    + split; [exists dropped; exact Hd|].
      split; [intros o Ho; apply Hwin, Hsub, Ho|].
      split; [intros o Ho; apply Hsrc, Hsub, Ho|].
      intros Hlt. lia.
  - split; [lia|]. split; [eexists; reflexivity|].
    split; [exists []; reflexivity|].
    split; [exact Hwin | split; [exact Hsrc | reflexivity]].
Qed.

(** ** Leaving: replacements and notices *)

(** A comparator that decides a total preorder sorts by it. *)
Lemma insertBy_sorted_by {A} (cmp : A -> A -> Q) (R : A -> A -> Prop) (x : A) (l : list A) :
  (forall a b c, R a b -> R b c -> R a c) ->
  (forall a b, (Qle_bool (cmp a b) 0 = true -> R a b)
               /\ (Qle_bool (cmp a b) 0 = false -> R b a)) ->
  StronglySorted R l -> StronglySorted R (Js.insertBy cmp x l).
Proof.
  intros Htrans Hcmp. induction l as [| y r IH]; intros Hs; simpl.
  - constructor; constructor.
  - inversion Hs as [| ? ? Hr Hy]; subst.
    destruct (Qle_bool (cmp x y) 0) eqn:E.
    + constructor; [exact Hs|]. constructor.
      * apply (proj1 (Hcmp x y) E).
      * apply Forall_forall. intros z Hz. rewrite Forall_forall in Hy.
        eapply Htrans; [apply (proj1 (Hcmp x y) E) | apply Hy, Hz].
    + constructor; [apply IH, Hr|].
      apply Forall_forall. intros z Hz. apply insertBy_In in Hz.
      destruct Hz as [-> | Hz]; [apply (proj2 (Hcmp x y) E)|].
      rewrite Forall_forall in Hy. apply Hy, Hz.
Qed.

Lemma sortBy_sorted_by {A} (cmp : A -> A -> Q) (R : A -> A -> Prop) (l : list A) :
  (forall a b c, R a b -> R b c -> R a c) ->
  (forall a b, (Qle_bool (cmp a b) 0 = true -> R a b)
               /\ (Qle_bool (cmp a b) 0 = false -> R b a)) ->
  StronglySorted R (Js.sortBy cmp l).
Proof.
  intros Htrans Hcmp. induction l as [| x r IH]; simpl; [constructor|].
  apply insertBy_sorted_by; assumption.
Qed.

Lemma StronglySorted_firstn {A} (R : A -> A -> Prop) (n : nat) (l : list A) :
  StronglySorted R l -> StronglySorted R (firstn n l).
Proof.
  revert n. induction l as [| x r IH]; intros n Hs; destruct n; simpl; try constructor.
  - inversion Hs; subst. apply IH. assumption.
  - inversion Hs as [| ? ? Hr Hx]; subst. apply Forall_forall. intros z Hz.
    apply In_firstn in Hz. rewrite Forall_forall in Hx. apply Hx, Hz.
Qed.

Lemma ReplacementOrder_trans ic s a b c :
  ReplacementOrder ic s a b -> ReplacementOrder ic s b c -> ReplacementOrder ic s a c.
Proof.
  unfold ReplacementOrder.
  intros [[Ha Hb] | [Hab Hr1]] [[Hb' Hc] | [Hbc Hr2]].
  - congruence.
  - left. split; congruence.
  - left. split; congruence.
  - right. split; [congruence | lra].
Qed.

Lemma replacementCmp_order ic s a b :
  (Qle_bool (replacementCmp ic s a b) 0 = true -> ReplacementOrder ic s a b)
  /\ (Qle_bool (replacementCmp ic s a b) 0 = false -> ReplacementOrder ic s b a).
Proof.
  unfold replacementCmp, ReplacementOrder.
  destruct (ic a), (ic b);
    [change (negb (1 =? 1)) with false | change (negb (1 =? 0)) with true
    | change (negb (0 =? 1)) with true | change (negb (0 =? 0)) with false]; cbv iota.
  - split; intros H.
    + apply Qle_bool_iff in H. right. split; [reflexivity | lra].
    + apply Qle_bool_false in H. right. split; [reflexivity | lra].
  - split; intros H; [left; auto | vm_compute in H; discriminate].
  - split; intros H; [vm_compute in H; discriminate | left; auto].
  - split; intros H.
    + apply Qle_bool_iff in H. right. split; [reflexivity | lra].
    + apply Qle_bool_false in H. right. split; [reflexivity | lra].
Qed.

Lemma NoDup_filter {A} (f : A -> bool) (l : list A) : NoDup l -> NoDup (filter f l).
Proof.
  induction l as [| x r IH]; simpl; intros Hnd; [constructor|].
  inversion Hnd; subst. destruct (f x); [constructor|]; auto.
  rewrite filter_In. tauto.
Qed.

Lemma computeReplacements_spec_facts env cfg s selfCoord sp selfStr :
  let r := computeReplacements env cfg s selfCoord sp selfStr in
  (List.length r <= 6)%nat
  /\ NoDup r
  /\ (forall i, In i r ->
        i <> selfStr /\ ~ In i sp
        /\ (In i (neighborsRight s selfCoord (m cfg * 2))
            \/ In i (neighborsLeft s selfCoord (m cfg * 2)))
        /\ exists e, In e s /\ id e = i)
  /\ StronglySorted (ReplacementOrder (isConnected env) s) r
  /\ (forall i j, In i r ->
        In j (neighborsRight s selfCoord (m cfg * 2))
        \/ In j (neighborsLeft s selfCoord (m cfg * 2)) ->
        j <> selfStr -> ~ In j sp -> ~ In j r ->
        ReplacementOrder (isConnected env) s i j).
Proof.
  cbv zeta. unfold computeReplacements. cbv zeta.
  match goal with |- context [Js.sortBy _ ?w] => set (wider := w) end.
  set (sorted := Js.sortBy (replacementCmp (isConnected env) s) wider).
  assert (Hsorted : StronglySorted (ReplacementOrder (isConnected env) s) sorted).
  { apply sortBy_sorted_by; [apply ReplacementOrder_trans | apply replacementCmp_order]. }
  assert (Hnd : NoDup sorted).
  { eapply Permutation_NoDup; [symmetry; apply sortBy_perm|].
    apply NoDup_filter, uniq_NoDup. }
  assert (Hwider : forall i, In i wider <->
            (i <> selfStr /\ ~ In i sp)
            /\ (In i (neighborsRight s selfCoord (m cfg * 2))
                \/ In i (neighborsLeft s selfCoord (m cfg * 2)))).
  { intros i. unfold wider. rewrite filter_In, uniq_In, in_app_iff, andb_true_iff,
      !negb_true_iff, has_false_iff.
    destruct (String.eqb_spec i selfStr); intuition congruence. }
  split; [pose proof (slice0_length 6 sorted ltac:(lia)); lia|].
  split; [apply slice0_NoDup, Hnd|].
  split.
  - intros i Hi. apply slice0_In in Hi. apply (proj1 (sortBy_In _ _ _)) in Hi.
    apply Hwider in Hi. destruct Hi as [[H1 H2] H3]. repeat split; try assumption.
    destruct H3 as [H3 | H3]; [eapply neighborsRight_store | eapply neighborsLeft_store];
      exact H3.
  - split; [apply StronglySorted_firstn, Hsorted|].
    intros i j Hi Hj Hjs Hjsp Hjr.
    assert (Hjw : In j sorted).
    { apply sortBy_In. apply Hwider. auto. }
    change (Js.slice0 6 sorted) with (firstn 6 sorted) in *.
    rewrite <- (firstn_skipn 6 sorted) in Hjw, Hsorted.
    apply in_app_or in Hjw. destruct Hjw as [Hjw | Hjw]; [contradiction|].
    clear - Hi Hjw Hsorted. revert Hi Hsorted.
    generalize (firstn 6 sorted) as front. intros front.
    induction front as [| x fr IH]; intros Hi Hs; [contradiction|].
    simpl in Hs. inversion Hs as [| ? ? Hr Hx]; subst.
    destruct Hi as [<- | Hi]; [|apply IH; assumption].
    rewrite Forall_forall in Hx. apply Hx. apply in_or_app. right. exact Hjw.
Qed.

(** X25: [computeReplacements] returns at most six distinct ids of store
    entries among the [2 * m] successors and predecessors, never this peer and
    never one of the neighbours notified directly, sorted connected first and
    then by decreasing relevance; every eligible id that is left out ranks no
    better than each one returned. *)
Theorem computeReplacements_spec env cfg s selfCoord sp selfStr :
  let r := computeReplacements env cfg s selfCoord sp selfStr in
  (List.length r <= 6)%nat
  /\ NoDup r
  /\ (forall i, In i r ->
        i <> selfStr /\ ~ In i sp
        /\ (In i (neighborsRight s selfCoord (m cfg * 2))
            \/ In i (neighborsLeft s selfCoord (m cfg * 2)))
        /\ exists e, In e s /\ id e = i)
  /\ StronglySorted (ReplacementOrder (isConnected env) s) r
  /\ (forall i j, In i r ->
        In j (neighborsRight s selfCoord (m cfg * 2))
        \/ In j (neighborsLeft s selfCoord (m cfg * 2)) ->
        j <> selfStr -> ~ In j sp -> ~ In j r ->
        ReplacementOrder (isConnected env) s i j).
Proof. exact (computeReplacements_spec_facts env cfg s selfCoord sp selfStr). Qed.

Lemma map_fst_pair {A B} (l : list A) (n : B) : map fst (map (fun i => (i, n)) l) = l.
Proof. rewrite map_map. simpl. apply map_id. Qed.

(** X26: [sendLeaveToNeighbors] sends one and the same notice to distinct
    peers of the store, never to itself: at most 8 neighbours, then at most
    [fanOut] (4 for core, 2 for edge) further peers, all of these connected.
    The notice is from this peer, stamped now, and its replacements are absent
    or a non-empty list of at most six distinct ids that contains neither this
    peer nor any of the neighbours notified first. *)
Theorem sendLeaveToNeighbors_spec env cfg s :
  let sends := sendLeaveToNeighbors env cfg s in
  let fanOut := match profile cfg with core => 4 | edge => 2 end in
  NoDup (map fst sends)
  /\ Z.of_nat (List.length sends) <= 8 + fanOut
  /\ (forall t n, In (t, n) sends ->
        t <> selfId env
        /\ (exists e, In e s /\ id e = t)
        /\ Leave.from n = selfId env
        /\ Leave.timestamp n = now env
        /\ Leave.replacements n <> Some []
        /\ forall rs, Leave.replacements n = Some rs ->
             (List.length rs <= 6)%nat /\ NoDup rs /\ ~ In (selfId env) rs)
  /\ (forall t n t' n', In (t, n) sends -> In (t', n') sends -> n = n')
  /\ (exists first extra,
        map fst sends = first ++ extra
        /\ (List.length first <= 8)%nat /\ Z.of_nat (List.length extra) <= fanOut
        /\ (forall t, In t extra -> isConnected env t = true)
        /\ forall t n rs, In (t, n) sends -> Leave.replacements n = Some rs ->
             forall i, In i rs -> ~ In i first).
Proof.
  cbv zeta. unfold sendLeaveToNeighbors. cbv zeta.
  set (selfCoord := hashPeerId env (selfId env)).
  match goal with |- context [computeReplacements _ _ _ _ ?w _] => set (ids := w) end.
  set (replacements := computeReplacements env cfg s selfCoord ids (selfId env)).
  match goal with |- context [Leave.mkNotice ?a ?b ?c] => set (notice := Leave.mkNotice a b c) end.
  set (fanOut := match profile cfg with core => 4 | edge => 2 end).
  set (expanded := expandCohort s ids selfCoord fanOut [selfId env]).
  match goal with |- context [Js.slice0 fanOut ?w] => set (extra := Js.slice0 fanOut w) end.
  assert (HfanZ : 0 <= fanOut) by (unfold fanOut; destruct (profile cfg); lia).
  assert (Hids_nd : NoDup ids).
  { apply slice0_NoDup, NoDup_filter, uniq_NoDup. }
  assert (Hids : forall i, In i ids -> i <> selfId env /\ exists e, In e s /\ id e = i).
  { intros i Hi. unfold ids in Hi. apply slice0_In in Hi. apply filter_In in Hi.
    destruct Hi as [Hi Hne]. apply (proj1 (uniq_In _ _)) in Hi.
    split; [destruct (String.eqb_spec i (selfId env)); [discriminate | assumption]|].
    apply in_app_or in Hi.
    destruct Hi as [Hi | Hi];
      [destruct (getNeighbors_shape_facts s selfCoord right (m cfg)) as [_ [_ [H _]]]
      |destruct (getNeighbors_shape_facts s selfCoord left (m cfg)) as [_ [_ [H _]]]];
      apply (H i Hi). }
  destruct (expandCohort_shape_facts s ids selfCoord fanOut [selfId env])
    as [_ [Hex_nd [_ [Hex_new _]]]]. fold expanded in Hex_nd, Hex_new.
  assert (Hextra : forall i, In i extra ->
            ~ In i ids /\ isConnected env i = true /\ i <> selfId env
            /\ exists e, In e s /\ id e = i).
  { intros i Hi. unfold extra in Hi. apply slice0_In in Hi. apply filter_In in Hi.
    destruct Hi as [Hi Hc]. apply andb_true_iff in Hc. destruct Hc as [Hn Hc].
    apply negb_true_iff, has_false_iff in Hn.
    destruct (Hex_new i Hi Hn) as [_ [Hself Hst]].
    repeat split; try assumption. intros E. apply Hself. left. auto. }
  assert (Hextra_nd : NoDup extra).
  { apply slice0_NoDup, NoDup_filter, Hex_nd. }
  destruct (computeReplacements_spec_facts env cfg s selfCoord ids (selfId env))
    as [Hr_len [Hr_nd [Hr_mem _]]]. fold replacements in Hr_len, Hr_nd, Hr_mem.
  assert (Hnotice : forall t n, In (t, n) (map (fun i : string => (i, notice)) (ids ++ extra)) ->
            n = notice /\ In t (ids ++ extra)).
  { intros t n Hin. apply in_map_iff in Hin. destruct Hin as [i [E Hi]].
    inversion E; subst. auto. }
  assert (Hreps : forall rs, Leave.replacements notice = Some rs -> rs = replacements).
  { intros rs. unfold notice. cbn [Leave.replacements].
    destruct replacements; [discriminate | intros [= <-]; reflexivity]. }
  split.
  { rewrite map_fst_pair. apply NoDup_app; [exact Hids_nd | exact Hextra_nd|].
    intros i Hi He. destruct (Hextra i He) as [Hn _]. contradiction. }
  split.
  { rewrite length_map, length_app, Nat2Z.inj_add.
    apply Z.add_le_mono; [apply slice0_length; lia | apply slice0_length; exact HfanZ]. }
  split.
  { intros t n Hin. destruct (Hnotice t n Hin) as [-> Ht].
    assert (Htt : t <> selfId env /\ exists e, In e s /\ id e = t).
    { apply in_app_or in Ht. destruct Ht as [Ht | Ht]; [apply Hids, Ht|].
      destruct (Hextra t Ht) as [_ [_ [H1 H2]]]. auto. }
    destruct Htt as [H1 H2].
    split; [exact H1 | split; [exact H2|]].
    split; [reflexivity | split; [reflexivity|]].
    split.
    - unfold notice. cbn [Leave.replacements]. destruct replacements; discriminate.
    - intros rs Hrs. apply Hreps in Hrs. subst rs.
      split; [exact Hr_len | split; [exact Hr_nd|]].
      intros Hin'. destruct (Hr_mem _ Hin') as [Hne _]. congruence. }
  split.
  { intros t n t' n' H1 H2. destruct (Hnotice _ _ H1) as [-> _].
    destruct (Hnotice _ _ H2) as [-> _]. reflexivity. }
  exists ids, extra. rewrite map_fst_pair. split; [reflexivity|].
  split.
  { assert (H8 : Z.of_nat (List.length ids) <= 8) by (apply slice0_length; lia).
    apply Nat2Z.inj_le. exact H8. }
  split; [apply slice0_length; exact HfanZ|].
  split; [intros t Ht; destruct (Hextra t Ht) as [_ [H _]]; exact H|].
  intros t n rs Hin Hrs i Hi. destruct (Hnotice _ _ Hin) as [-> _].
  apply Hreps in Hrs. subst rs. destruct (Hr_mem _ Hi) as [_ [Hn _]]. exact Hn.
Qed.

(** ** Neighbour snapshots *)

Section SnapshotFacts.

Variable Metadata : Type.
Variable coordToBase64url : Coord -> string.

(** X27: [snapshot] keeps the documented caps: at most 6/6/6 successors,
    predecessors and samples on edge and 12/12/8 on core, and never more than
    [m] successors or predecessors.  The three lists have no duplicates, are
    made of store entries, and every sample is one of the first four
    successors or predecessors with the coordinate and relevance of its
    store entry. *)
Theorem snapshot_caps env cfg s (meta : option Metadata) :
  let snap := snapshot coordToBase64url env cfg s meta in
  let '(capSucc, capPred, capSample) := snapshotCaps (profile cfg) in
  Z.of_nat (List.length (successors snap)) <= Z.min capSucc (Z.max 0 (m cfg))
  /\ Z.of_nat (List.length (predecessors snap)) <= Z.min capPred (Z.max 0 (m cfg))
  /\ Z.of_nat (List.length (sample snap)) <= capSample
  /\ NoDup (successors snap) /\ NoDup (predecessors snap)
  /\ NoDup (map sample_id (sample snap))
  /\ snap_from snap = selfId env /\ snap_timestamp snap = now env
  /\ (forall i, In i (successors snap) \/ In i (predecessors snap) ->
        exists e, In e s /\ id e = i)
  /\ (forall x, In x (sample snap) ->
        (In (sample_id x) (firstn 4 (successors snap))
         \/ In (sample_id x) (firstn 4 (predecessors snap)))
        /\ exists e, getById s (sample_id x) = Some e
             /\ sample_coord x = coordToBase64url (Store.coord e)
             /\ sample_relevance x = relevance e).
Proof.
  cbv zeta. unfold snapshot, snapshotCaps.
  destruct (estimateSizeAndConfidence env s (m cfg)) as [n confidence].
  cbn [successors predecessors sample snap_from snap_timestamp].
  set (selfCoord := hashPeerId env (selfId env)).
  destruct (getNeighbors_shape_facts s selfCoord right (m cfg)) as [Hrn [Hrl [Hrm _]]].
  destruct (getNeighbors_shape_facts s selfCoord left (m cfg)) as [Hln [Hll [Hlm _]]].
  assert (Hcaps : exists cs cp csm,
            match profile cfg with core => 12 | edge => 6 end = cs
            /\ match profile cfg with core => 12 | edge => 6 end = cp
            /\ match profile cfg with core => 8 | edge => 6 end = csm
            /\ 0 <= cs /\ 0 <= csm
            /\ (let '(a, b, c) := match profile cfg with
                                  | edge => (6, 6, 6) | core => (12, 12, 8) end in
                a = cs /\ b = cs /\ c = csm)).
  { destruct (profile cfg); do 3 eexists; repeat split; lia. }
  destruct Hcaps as [cs [cp [csm [-> [_ [-> [Hcs [Hcsm Htriple]]]]]]]].
  destruct (match profile cfg with edge => (6, 6, 6) | core => (12, 12, 8) end)
    as [[a b] c]. destruct Htriple as [-> [-> ->]].
  set (succs := Js.slice0 cs (getNeighbors s selfCoord right (m cfg))).
  set (preds := Js.slice0 cs (getNeighbors s selfCoord left (m cfg))).
  set (sampleIds := Js.slice0 csm (Js.uniq (Js.slice0 4 succs ++ Js.slice0 4 preds))).
  assert (Hsl : forall (l : list Id),
            Z.of_nat (List.length l) <= Z.max 0 (m cfg) ->
            Z.of_nat (List.length (Js.slice0 cs l)) <= Z.min cs (Z.max 0 (m cfg))).
  { intros l Hl. pose proof (slice0_length cs l Hcs). pose proof (slice0_length_le cs l). lia. }
  assert (Hstore : forall i, In i succs \/ In i preds -> exists e, In e s /\ id e = i).
  { intros i [Hi | Hi]; apply slice0_In in Hi; [apply (Hrm i Hi) | apply (Hlm i Hi)]. }
  split; [apply Hsl, Hrl|]. split; [apply Hsl, Hll|].
  split; [rewrite length_map; apply slice0_length, Hcsm|].
  split; [apply slice0_NoDup, Hrn|]. split; [apply slice0_NoDup, Hln|].
  assert (Hids : map sample_id
                   (map (fun i => match getById s i with
                                  | None => mkSample i "" 0
                                  | Some entry =>
                                      mkSample i (coordToBase64url (Store.coord entry))
                                        (relevance entry)
                                  end) sampleIds) = sampleIds).
  { rewrite map_map. rewrite <- (map_id sampleIds) at 2. apply map_ext.
    intros i. destruct (getById s i); reflexivity. }
  split; [rewrite Hids; apply slice0_NoDup, uniq_NoDup|].
  split; [reflexivity | split; [reflexivity|]].
  split; [exact Hstore|].
  intros x Hx. apply in_map_iff in Hx. destruct Hx as [i [Hx Hi]].
  unfold sampleIds in Hi. apply slice0_In in Hi. apply (proj1 (uniq_In _ _)) in Hi.
  change (Js.slice0 4 succs) with (firstn 4 succs) in Hi.
  change (Js.slice0 4 preds) with (firstn 4 preds) in Hi.
  assert (Hin : exists e, In e s /\ id e = i).
  { apply Hstore. apply in_app_or in Hi.
    destruct Hi as [Hi | Hi]; apply In_firstn in Hi; auto. }
  destruct (getById s i) as [e |] eqn:Hg.
  - subst x. cbn [sample_id sample_coord sample_relevance].
    split; [apply in_app_or in Hi; exact Hi|]. exists e. auto.
  - exfalso. apply getById_None in Hg. apply Hg.
    destruct Hin as [e [He <-]]. apply in_map. exact He.
Qed.

End SnapshotFacts.

(** ** Discovery events *)

Lemma jsmap_get_set_same {V} (mp : list (string * V)) key v :
  JsMap.get (JsMap.set mp key v) key = Some v.
Proof.
  unfold JsMap.get. induction mp as [| [k0 v0] r IH]; simpl.
  - rewrite String.eqb_refl. reflexivity.
  - destruct (String.eqb_spec k0 key) as [-> | Hne]; simpl.
    + rewrite String.eqb_refl. reflexivity.
    + destruct (String.eqb_spec k0 key); [contradiction | exact IH].
Qed.

Lemma jsmap_get_set_other {V} (mp : list (string * V)) key key' v :
  key <> key' -> JsMap.get (JsMap.set mp key v) key' = JsMap.get mp key'.
Proof.
  intros Hne. unfold JsMap.get. induction mp as [| [k0 v0] r IH]; simpl.
  - destruct (String.eqb_spec key key'); [contradiction | reflexivity].
  - destruct (String.eqb_spec k0 key) as [-> | Hk]; simpl.
    + destruct (String.eqb_spec key key'); [contradiction | reflexivity].
    + destruct (String.eqb k0 key'); [reflexivity | exact IH].
Qed.

Lemma jsmap_get_filter (f : Id * Z -> bool) (mp : list (Id * Z)) (key : Id) (v : Z) :
  JsMap.get mp key = Some v -> f (key, v) = true ->
  JsMap.get (filter f mp) key = Some v.
Proof.
  intros Hg Hf. unfold JsMap.get in *. induction mp as [| [k0 v0] r IH]; simpl in *.
  - discriminate.
  - destruct (String.eqb_spec k0 key) as [-> | Hk].
    + injection Hg as Hv. rewrite Hv, Hf. simpl. rewrite String.eqb_refl. reflexivity.
    + destruct (f (k0, v0)); simpl.
      * destruct (String.eqb_spec k0 key); [contradiction | apply IH, Hg].
      * apply IH, Hg.
Qed.

Section EmitFacts.

Variables (nowMs ttl : Z) (dispatches : Id -> bool).
Hypothesis ttl_pos : 0 < ttl.

Ltac emit_stop :=
  simpl;
  split; [exists []; split; [symmetry; apply app_nil_r|]; split; [simpl; lia|];
          split; [intros _; constructor | intros ? []]
         | split; [intros ?; left; lia | reflexivity]].

Lemma emitLoop_spec : forall ids takes announced emitted,
  let r := emitLoop nowMs ttl dispatches ids takes announced emitted in
  (exists added, fst r = emitted ++ added
     /\ (List.length added <= List.length (filter (fun b => b) takes))%nat
     /\ (NoDup ids -> NoDup added)
     /\ (forall i, In i added ->
           In i ids /\ dispatches i = true /\ announcedUntil announced i <= nowMs
           /\ announcedUntil (snd r) i = nowMs + ttl))
  /\ (forall i, announcedUntil announced i <= announcedUntil (snd r) i
                \/ nowMs + ttl = announcedUntil (snd r) i)
  /\ (forall i, nowMs < announcedUntil announced i ->
                announcedUntil (snd r) i = announcedUntil announced i).
Proof.
  induction ids as [| i rest IH]; intros takes announced emitted; cbn zeta.
  - emit_stop.
  - cbn [emitLoop]. fold (announcedUntil announced i).
    destruct (Z.ltb_spec nowMs (announcedUntil announced i)) as [Hlive | Hdue].
    { specialize (IH takes announced emitted). cbv zeta in IH.
      destruct IH as [[added [H1 [H2 [H3 H4]]]] [H5 H6]].
      split; [|split; assumption].
      exists added. split; [exact H1 | split; [exact H2 | split]].
      - intros Hnd. inversion Hnd; subst. auto.
      - intros j Hj. destruct (H4 j Hj) as [Ha [Hb [Hc Hd]]].
        repeat split; try assumption. right. exact Ha. }
    destruct takes as [| [|] takes'].
    { emit_stop. }
    2:{ emit_stop. }
    destruct (dispatches i) eqn:Hdisp.
    + specialize (IH takes' (JsMap.set announced i (nowMs + ttl)) (emitted ++ [i])).
      cbv zeta in IH. destruct IH as [[added [H1 [H2 [H3 H4]]]] [H5 H6]].
      assert (Hset_i : announcedUntil (JsMap.set announced i (nowMs + ttl)) i = nowMs + ttl).
      { unfold announcedUntil. rewrite jsmap_get_set_same. reflexivity. }
      assert (Hset_o : forall j, j <> i ->
                announcedUntil (JsMap.set announced i (nowMs + ttl)) j
                = announcedUntil announced j).
      { intros j Hj. unfold announcedUntil. rewrite jsmap_get_set_other by congruence.
        reflexivity. }
      assert (Hkeep_i : announcedUntil
                (snd (emitLoop nowMs ttl dispatches rest takes'
                        (JsMap.set announced i (nowMs + ttl)) (emitted ++ [i]))) i
              = nowMs + ttl).
      { rewrite H6; [exact Hset_i | rewrite Hset_i; lia]. }
      split; [|split].
      * exists (i :: added). rewrite H1, <- app_assoc. split; [reflexivity|].
        split; [simpl; lia|]. split.
        -- intros Hnd. inversion Hnd as [| ? ? Hni Hnd']; subst. constructor; [|auto].
           intros Hin. destruct (H4 i Hin) as [Hir _]. contradiction.
        -- intros j [<- | Hj].
           ++ split; [left; reflexivity|]. split; [exact Hdisp|].
              split; [exact Hdue | exact Hkeep_i].
           ++ destruct (H4 j Hj) as [Ha [Hb [Hc Hd]]].
              assert (Hji : j <> i).
              { intros ->. rewrite Hset_i in Hc. lia. }
              rewrite Hset_o in Hc by exact Hji.
              repeat split; try assumption. right. exact Ha.
      * intros j. destruct (String.eqb_spec j i) as [-> | Hji].
        -- right. symmetry. exact Hkeep_i.
        -- rewrite <- (Hset_o j Hji). apply H5.
      * intros j Hj. destruct (String.eqb_spec j i) as [-> | Hji]; [lia|].
        rewrite H6; rewrite Hset_o by exact Hji; [reflexivity | exact Hj].
    + specialize (IH takes' announced emitted). cbv zeta in IH.
      destruct IH as [[added [H1 [H2 [H3 H4]]]] [H5 H6]].
      split; [|split; assumption].
      exists added. split; [exact H1 | split; [simpl; lia | split]].
      * intros Hnd. inversion Hnd; subst. auto.
      * intros j Hj. destruct (H4 j Hj) as [Ha [Hb [Hc Hd]]].
        repeat split; try assumption. right. exact Ha.
Qed.

End EmitFacts.

Lemma discoveryTtl_pos cfg : 0 < discoveryTtl cfg.
Proof. unfold discoveryTtl. destruct (profile cfg); lia. Qed.

Lemma jsmap_get_filter_none (f : Id * Z -> bool) (mp : list (Id * Z)) (key : Id) :
  JsMap.get mp key = None -> JsMap.get (filter f mp) key = None.
Proof.
  unfold JsMap.get. induction mp as [| [k0 v0] r IH]; simpl; [reflexivity|].
  destruct (String.eqb_spec k0 key) as [-> | Hk]; [discriminate|].
  intros Hg. destruct (f (k0, v0)); simpl.
  - destruct (String.eqb_spec k0 key); [contradiction | apply IH, Hg].
  - apply IH, Hg.
Qed.

Lemma announcedUntil_prune nowMs (ann : list (Id * Z)) (i : Id) :
  nowMs < announcedUntil ann i ->
  announcedUntil (filter (fun kv => negb (snd kv <=? nowMs)) ann) i = announcedUntil ann i.
Proof.
  unfold announcedUntil. intros Hlive.
  destruct (JsMap.get ann i) as [v |] eqn:Hg.
  - rewrite (jsmap_get_filter _ ann i v Hg); [reflexivity|].
    cbn [snd]. destruct (Z.leb_spec v nowMs); [lia | reflexivity].
  - rewrite (jsmap_get_filter_none _ ann i Hg). reflexivity.
Qed.

Lemma emitDiscovered_spec_facts nowMs cfg dispatches takes announced ids :
  let emitted := fst (emitDiscovered nowMs cfg dispatches takes announced ids) in
  let announced' := snd (emitDiscovered nowMs cfg dispatches takes announced ids) in
  NoDup emitted
  /\ (List.length emitted <= List.length (filter (fun b => b) takes))%nat
  /\ (forall i, In i emitted ->
        In i ids /\ dispatches i = true
        /\ announcedUntil announced i <= nowMs
        /\ announcedUntil announced' i = nowMs + discoveryTtl cfg)
  /\ (forall i, nowMs < announcedUntil announced i ->
        ~ In i emitted /\ announcedUntil announced' i = announcedUntil announced i).
Proof.
  cbv zeta. unfold emitDiscovered.
  destruct ids as [| i0 rest0] eqn:Hids.
  { cbn [fst snd]. split; [constructor|]. split; [simpl; lia|].
    split; [intros i []|]. intros i Hi. split; [intros [] | reflexivity]. }
  rewrite <- Hids. clear i0 rest0 Hids.
  pose proof (emitLoop_spec nowMs (discoveryTtl cfg) dispatches (discoveryTtl_pos cfg)
                (Js.uniq ids) takes announced []) as Hspec.
  cbv zeta in Hspec.
  destruct (emitLoop nowMs (discoveryTtl cfg) dispatches (Js.uniq ids) takes announced [])
    as [emitted ann].
  cbn [fst snd] in Hspec.
  destruct Hspec as [[added [H1 [H2 [H3 H4]]]] [H5 H6]].
  simpl in H1. subst added.
  assert (Hfinal : forall ann',
            (ann' = ann \/ ann' = filter (fun kv => negb (snd kv <=? nowMs)) ann) ->
            NoDup emitted
            /\ (List.length emitted <= List.length (filter (fun b => b) takes))%nat
            /\ (forall i, In i emitted ->
                  In i ids /\ dispatches i = true
                  /\ announcedUntil announced i <= nowMs
                  /\ announcedUntil ann' i = nowMs + discoveryTtl cfg)
            /\ (forall i, nowMs < announcedUntil announced i ->
                  ~ In i emitted /\ announcedUntil ann' i = announcedUntil announced i)).
  { intros ann' Hann'.
    assert (Hkeep : forall i, nowMs < announcedUntil ann i ->
              announcedUntil ann' i = announcedUntil ann i).
    { intros i Hi. destruct Hann' as [-> | ->]; [reflexivity|].
      apply announcedUntil_prune. exact Hi. }
    pose proof (discoveryTtl_pos cfg) as Httl.
    split; [apply H3, uniq_NoDup|]. split; [exact H2|]. split.
    - intros i Hi. destruct (H4 i Hi) as [Ha [Hb [Hc Hd]]].
      apply (proj1 (uniq_In _ _)) in Ha.
      repeat split; try assumption. rewrite Hkeep; [exact Hd | lia].
    - intros i Hi. split.
      + intros Hin. destruct (H4 i Hin) as [_ [_ [Hc _]]]. lia.
      + rewrite Hkeep; rewrite (H6 i Hi); [reflexivity | exact Hi]. }
  destruct ((0 <? Z.of_nat (List.length emitted)) && (4096 <? JsMap.size ann));
    cbn [fst snd]; apply Hfinal; auto.
Qed.

(** X28: [emitDiscovered] announces each id at most once per call and at
    most as many ids as the token bucket gave tokens; an announced id is one
    of the given ids, was not announced or was due, and is then marked as
    announced for the TTL of the profile; an id still marked is not
    announced, and its mark survives the pruning of the map. *)
Theorem emitDiscovered_spec nowMs cfg dispatches takes announced ids :
  let emitted := fst (emitDiscovered nowMs cfg dispatches takes announced ids) in
  let announced' := snd (emitDiscovered nowMs cfg dispatches takes announced ids) in
  NoDup emitted
  /\ (List.length emitted <= List.length (filter (fun b => b) takes))%nat
  /\ (forall i, In i emitted ->
        In i ids /\ dispatches i = true
        /\ announcedUntil announced i <= nowMs
        /\ announcedUntil announced' i = nowMs + discoveryTtl cfg)
  /\ (forall i, nowMs < announcedUntil announced i ->
        ~ In i emitted /\ announcedUntil announced' i = announcedUntil announced i).
Proof. exact (emitDiscovered_spec_facts nowMs cfg dispatches takes announced ids). Qed.

(** X29: an id announced by one call of [emitDiscovered] is not announced
    again by the next call unless the TTL of the profile (10 min for core,
    30 min for edge) has passed. *)
Theorem emitDiscovered_not_twice now1 now2 cfg d1 d2 takes1 takes2 announced ids1 ids2 i :
  now2 < now1 + discoveryTtl cfg ->
  In i (fst (emitDiscovered now1 cfg d1 takes1 announced ids1)) ->
  ~ In i (fst (emitDiscovered now2 cfg d2 takes2
                 (snd (emitDiscovered now1 cfg d1 takes1 announced ids1)) ids2)).
Proof.
  intros Hsoon H1 H2.
  destruct (emitDiscovered_spec_facts now1 cfg d1 takes1 announced ids1) as [_ [_ [Hfirst _]]].
  destruct (Hfirst i H1) as [_ [_ [_ Hset]]].
  destruct (emitDiscovered_spec_facts now2 cfg d2 takes2
              (snd (emitDiscovered now1 cfg d1 takes1 announced ids1)) ids2)
    as [_ [_ [Hsecond _]]].
  destruct (Hsecond i H2) as [_ [_ [Hdue _]]]. lia.
Qed.

Lemma emitDiscovered_not_twice_witness :
  ~ In "a"%string
      (fst (emitDiscovered 1000 Samples.cfg0 (fun _ => true) [true]
              (snd (emitDiscovered 0 Samples.cfg0 (fun _ => true) [true] [] ["a"%string]))
              ["a"%string])).
Proof.
  apply (emitDiscovered_not_twice 0 1000 Samples.cfg0 (fun _ => true) (fun _ => true)
           [true] [true] [] ["a"%string] ["a"%string] "a"%string).
  - vm_compute. reflexivity.
  - vm_compute. left. reflexivity.
Defined.

(** ** Handling a leave notice *)

Lemma uniqFrom_prefix_app (a b seen : list Id) :
  IsPrefix (Js.uniqFrom seen a) (Js.uniqFrom seen (a ++ b)).
Proof.
  destruct (uniqFrom_app a b seen) as [seen' H]. rewrite H. apply IsPrefix_app.
Qed.


(** ** Payload inclusion *)

Section InclusionFacts.

Import PayloadHeuristic PayloadInclusion.

(** Big-endian bytes as a number. *)
Lemma bytesToBigInt_from (l : list Z) : forall acc,
  Forall (fun b => 0 <= b < 256) l ->
  fold_left (fun v b => Z.lor (Z.shiftl v 8) b) l acc
  = acc * 256 ^ Z.of_nat (List.length l)
    + fold_left (fun v b => Z.lor (Z.shiftl v 8) b) l 0.
Proof.
  induction l as [| x r IH]; intros acc Hb.
  - simpl. lia.
  - inversion Hb as [| ? ? Hx Hr]; subst. cbn [fold_left].
    rewrite (IH _ Hr). rewrite (IH (Z.lor (Z.shiftl 0 8) x) Hr).
    rewrite !lor_shiftl8 by exact Hx.
    cbn [List.length]. rewrite Nat2Z.inj_succ, Z.pow_succ_r by lia. lia.
Qed.

Lemma bytesToBigInt_cons x r :
  Forall (fun b => 0 <= b < 256) (x :: r) ->
  bytesToBigInt (x :: r) = x * 256 ^ Z.of_nat (List.length r) + bytesToBigInt r.
Proof.
  intros Hb. inversion Hb as [| ? ? Hx Hr]; subst.
  unfold bytesToBigInt. cbn [fold_left]. rewrite (bytesToBigInt_from r _ Hr).
  rewrite lor_shiftl8 by exact Hx. lia.
Qed.

Lemma bytesToBigInt_bound l :
  Forall (fun b => 0 <= b < 256) l ->
  0 <= bytesToBigInt l < 256 ^ Z.of_nat (List.length l).
Proof.
  induction l as [| x r IH]; intros Hb.
  - unfold bytesToBigInt. simpl. lia.
  - rewrite (bytesToBigInt_cons x r Hb). inversion Hb as [| ? ? Hx Hr]; subst.
    specialize (IH Hr). cbn [List.length]. rewrite Nat2Z.inj_succ, Z.pow_succ_r by lia.
    nia.
Qed.

(** On byte arrays of one length, [lexLess] is [<] on the numbers. *)
Lemma lexLess_bytesToBigInt (a : list Z) : forall b,
  List.length a = List.length b ->
  Forall (fun x => 0 <= x < 256) a -> Forall (fun x => 0 <= x < 256) b ->
  (lexLess a b = true <-> bytesToBigInt a < bytesToBigInt b).
Proof.
  induction a as [| x a IH]; intros [| y b] Hlen Ha Hb; try discriminate.
  - unfold bytesToBigInt. simpl. split; [discriminate | lia].
  - injection Hlen as Hlen.
    rewrite (bytesToBigInt_cons x a Ha), (bytesToBigInt_cons y b Hb).
    inversion Ha as [| ? ? Hx Ha']; inversion Hb as [| ? ? Hy Hb']; subst.
    pose proof (bytesToBigInt_bound a Ha') as Bda.
    pose proof (bytesToBigInt_bound b Hb') as Bdb.
    rewrite Hlen in Bda |- *. set (p := 256 ^ Z.of_nat (List.length b)) in *.
    assert (Hp : 0 < p) by (unfold p; apply Z.pow_pos_nonneg; lia).
    simpl lexLess.
    destruct (Z.ltb_spec x y) as [Hxy | Hxy].
    + split; [intros _; nia | reflexivity].
    + destruct (Z.ltb_spec y x) as [Hyx | Hyx].
      * split; [discriminate | intros H; exfalso; nia].
      * assert (x = y) by lia. subst y. rewrite (IH b Hlen Ha' Hb'). lia.
Qed.

Lemma byteCoord_Forall c : byteCoord c = true <-> Forall (fun x => 0 <= x < 256) c.
Proof.
  unfold byteCoord. rewrite forallb_forall, Forall_forall.
  split; intros H x Hx; specialize (H x Hx); unfold isByte in *.
  - apply andb_true_iff in H. destruct H as [H1 H2].
    apply Z.leb_le in H1. apply Z.ltb_lt in H2. lia.
  - apply andb_true_iff. split; [apply Z.leb_le | apply Z.ltb_lt]; lia.
Qed.

Lemma computeNearRadius_bytes n k :
  List.length (computeNearRadius n k 2) = 32%nat
  /\ Forall (fun b => 0 <= b < 256) (computeNearRadius n k 2).
Proof.
  unfold computeNearRadius. destruct (Qlt_le_dec n 1).
  - split; [apply repeat_length|].
    apply Forall_forall. intros b Hb. apply repeat_spec in Hb. lia.
  - split; [apply fillBytes_length | apply fillBytes_bytes; constructor].
Qed.

(** X9: [shouldIncludePayload] (with [beta = 2]) says yes only for a size
    estimate of at least 1, a positive confidence and a positive [k], when the
    distance is at most [2 * k * (2^256 / max 1 (round n))] and the
    probability test passes; a 32-byte distance that it accepts is within the
    near radius that [computeNearRadius] gives the selector. *)
Theorem shouldIncludePayload_only_near reaches dist n confidence k threshold
  (Hbytes : byteCoord dist = true)
  (Hyes : shouldIncludePayload reaches dist n confidence k 2 threshold = true) :
  (1 <= n)%Q /\ (0 < confidence)%Q /\ 0 < k
  /\ bytesToBigInt dist <= 2 * k * (2 ^ 256 / Z.max 1 (Js.mathRound n))
  /\ reaches (2 * k * (2 ^ 256 / Z.max 1 (Js.mathRound n)) - bytesToBigInt dist)
       (2 * k * (2 ^ 256 / Z.max 1 (Js.mathRound n))) confidence threshold = true
  /\ (List.length dist = 32%nat -> isNear dist (computeNearRadius n k 2) = true).
Proof.
  revert Hyes. unfold shouldIncludePayload.
  destruct (Qlt_le_dec n 1) as [Hlt | Hge]; [discriminate|].
  destruct (Qle_bool confidence 0) eqn:Hc; [discriminate|].
  apply Qle_bool_false in Hc.
  set (d := Z.max 1 (Js.mathRound n)).
  assert (Hd : 1 <= d) by (unfold d; lia).
  assert (Hq : Z.quot RING_SIZE d = 2 ^ 256 / d).
  { change RING_SIZE with (2 ^ 256). apply Z.quot_div_nonneg; lia. }
  rewrite Hq. cbv zeta.
  assert (Hdiv : 0 <= 2 ^ 256 / d) by (apply Z.div_pos; lia).
  replace (k * (2 ^ 256 / d) * 2) with (2 * k * (2 ^ 256 / d)) by lia.
  destruct (Z.eqb_spec (2 * k * (2 ^ 256 / d)) 0) as [Hz | Hnz]; [discriminate|].
  destruct (Z.ltb_spec (2 * k * (2 ^ 256 / d)) (bytesToBigInt dist)) as [Hfar | Hnear];
    [discriminate|].
  intros Hyes.
  pose proof (proj1 (byteCoord_Forall dist) Hbytes) as Hb.
  pose proof (bytesToBigInt_bound dist Hb) as Bd.
  assert (Hk : 0 < k) by nia.
  repeat split; try assumption; try lia.
  intros Hl. unfold isNear. apply negb_true_iff.
  destruct (lexLess (computeNearRadius n k 2) dist) eqn:E; [|reflexivity].
  exfalso.
  destruct (computeNearRadius_bytes n k) as [Rl Rb].
  apply (lexLess_bytesToBigInt _ dist) in E; [| congruence | exact Rb | exact Hb].
  rewrite Hl in Bd. change (256 ^ Z.of_nat 32) with (2 ^ 256) in Bd.
  assert (Hkpos : 0 <= k) by lia.
  rewrite (computeNearRadius_value n k Hge Hkpos) in E. fold d in E. lia.
Qed.

Lemma shouldIncludePayload_only_near_witness :
  0 < 15
  /\ isNear (coordByte 5) (PayloadHeuristic.computeNearRadius 10 15 2) = true.
Proof.
  destruct (shouldIncludePayload_only_near Samples.alwaysReaches (coordByte 5) 10 (1 # 2) 15
              (1 # 2)) as [_ [_ [H1 [_ [_ H2]]]]].
  - vm_compute. reflexivity.
  - vm_compute. reflexivity.
  - split; [exact H1 | apply H2; reflexivity].
Defined.

End InclusionFacts.
